(** * The character catalogue query engine of [server.js]

    A shallow embedding of the request handlers of [server.js] (the
    [/races] and [/characters] routes and their helpers [getByPath],
    [norm], [setByPath] and [prepareCharacter]) together with the
    properties of the engine stated in the specification.

    Conventions of the embedding.

    - A JavaScript string is a [string]: a sequence of code units, each
      below 256 (the Latin-1 range, which the operations used by the
      server never leave).
    - A JavaScript number is a [number]: [NaN], an infinity, or the exact
      decimal value [m * 10^e].  [parseInt] rounds the integer that it
      reads to the nearest double, as the engine does: above 2^53 the
      last bits are lost, and a run of digits too long for a double is
      read as [Infinity].  The arithmetic that follows is exact; on the
      numbers of the pagination (a count below 2^32, a page and a limit
      that [parseInt] has rounded) the doubles of the engine are exact
      as well.
    - A JavaScript value is a [value]: the JSON universe (the collection
      is loaded from [characters.json]) extended with [undefined].  A
      property read sees own properties only.  The members that an
      object inherits from the built-in prototypes are not part of the
      universe: what is proved of writes at arbitrary paths is stated
      for the paths that do not go through [__proto__] ([proto_free]),
      what is proved of reads at arbitrary names for the names that are
      no such member ([own_name]), and what is proved of [String(v)] and
      [Number(v)] not throwing for the values in which no object
      overrides the method that the conversion calls ([printable]).
    - [Array.prototype.sort] gives the stable sorted array whenever the
      comparator is a consistent order on the elements; otherwise the
      order is the one that the sort of V8 produces on short arrays.
    - A statement that may throw is a [completion]. *)

From Stdlib Require Import ZArith List String Ascii Bool Lia Arith.
From Stdlib Require Import Sorted Permutation.
From Stdlib Require Import DecimalString DecimalN.
Import ListNotations.

Local Open Scope string_scope.
Local Open Scope list_scope.
Local Open Scope Z_scope.

(** ** Strings *)

Module JsString.

Definition code (c : ascii) : N := N_of_ascii c.

(** White space and line terminators of ECMAScript below code unit 256:
    TAB, LF, VT, FF, CR, SP and NBSP. *)
Definition is_white (c : ascii) : bool :=
  let n := code c in
  ((9 <=? n) && (n <=? 13) || (n =? 32) || (n =? 160))%N.

Fixpoint drop_white (l : list ascii) : list ascii :=
  match l with
  | [] => []
  | c :: r => if is_white c then drop_white r else l
  end.

(** [String.prototype.trim] *)
Definition trim (s : string) : string :=
  string_of_list_ascii
    (rev (drop_white (rev (drop_white (list_ascii_of_string s))))).

(** Lower-case mapping of one code unit: A-Z, and the Latin-1 capitals
    U+00C0..U+00DE except the multiplication sign U+00D7. *)
Definition lower_char (c : ascii) : ascii :=
  let n := code c in
  if ((65 <=? n) && (n <=? 90)
      || (192 <=? n) && (n <=? 222) && negb (n =? 215))%N
  then ascii_of_N (n + 32) else c.

(** [String.prototype.toLowerCase] *)
Fixpoint toLowerCase (s : string) : string :=
  match s with
  | EmptyString => EmptyString
  | String c r => String (lower_char c) (toLowerCase r)
  end.

(** [String.prototype.split] with a separator of one code unit: the
    result always has at least one piece. *)
Fixpoint split (sep : ascii) (s : string) : list string :=
  match s with
  | EmptyString => [EmptyString]
  | String c r =>
      if Ascii.eqb c sep then EmptyString :: split sep r
      else match split sep r with
           | h :: t => String c h :: t
           | [] => [String c EmptyString]
           end
  end.

(** [String.prototype.includes]: [sub] occurs somewhere in [s]. *)
Fixpoint includes (s sub : string) : bool :=
  String.prefix sub s ||
  match s with
  | EmptyString => false
  | String _ r => includes r sub
  end.

(** [Boolean(s)] for a string, as in [.filter(Boolean)]. *)
Definition nonempty (s : string) : bool :=
  match s with EmptyString => false | _ => true end.

(** [Array.prototype.includes] on an array of strings. *)
Definition mem (s : string) (l : list string) : bool :=
  existsb (String.eqb s) l.

End JsString.

(** ** Numbers *)

(** The least integer that is not below [a / b]. *)
Definition ceil_div (a b : Z) : Z := - ((- a) / b).

Module JsNumber.

Inductive number : Type :=
| NaN
| Inf (neg : bool)
| Fin (m e : Z).        (* the value m * 10^e *)

Definition of_Z (n : Z) : number := Fin n 0.

Definition isNaN (x : number) : bool :=
  match x with NaN => true | _ => false end.

(** The two mantissas of [m1 * 10^e1] and [m2 * 10^e2] over their
    common exponent [min e1 e2]. *)
Definition align (m1 e1 m2 e2 : Z) : Z * Z :=
  let e := Z.min e1 e2 in
  (m1 * 10 ^ (e1 - e), m2 * 10 ^ (e2 - e)).

(** Numerical order of two numbers, neither of which is [NaN]. *)
Definition compare (x y : number) : comparison :=
  match x, y with
  | Fin m1 e1, Fin m2 e2 =>
      let (a, b) := align m1 e1 m2 e2 in Z.compare a b
  | Inf true, Inf true => Eq
  | Inf false, Inf false => Eq
  | Inf true, _ => Lt
  | _, Inf true => Gt
  | Inf false, _ => Gt
  | _, Inf false => Lt
  | _, _ => Eq
  end.

(** [x === y] on numbers: [NaN] equals nothing. *)
Definition eqb (x y : number) : bool :=
  match x, y with
  | NaN, _ | _, NaN => false
  | _, _ => match compare x y with Eq => true | _ => false end
  end.

(** [x - y] *)
Definition sub (x y : number) : number :=
  match x, y with
  | NaN, _ | _, NaN => NaN
  | Inf s, Inf t => if Bool.eqb s t then NaN else Inf s
  | Inf s, Fin _ _ => Inf s
  | Fin _ _, Inf t => Inf (negb t)
  | Fin m1 e1, Fin m2 e2 =>
      let (a, b) := align m1 e1 m2 e2 in Fin (a - b) (Z.min e1 e2)
  end.

(** [-x] *)
Definition neg (x : number) : number :=
  match x with
  | NaN => NaN
  | Inf s => Inf (negb s)
  | Fin m e => Fin (- m) e
  end.

(** [x + y] *)
Definition add (x y : number) : number :=
  match x, y with
  | NaN, _ | _, NaN => NaN
  | Inf s, Inf t => if Bool.eqb s t then Inf s else NaN
  | Inf s, Fin _ _ => Inf s
  | Fin _ _, Inf t => Inf t
  | Fin m1 e1, Fin m2 e2 =>
      let (a, b) := align m1 e1 m2 e2 in Fin (a + b) (Z.min e1 e2)
  end.

(** [x * y]: zero times an infinity is [NaN]. *)
Definition mul (x y : number) : number :=
  match x, y with
  | NaN, _ | _, NaN => NaN
  | Inf s, Inf t => Inf (xorb s t)
  | Inf s, Fin m _ | Fin m _, Inf s =>
      if m =? 0 then NaN else Inf (xorb s (m <? 0))
  | Fin m1 e1, Fin m2 e2 => Fin (m1 * m2) (e1 + e2)
  end.

(** [Math.max(x, y)] and [Math.min(x, y)]: [NaN] when an argument is. *)
Definition max (x y : number) : number :=
  if isNaN x || isNaN y then NaN
  else match compare x y with Lt => y | _ => x end.

Definition min (x y : number) : number :=
  if isNaN x || isNaN y then NaN
  else match compare x y with Gt => y | _ => x end.

(** [Math.ceil(x / y)].  The quotient of two decimals need not be a
    decimal, so that the two steps are taken at once, on the exact
    quotient.  (The quotient of the engine is rounded to 53 bits, which
    does not move it across an integer as long as [x] is an integer
    below 2^53 and [y] an integer.) *)
Definition ceil_quot (x y : number) : number :=
  match x, y with
  | NaN, _ | _, NaN => NaN
  | Inf _, Inf _ => NaN
  | Inf s, Fin m _ => Inf (xorb s (m <? 0))
  | Fin _ _, Inf _ => Fin 0 0
  | Fin m1 e1, Fin m2 e2 =>
      if m2 =? 0 then (if m1 =? 0 then NaN else Inf (m1 <? 0))
      else let (a, b) := align m1 e1 m2 e2 in Fin (ceil_div a b) 0
  end.

(** [ToIntegerOrInfinity(x)] for a finite [x]: the fraction is cut
    off. *)
Definition truncate (m e : Z) : Z :=
  if 0 <=? e then m * 10 ^ e else Z.quot m (10 ^ (- e)).

(** The sign that [Array.prototype.sort] reads off the result of its
    comparator: [NaN] counts as zero. *)
Definition sign (x : number) : comparison :=
  match x with
  | NaN => Eq
  | Inf true => Lt
  | Inf false => Gt
  | Fin m _ => Z.compare m 0
  end.

(** [Boolean(x)] for a number: zero and [NaN] are falsy. *)
Definition truthy (x : number) : bool :=
  match x with
  | NaN => false
  | Inf _ => true
  | Fin m _ => negb (m =? 0)
  end.

(** *** Reading numbers *)

Definition is_digit (c : ascii) : bool :=
  let n := JsString.code c in ((48 <=? n) && (n <=? 57))%N.

Definition digit_val (c : ascii) : Z := Z.of_N (JsString.code c) - 48.

(** Value of a run of decimal digits, most significant first. *)
Definition digits_val (l : list ascii) : Z :=
  fold_left (fun acc c => 10 * acc + digit_val c) l 0.

(** Longest prefix of decimal digits, and the rest. *)
Fixpoint span_digits (l : list ascii) : list ascii * list ascii :=
  match l with
  | c :: r =>
      if is_digit c then let (d, t) := span_digits r in (c :: d, t)
      else ([], l)
  | [] => ([], [])
  end.

(** An optional sign: [true] for a leading minus. *)
Definition take_sign (l : list ascii) : bool * list ascii :=
  match l with
  | "-"%char :: r => (true, r)
  | "+"%char :: r => (false, r)
  | _ => (false, l)
  end.

(** The integer that [parseInt(s, 10)] reads: leading white space, an
    optional sign and the longest run of digits; [None] when there is
    no digit. *)
Definition read_int (s : string) : option Z :=
  let (sg, r) :=
    take_sign (JsString.drop_white (list_ascii_of_string s)) in
  match span_digits r with
  | ([], _) => None
  | (d, _) => Some (if sg then - digits_val d else digits_val d)
  end.

(** The double nearest to a natural number [a]: [a] itself when it has
    at most 53 bits; otherwise its 53 leading bits, rounded to the
    nearest with ties to the even one; [Infinity] when this reaches
    2^1024. *)
Definition round_nat (a : Z) : number :=
  let bits := Z.log2 a + 1 in
  if bits <=? 53 then Fin a 0
  else
    let sh := bits - 53 in
    let q := Z.shiftr a sh in
    let r := Z.land a (Z.ones sh) in
    let half := Z.shiftl 1 (sh - 1) in
    let q' := if (half <? r) || ((r =? half) && Z.odd q) then q + 1
              else q in
    let v := Z.shiftl q' sh in
    if 2 ^ 1024 <=? v then Inf false else Fin v 0.

(** The double nearest to an integer. *)
Definition round_int (n : Z) : number :=
  if n <? 0 then neg (round_nat (- n)) else round_nat n.

(** [parseInt(s, 10)]: the integer read, as a double, or [NaN].  (Every
    digit counts, as in V8; the standard lets an engine read the digits
    after the twentieth as zeros.) *)
Definition parseInt (s : string) : number :=
  match read_int s with
  | Some n => round_int n
  | None => NaN
  end.

Definition hex_val (c : ascii) : option Z :=
  let n := JsString.code c in
  if ((48 <=? n) && (n <=? 57))%N then Some (Z.of_N n - 48)
  else if ((97 <=? n) && (n <=? 102))%N then Some (Z.of_N n - 87)
  else if ((65 <=? n) && (n <=? 70))%N then Some (Z.of_N n - 55)
  else None.

(** Value of a non-empty run of digits in base [b]. *)
Fixpoint radix_val (b : Z) (l : list ascii) (acc : Z) : option Z :=
  match l with
  | [] => Some acc
  | c :: r =>
      match hex_val c with
      | Some d => if d <? b then radix_val b r (b * acc + d) else None
      | None => None
      end
  end.

Definition radix_literal (b : Z) (l : list ascii) : number :=
  match l with
  | [] => NaN
  | _ => match radix_val b l 0 with Some n => Fin n 0 | None => NaN end
  end.

(** The exponent part of a decimal literal: nothing, or [e] or [E], an
    optional sign and at least one digit, up to the end. *)
Definition exponent_part (l : list ascii) : option Z :=
  match l with
  | [] => Some 0
  | c :: r =>
      if (Ascii.eqb c "e" || Ascii.eqb c "E")%bool then
        let (sg, r') := take_sign r in
        match span_digits r' with
        | ((_ :: _) as d, []) =>
            Some (if sg then - digits_val d else digits_val d)
        | _ => None
        end
      else None
  end.

(** An unsigned decimal literal: digits, an optional fraction, an
    optional exponent, with at least one digit before the exponent. *)
Definition unsigned_decimal (l : list ascii) : option (Z * Z) :=
  let (ip, r1) := span_digits l in
  let '(fp, r2) :=
    match r1 with
    | "."%char :: r => span_digits r
    | _ => ([], r1)
    end in
  match ip ++ fp with
  | [] => None
  | ds =>
      match exponent_part r2 with
      | Some x => Some (digits_val ds, x - Z.of_nat (List.length fp))
      | None => None
      end
  end.

Definition infinity_text : list ascii := list_ascii_of_string "Infinity".

Definition list_ascii_eqb (a b : list ascii) : bool :=
  String.eqb (string_of_list_ascii a) (string_of_list_ascii b).

(** [Number(s)] for a string (StringToNumber): the text is trimmed; the
    empty text is 0; then an unsigned [0x], [0o] or [0b] literal, or a
    signed [Infinity] or decimal literal; anything else is [NaN]. *)
Definition of_string (s : string) : number :=
  match list_ascii_of_string (JsString.trim s) with
  | [] => Fin 0 0
  | "0"%char :: "x"%char :: r | "0"%char :: "X"%char :: r =>
      radix_literal 16 r
  | "0"%char :: "o"%char :: r | "0"%char :: "O"%char :: r =>
      radix_literal 8 r
  | "0"%char :: "b"%char :: r | "0"%char :: "B"%char :: r =>
      radix_literal 2 r
  | l =>
      let (sg, r) := take_sign l in
      if list_ascii_eqb r infinity_text then Inf sg
      else match unsigned_decimal r with
           | Some (m, e) => Fin (if sg then - m else m) e
           | None => NaN
           end
  end.

(** *** Printing numbers *)

Definition digits_of (n : Z) : list ascii :=
  list_ascii_of_string (NilZero.string_of_uint (N.to_uint (Z.to_N n))).

Definition is_zero_char (c : ascii) : bool := Ascii.eqb c "0".

Fixpoint drop_zeros (l : list ascii) : list ascii :=
  match l with
  | c :: r => if is_zero_char c then drop_zeros r else l
  | [] => []
  end.

Definition zeros (n : nat) : list ascii := repeat "0"%char n.

Definition exponent_text (x : Z) : list ascii :=
  "e"%char :: (if x <? 0 then "-"%char else "+"%char)
           :: digits_of (Z.abs x).

(** The digits [ds] (no trailing zero, [k] of them) of a positive
    number whose decimal point sits after digit [n], laid out as
    Number::toString does. *)
Definition layout (ds : list ascii) (n : Z) : list ascii :=
  let k := Z.of_nat (List.length ds) in
  if (k <=? n) && (n <=? 21) then
    ds ++ zeros (Z.to_nat (n - k))
  else if (0 <? n) && (n <=? 21) then
    firstn (Z.to_nat n) ds ++ "."%char :: skipn (Z.to_nat n) ds
  else if (-6 <? n) && (n <=? 0) then
    "0"%char :: "."%char :: zeros (Z.to_nat (- n)) ++ ds
  else
    match ds with
    | [d] => d :: exponent_text (n - 1)
    | d :: r => d :: "."%char :: r ++ exponent_text (n - 1)
    | [] => []
    end.

(** [String(x)] for a number. *)
Definition to_string (x : number) : string :=
  match x with
  | NaN => "NaN"
  | Inf false => "Infinity"
  | Inf true => "-Infinity"
  | Fin m e =>
      if m =? 0 then "0"
      else
        let all := digits_of (Z.abs m) in
        let ds := rev (drop_zeros (rev all)) in
        let n := Z.of_nat (List.length all) + e in
        string_of_list_ascii
          ((if m <? 0 then ["-"%char] else []) ++ layout ds n)
  end.

End JsNumber.

Export JsNumber (number (..)).

(** ** Completions *)

Inductive error : Type := TypeError | RangeError.

Inductive completion (A : Type) : Type :=
| Normal (a : A)
| Throw (e : error).

Arguments Normal {A} a.
Arguments Throw {A} e.

Definition bind {A B : Type} (c : completion A) (k : A -> completion B)
  : completion B :=
  match c with
  | Normal a => k a
  | Throw e => Throw e
  end.

Notation "x <- c ;; k" := (bind c (fun x => k))
  (at level 61, c at next level, right associativity).

(** [l.map(f)] and [l.filter(f)] for a callback that may throw. *)
Fixpoint mapM {A B : Type} (f : A -> completion B) (l : list A)
  : completion (list B) :=
  match l with
  | [] => Normal []
  | a :: r => b <- f a ;; bs <- mapM f r ;; Normal (b :: bs)
  end.

Fixpoint filterM {A : Type} (f : A -> completion bool) (l : list A)
  : completion (list A) :=
  match l with
  | [] => Normal []
  | a :: r =>
      keep <- f a ;; rest <- filterM f r ;;
      Normal (if keep then a :: rest else rest)
  end.

(** ** Values *)

Unset Elimination Schemes.

(** An array carries its elements and, being an object, whatever named
    properties have been assigned to it; a hole of a sparse array reads
    as [undefined] and is kept as [VUndef]. *)
Inductive value : Type :=
| VUndef
| VNull
| VBool (b : bool)
| VNum (x : number)
| VStr (s : string)
| VArr (elems : list value) (named : list (string * value))
| VObj (props : list (string * value)).

Set Elimination Schemes.

Section ValueInduction.

Variable P : value -> Prop.
Hypothesis Hundef : P VUndef.
Hypothesis Hnull : P VNull.
Hypothesis Hbool : forall b, P (VBool b).
Hypothesis Hnum : forall x, P (VNum x).
Hypothesis Hstr : forall s, P (VStr s).
Hypothesis Harr : forall elems named,
    Forall P elems -> Forall (fun kv => P (snd kv)) named ->
    P (VArr elems named).
Hypothesis Hobj : forall props,
    Forall (fun kv => P (snd kv)) props -> P (VObj props).

Fixpoint value_ind (v : value) : P v :=
  let fix all (l : list value) : Forall P l :=
    match l with
    | [] => Forall_nil _
    | x :: r => Forall_cons x (value_ind x) (all r)
    end in
  let fix all_snd (l : list (string * value))
    : Forall (fun kv => P (snd kv)) l :=
    match l with
    | [] => Forall_nil _
    | kv :: r =>
        Forall_cons (P := fun kv => P (snd kv)) kv
          (value_ind (snd kv)) (all_snd r)
    end in
  match v with
  | VUndef => Hundef
  | VNull => Hnull
  | VBool b => Hbool b
  | VNum x => Hnum x
  | VStr s => Hstr s
  | VArr elems named => Harr elems named (all elems) (all_snd named)
  | VObj props => Hobj props (all_snd props)
  end.

End ValueInduction.

(** A JSON array: no named property. *)
Abbreviation JArr l := (VArr l []).

Module JsValue.

(** [v == null] *)
Definition nullish (v : value) : bool :=
  match v with VUndef | VNull => true | _ => false end.

(** [v === undefined] *)
Definition is_undefined (v : value) : bool :=
  match v with VUndef => true | _ => false end.

(** [Array.isArray(v)] *)
Definition isArray (v : value) : bool :=
  match v with VArr _ _ => true | _ => false end.

(** [typeof v === 'object' && v !== null] *)
Definition is_object (v : value) : bool :=
  match v with VArr _ _ | VObj _ => true | _ => false end.

(** [Boolean(v)] *)
Definition truthy (v : value) : bool :=
  match v with
  | VUndef | VNull => false
  | VBool b => b
  | VNum x => JsNumber.truthy x
  | VStr s => JsString.nonempty s
  | VArr _ _ | VObj _ => true
  end.

(** [String(v)]: an array prints its elements separated by commas, a
    [null] or [undefined] element as nothing; a plain object prints as
    [[object Object]].  This is the method [toString] that the value
    inherits; where an own property takes its place (see [printable]
    below) the engine throws instead. *)
Fixpoint to_string (v : value) : string :=
  match v with
  | VUndef => "undefined"
  | VNull => "null"
  | VBool true => "true"
  | VBool false => "false"
  | VNum x => JsNumber.to_string x
  | VStr s => s
  | VArr elems _ =>
      String.concat ","
        (map (fun e => match e with
                       | VUndef | VNull => EmptyString
                       | _ => to_string e
                       end) elems)
  | VObj _ => "[object Object]"
  end.

(** [Number(v)]: an object is converted through its text, with the
    same proviso. *)
Definition to_number (v : value) : number :=
  match v with
  | VUndef => NaN
  | VNull => Fin 0 0
  | VBool true => Fin 1 0
  | VBool false => Fin 0 0
  | VNum x => x
  | VStr s => JsNumber.of_string s
  | VArr _ _ | VObj _ => JsNumber.of_string (to_string v)
  end.

(** *** Association lists: the properties of an object, in insertion
    order *)

Fixpoint lookup (k : string) (l : list (string * value)) : value :=
  match l with
  | [] => VUndef
  | (k', v) :: r => if String.eqb k k' then v else lookup k r
  end.

(** An existing property keeps its place, a new one goes last. *)
Fixpoint assign (k : string) (v : value) (l : list (string * value))
  : list (string * value) :=
  match l with
  | [] => [(k, v)]
  | (k', v') :: r =>
      if String.eqb k k' then (k, v) :: r else (k', v') :: assign k v r
  end.

(** *** Indexed properties *)

(** A property key is an array index when it is the canonical decimal
    form of an integer below 2^32 - 1. *)
Definition array_index (k : string) : option nat :=
  let l := list_ascii_of_string k in
  match l with
  | [] => None
  | c :: r =>
      if forallb JsNumber.is_digit l
         && (negb (JsNumber.is_zero_char c)
             || match r with [] => true | _ => false end)
         && (JsNumber.digits_val l <? 2 ^ 32 - 1)
      then Some (Z.to_nat (JsNumber.digits_val l)) else None
  end.

(** [elems[i] = v], growing the array with holes when needed. *)
Fixpoint set_nth (i : nat) (v : value) (l : list value) : list value :=
  match i, l with
  | O, [] => [v]
  | O, _ :: r => v :: r
  | S j, [] => VUndef :: set_nth j v []
  | S j, x :: r => x :: set_nth j v r
  end.

(** [elems.length = n] *)
Definition resize (n : nat) (l : list value) : list value :=
  firstn n l ++ repeat VUndef (n - List.length l).

(** The integer a number denotes, when it denotes one. *)
Definition to_integer (x : number) : option Z :=
  match x with
  | Fin m e =>
      if 0 <=? e then Some (m * 10 ^ e)
      else if m mod 10 ^ (- e) =? 0 then Some (m / 10 ^ (- e))
      else None
  | _ => None
  end.

Definition char_at (i : nat) (s : string) : value :=
  match String.get i s with
  | Some c => VStr (String c EmptyString)
  | None => VUndef
  end.

(** *** Property access *)

(** [node[k]] for a node that is neither [null] nor [undefined]: the
    own property of that name.  (Where the node has none and inherits a
    member of that name, the engine finds the member: see [own_name]
    below.) *)
Definition get_prop (node : value) (k : string) : value :=
  match node with
  | VObj props => lookup k props
  | VArr elems named =>
      match array_index k with
      | Some i => nth i elems VUndef
      | None =>
          if String.eqb k "length"
          then VNum (JsNumber.of_Z (Z.of_nat (List.length elems)))
          else lookup k named
      end
  | VStr s =>
      match array_index k with
      | Some i => char_at i s
      | None =>
          if String.eqb k "length"
          then VNum (JsNumber.of_Z (Z.of_nat (String.length s)))
          else VUndef
      end
  | _ => VUndef
  end.

(** [node[k]], which throws on [null] and [undefined]. *)
Definition read (node : value) (k : string) : completion value :=
  if nullish node then Throw TypeError else Normal (get_prop node k).

(** [node?.[k]] *)
Definition read_opt (node : value) (k : string) : value :=
  if nullish node then VUndef else get_prop node k.

(** [node[k] = v]: the node after the assignment.  Assigning to the
    [length] of an array throws unless the value converts to an integer
    in range; assigning to a property of a primitive is ignored (the
    module is not in strict mode).  (An assignment to [__proto__] on a
    node that has no own property of that name goes to the inherited
    setter instead: see [proto_free] below.) *)
Definition set_prop (node : value) (k : string) (v : value)
  : completion value :=
  match node with
  | VUndef | VNull => Throw TypeError
  | VObj props => Normal (VObj (assign k v props))
  | VArr elems named =>
      match array_index k with
      | Some i => Normal (VArr (set_nth i v elems) named)
      | None =>
          if String.eqb k "length" then
            match to_integer (to_number v) with
            | Some n =>
                if (0 <=? n) && (n <? 2 ^ 32)
                then Normal (VArr (resize (Z.to_nat n) elems) named)
                else Throw RangeError
            | None => Throw RangeError
            end
          else Normal (VArr elems (assign k v named))
      end
  | _ => Normal node
  end.

(** *** The border of the universe *)

(** The names that every object inherits from [Object.prototype].  On
    an object that has no own property of that name, a read of one of
    them finds the inherited member, and a write to [__proto__] calls
    the inherited setter instead of creating a property. *)
Definition inherited_names : list string :=
  ["__proto__"; "constructor"; "hasOwnProperty"; "isPrototypeOf";
   "propertyIsEnumerable"; "toLocaleString"; "toString"; "valueOf";
   "__defineGetter__"; "__defineSetter__"; "__lookupGetter__";
   "__lookupSetter__"].

(** A key that is none of them: [get_prop] is what the engine reads at
    such a key of a plain object. *)
Definition own_name (k : string) : bool :=
  negb (JsString.mem k inherited_names).

(** The keys of a path that does not go through [__proto__], the one
    inherited member that is an object and has a setter: [setByPath]
    overwrites every other one with an own property, as [set_prop]
    does. *)
Definition proto_free (keys : list string) : bool :=
  negb (JsString.mem "__proto__" keys).

Definition has_key (k : string) (l : list (string * value)) : bool :=
  JsString.mem k (map fst l).

(** [String(v)] and [Number(v)] call the method [toString] of an
    object, and the handlers call [map], [includes] and the like on an
    array.  An own property of that name, which cannot be a function
    here, takes the place of the method: the call then throws a
    [TypeError].  A value is printable when no object in it has an own
    property [toString] and no array in it a named property (an array
    that comes from JSON has none): [to_string] and [to_number] are what
    the engine does on such a value, and no method call on it throws. *)
Fixpoint printable (v : value) : bool :=
  match v with
  | VArr elems named =>
      match named with [] => true | _ :: _ => false end
      && forallb printable elems
  | VObj props =>
      negb (has_key "toString" props)
      && forallb (fun kv => printable (snd kv)) props
  | _ => true
  end.

End JsValue.

Import JsValue.

(** ** The helpers of [server.js] *)

(** [getByPath(obj, path)] on the keys of a path. *)
Definition get_keys (obj : value) (keys : list string) : value :=
  fold_left (fun acc key => if nullish acc then VUndef else get_prop acc key)
    keys obj.

(** [const getByPath = (obj, path) => ...] *)
Definition getByPath (obj : value) (path : string) : value :=
  if negb (JsString.nonempty path) then VUndef
  else get_keys obj (JsString.split "." path).

(** [const norm = (v) => (v == null ? '' : String(v).toLowerCase())] *)
Definition norm (v : value) : string :=
  if nullish v then EmptyString else JsString.toLowerCase (to_string v).

(** The loop of [setByPath] from the node reached so far and the keys
    that remain; the result is that node after the loop.  An
    intermediate node is updated in place, so the node that holds it
    sees the update. *)
Fixpoint set_keys (node : value) (keys : list string) (v : value)
  : completion value :=
  match keys with
  | [] => Normal node
  | [k] => set_prop node k v
  | k :: ks =>
      cur <- read node k ;;
      node1 <- (if is_object cur then Normal node
                else set_prop node k (VObj [])) ;;
      child <- set_keys (get_prop node1 k) ks v ;;
      set_prop node1 k child
  end.

(** [const setByPath = (target, path, value) => ...]: the target after
    the call. *)
Definition setByPath (target : value) (path : string) (v : value)
  : completion value :=
  set_keys target (JsString.split "." path) v.

(** The field list of [prepareCharacter]: the truthy entries, as trimmed
    text, the empty ones dropped. *)
Definition field_list (fields : value) : list string :=
  match fields with
  | VArr elems _ =>
      filter JsString.nonempty
        (map (fun s => JsString.trim (to_string s)) (filter truthy elems))
  | _ => []
  end.

(** [fields === '*' || (Array.isArray(fields) && fields.includes('*'))] *)
Definition wants_all (fields : value) : bool :=
  match fields with
  | VStr s => String.eqb s "*"
  | VArr elems _ =>
      existsb (fun e => match e with
                        | VStr s => String.eqb s "*"
                        | _ => false
                        end) elems
  | _ => false
  end.

(** The loop of [prepareCharacter] over the field list. *)
Fixpoint pick (character : value) (list : list string) (out : value)
  : completion value :=
  match list with
  | [] => Normal out
  | p :: r =>
      let val := getByPath character p in
      match val with
      | VUndef => pick character r out
      | _ => out1 <- setByPath out p val ;; pick character r out1
      end
  end.

(** [function prepareCharacter(character, fields)] *)
Definition prepareCharacter (character fields : value) : completion value :=
  if negb (truthy character) then Normal character
  else if wants_all fields then Normal character
  else
    match field_list fields with
    | [] => Normal (VObj [])
    | list => pick character list (VObj [])
    end.

(** ** [Array.prototype.sort] *)

(** The elements that are [undefined] go last, and the comparator is not
    called on them.  On the others the sort is stable (ECMAScript 2019):
    whenever the comparator is a consistent order on them, the sorted
    array is the one in which an element stands behind another one only
    when the comparator ranks it strictly after or when it came after;
    it is computed here by insertion.  For any other comparator the
    standard leaves the order to the engine.  V8 then does what it does
    for every array of fewer than 64 elements: it takes the run that the
    array starts with (reversing it when it descends) and inserts the
    remaining elements one by one, at the place that a binary search
    gives.  (An array of 64 elements or more is sorted run by run and the
    runs are merged; with a comparator that is no consistent order this
    case is not told apart here.) *)
Section Sort.

Context {A : Type}.
Variable comparefn : A -> A -> number.
Variable is_undef : A -> bool.

(** [comparefn(x, y) > 0] *)
Definition goes_after (x y : A) : bool :=
  match JsNumber.sign (comparefn x y) with Gt => true | _ => false end.

(** [comparefn(x, y) < 0] *)
Definition goes_before (x y : A) : bool :=
  match JsNumber.sign (comparefn x y) with Lt => true | _ => false end.

(** The comparator is a consistent order on the elements: among them,
    not ranking strictly after is a total and transitive relation. *)
Definition consistent_on (l : list A) : bool :=
  forallb
    (fun x =>
       forallb
         (fun y =>
            (negb (goes_after x y) || negb (goes_after y x))
            && forallb
                 (fun z =>
                    goes_after x y || goes_after y z
                    || negb (goes_after x z))
                 l)
         l)
    l.

Fixpoint insert (x : A) (l : list A) : list A :=
  match l with
  | [] => [x]
  | y :: r => if goes_after x y then y :: insert x r else x :: l
  end.

Definition sort_defined (l : list A) : list A := fold_right insert [] l.

(** The run goes on as long as each element compared with the one
    before it falls on the side that the first two elements fell on:
    strictly before it in a descending run, not before it otherwise. *)
Fixpoint run_tail (descending : bool) (previous : A) (l : list A)
  : list A * list A :=
  match l with
  | [] => ([], [])
  | current :: r =>
      if Bool.eqb (goes_before current previous) descending
      then let (run, rest) := run_tail descending current r in
           (current :: run, rest)
      else ([], l)
  end.

(** The first run, in ascending order, and the elements after it. *)
Definition count_and_make_run (l : list A) : list A * list A :=
  match l with
  | low :: high :: r =>
      let descending := goes_before high low in
      let (run, rest) := run_tail descending high r in
      (if descending then rev (low :: high :: run) else low :: high :: run,
       rest)
  | _ => (l, [])
  end.

(** The binary search for the place of [pivot] between the positions
    [left] and [right] of [work]. *)
Fixpoint binary_search (steps : nat) (pivot : A) (work : list A)
         (left right : nat) : nat :=
  match steps with
  | O => left
  | S steps' =>
      if (left <? right)%nat then
        let mid := (left + (right - left) / 2)%nat in
        match nth_error work mid with
        | Some y =>
            if goes_before pivot y
            then binary_search steps' pivot work left mid
            else binary_search steps' pivot work (S mid) right
        | None => left
        end
      else left
  end.

Definition binary_insert (work : list A) (pivot : A) : list A :=
  let place :=
    binary_search (List.length work) pivot work 0 (List.length work) in
  firstn place work ++ pivot :: skipn place work.

Definition binary_insertion_sort (l : list A) : list A :=
  let (run, rest) := count_and_make_run l in
  fold_left binary_insert rest run.

Definition sort (l : list A) : list A :=
  let defined := filter (fun x => negb (is_undef x)) l in
  (if consistent_on defined then sort_defined defined
   else binary_insertion_sort defined)
  ++ filter is_undef l.

End Sort.

(** The position that a bound of [slice] denotes in an array of length
    [len]: the bound is converted by [ToIntegerOrInfinity], which takes
    [NaN] to zero; a negative bound counts from the end; the position
    lies between 0 and [len]. *)
Definition relative_index (len : Z) (bound : number) : Z :=
  match bound with
  | NaN => 0
  | Inf true => 0
  | Inf false => len
  | Fin m e =>
      let i := JsNumber.truncate m e in
      if i <? 0 then Z.max (len + i) 0 else Z.min i len
  end.

(** [l.slice(from, to)] *)
Definition slice {A : Type} (l : list A) (from to : number) : list A :=
  let len := Z.of_nat (List.length l) in
  let k := relative_index len from in
  let final := relative_index len to in
  firstn (Z.to_nat (Z.max (final - k) 0)) (skipn (Z.to_nat k) l).

(** ** The request *)

(** [req.query]: the parameters are text. *)
Definition query : Type := list (string * string).

(** [req.query[k]], [None] for [undefined]. *)
Fixpoint param (q : query) (k : string) : option string :=
  match q with
  | [] => None
  | (k', v) :: r => if String.eqb k k' then Some v else param r k
  end.

(** [a || b] for a parameter [a] and a text [b] *)
Definition or_text (a : option string) (b : string) : string :=
  match a with
  | Some s => if JsString.nonempty s then s else b
  | None => b
  end.

(** [n || d] for the result [n] of [parseInt]: zero and [NaN] are
    falsy. *)
Definition or_int (n : number) (d : Z) : number :=
  if JsNumber.truthy n then n else JsNumber.of_Z d.

Inductive order : Type := asc | desc.

Record meta : Type :=
  { total : number; page : number; limit : number; pages : number }.

Record response : Type :=
  { data : list value; info : meta }.

(** [Math.max(1, parseInt(req.query.page || req.query._page || '1', 10)
    || 1)] *)
Definition parse_page (q : query) : number :=
  JsNumber.max (JsNumber.of_Z 1)
    (or_int (JsNumber.parseInt
               (or_text (param q "page") (or_text (param q "_page") "1")))
       1).

(** [Math.max(1, parseInt(req.query.limit || req.query._limit || '20',
    10) || 20)] *)
Definition parse_limit (q : query) : number :=
  JsNumber.max (JsNumber.of_Z 1)
    (or_int (JsNumber.parseInt
               (or_text (param q "limit") (or_text (param q "_limit") "20")))
       20).

(** [(req.query.sort || req.query._sort || '').trim()] *)
Definition parse_sortKey (q : query) : string :=
  JsString.trim (or_text (param q "sort") (or_text (param q "_sort") "")).

(** [(req.query.order || req.query._order || 'asc').toLowerCase() ===
    'desc' ? 'desc' : 'asc'] *)
Definition parse_sortOrder (q : query) : order :=
  if String.eqb
       (JsString.toLowerCase
          (or_text (param q "order") (or_text (param q "_order") "asc")))
       "desc"
  then desc else asc.

(** [(req.query.q || '').toString().trim()] *)
Definition parse_q (q : query) : string :=
  JsString.trim (or_text (param q "q") "").

Definition excluded : list string :=
  ["page"; "_page"; "limit"; "_limit"; "sort"; "_sort"; "order"; "_order";
   "q"; "race"].

(** The filter map: the parameters whose name is not reserved. *)
Definition parse_filters (q : query) : list (string * string) :=
  filter (fun kv => negb (JsString.mem (fst kv) excluded)) q.

(** [String(req.query.race).split(',').map((s) =>
    s.trim().toLowerCase()).filter(Boolean)] *)
Definition parse_racesWanted (raw : string) : list string :=
  filter JsString.nonempty
    (map (fun s => JsString.toLowerCase (JsString.trim s))
       (JsString.split "," raw)).

(** ** The filters *)

(** The callback of the full-text search. *)
Definition search_match (nq : string) (item : value) : completion bool :=
  name <- read item "name" ;;
  if JsString.includes (norm name) nq then Normal true
  else
    slug <- read item "slug" ;;
    Normal (JsString.includes (norm slug) nq
            || JsString.includes (norm (getByPath item "biography.fullName")) nq
            || JsString.includes (norm (getByPath item "biography.publisher")) nq).

(** [String(raw).split('/').map((p) =>
    p.trim().toLowerCase()).filter(Boolean)] *)
Definition race_parts (raw : string) : list string :=
  filter JsString.nonempty
    (map (fun p => JsString.toLowerCase (JsString.trim p))
       (JsString.split "/" raw)).

(** [item?.appearance?.race] *)
Definition race_of (item : value) : value :=
  read_opt (read_opt item "appearance") "race".

(** The callback of the race filter. *)
Definition race_match (racesWanted : list string) (item : value) : bool :=
  let raw := race_of item in
  if negb (truthy raw) then false
  else existsb (fun p => JsString.mem p racesWanted)
         (race_parts (to_string raw)).

(** The test of one field filter on the value found at its path. *)
Definition field_test (expected : string) (actual : value) : bool :=
  match actual with
  | VArr elems _ => JsString.mem expected (map to_string elems)
  | _ =>
      let expNum := JsNumber.of_string expected in
      let actNum := to_number actual in
      if negb (JsNumber.isNaN expNum) && negb (JsNumber.isNaN actNum)
      then JsNumber.eqb actNum expNum
      else JsString.includes (norm actual) (JsString.toLowerCase expected)
  end.

(** The callback of the field filters: every filter holds. *)
Definition fields_match (filters : list (string * string)) (item : value)
  : bool :=
  forallb (fun kv => field_test (snd kv) (getByPath item (fst kv))) filters.

(** The full-text search, when a search term is given. *)
Definition search_stage (q : query) (items : list value)
  : completion (list value) :=
  let text := parse_q q in
  if JsString.nonempty text
  then filterM (search_match (norm (VStr text))) items
  else Normal items.

(** The race filter, when the parameter is given and names a race. *)
Definition race_stage (q : query) (items : list value) : list value :=
  match param q "race" with
  | Some raw =>
      match parse_racesWanted raw with
      | [] => items
      | racesWanted => filter (race_match racesWanted) items
      end
  | None => items
  end.

(** The field filters, when there is one. *)
Definition field_stage (q : query) (items : list value) : list value :=
  match parse_filters q with
  | [] => items
  | filters => filter (fields_match filters) items
  end.

(** ** The handlers *)

Section Engine.

(** [a.localeCompare(b, undefined, { sensitivity: 'base' })]: the
    collation of the host, negative, zero or positive. *)
Variable localeCompare : string -> string -> Z.

Definition base_compare (a b : string) : number :=
  JsNumber.of_Z (localeCompare a b).

(** *** [/races] *)

(** [racesSet.add(r)] *)
Definition set_add (r : string) (racesSet : list string) : list string :=
  if JsString.mem r racesSet then racesSet else racesSet ++ [r].

Definition addRace (val : string) (racesSet : list string) : list string :=
  let r := JsString.trim val in
  if negb (JsString.nonempty r)
     || String.eqb r "-"
     || String.eqb (JsString.toLowerCase r) "null"
     || String.eqb (JsString.toLowerCase r) "n/a"
  then racesSet
  else set_add r racesSet.

(** The body of the loop over the characters. *)
Definition collect_race (racesSet : list string) (ch : value)
  : list string :=
  let race := race_of ch in
  if negb (truthy race) then racesSet
  else
    let raw := to_string race in
    let parts :=
      filter JsString.nonempty
        (map JsString.trim (JsString.split "/" raw)) in
    if (1 <? List.length parts)%nat
    then fold_left (fun s p => addRace p s) parts racesSet
    else addRace raw racesSet.

(** The body sent by [GET /races]. *)
Definition races_handler (db : list value) : list string :=
  sort base_compare (fun _ => false) (fold_left collect_race db []).

(** *** [/characters] *)

(** The comparator of the sort. *)
Definition compare_records (sortKey : string) (sortOrder : order)
           (a b : value) : number :=
  let va := getByPath a sortKey in
  let vb := getByPath b sortKey in
  if nullish va && nullish vb then JsNumber.of_Z 0
  else if nullish va
  then match sortOrder with asc => JsNumber.of_Z (-1) | desc => JsNumber.of_Z 1 end
  else if nullish vb
  then match sortOrder with asc => JsNumber.of_Z 1 | desc => JsNumber.of_Z (-1) end
  else
    let na := to_number va in
    let nb := to_number vb in
    let cmp :=
      if negb (JsNumber.isNaN na) && negb (JsNumber.isNaN nb)
      then JsNumber.sub na nb
      else base_compare (to_string va) (to_string vb) in
    match sortOrder with asc => cmp | desc => JsNumber.neg cmp end.

(** The sort, when a sort key is given. *)
Definition sort_stage (q : query) (items : list value) : list value :=
  if JsString.nonempty (parse_sortKey q)
  then sort (compare_records (parse_sortKey q) (parse_sortOrder q))
         is_undefined items
  else items.

(** The list after search, race filter, field filters and sort. *)
Definition select (db : list value) (q : query) : completion (list value) :=
  list1 <- search_stage q db ;;
  Normal (sort_stage q (field_stage q (race_stage q list1))).

(** The page and its metadata, from the selected list. *)
Definition paginate (items : list value) (page limit : number)
  : list value * meta :=
  let total := JsNumber.of_Z (Z.of_nat (List.length items)) in
  let pages :=
    JsNumber.max (JsNumber.of_Z 1) (JsNumber.ceil_quot total limit) in
  let currentPage := JsNumber.min page pages in
  let start :=
    JsNumber.mul (JsNumber.sub currentPage (JsNumber.of_Z 1)) limit in
  let end_ := JsNumber.add start limit in
  (slice items start end_,
   {| total := total; page := currentPage; limit := limit;
      pages := pages |}).

Definition list_view : value :=
  JArr [VStr "id"; VStr "name"; VStr "images"; VStr "appearance.race"].

(** The body sent by [GET /characters]. *)
Definition characters_handler (db : list value) (q : query)
  : completion response :=
  items <- select db q ;;
  let (chunk, m) := paginate items (parse_page q) (parse_limit q) in
  payload <- mapM (fun c => prepareCharacter c list_view) chunk ;;
  Normal {| data := payload; info := m |}.

End Engine.

(** A collation for texts made of ASCII letters and digits, where every
    collation agrees: letters without regard to case, digits before
    letters, a proper prefix first. *)
Fixpoint alnum_compare (a b : string) : Z :=
  match a, b with
  | EmptyString, EmptyString => 0
  | EmptyString, _ => -1
  | _, EmptyString => 1
  | String x a', String y b' =>
      let cx := JsString.code (JsString.lower_char x) in
      let cy := JsString.code (JsString.lower_char y) in
      if (cx <? cy)%N then -1
      else if (cy <? cx)%N then 1
      else alnum_compare a' b'
  end.

(** * Sample data and specification-side definitions *)

(** The scenarios of the specification: 25 records, page 2 of size 10;
    and 5 records, page 99 of size 10. *)
Definition numbered (n : nat) : list value :=
  map (fun i => VNum (JsNumber.of_Z (Z.of_nat i))) (seq 0 n).

(** A record with the given race and strength. *)
Definition hero (race strength : value) : value :=
  VObj [("id", VNum (JsNumber.of_Z 1)); ("name", VStr "Robo");
        ("powerstats", VObj [("strength", strength)]);
        ("appearance", VObj [("race", race); ("gender", VStr "Male")])].

(** The comparison policy of the generic filters, in the words of the
    specification.  The text form of a missing value is the empty
    text. *)
Definition parses_as_number (x : number) : bool := negb (JsNumber.isNaN x).

Definition text_form (v : value) : string :=
  if nullish v then EmptyString else to_string v.

Definition policy_match (expected : string) (actual : value) : Prop :=
  match actual with
  | VArr elems _ => exists e, In e elems /\ to_string e = expected
  | _ =>
      if parses_as_number (JsNumber.of_string expected)
         && parses_as_number (to_number actual)
      then JsNumber.compare (to_number actual) (JsNumber.of_string expected)
           = Eq
      else JsString.includes (JsString.toLowerCase (text_form actual))
             (JsString.toLowerCase expected) = true
  end.

(** The parts of a race text that the races query is to list, in the
    words of the specification: the text is split on the slash, each part
    is trimmed, and the empty parts and the placeholders are dropped. *)
Definition placeholder (t : string) : bool :=
  String.eqb t "-"
  || String.eqb (JsString.toLowerCase t) "null"
  || String.eqb (JsString.toLowerCase t) "n/a".

Definition race_tokens (race : string) : list string :=
  filter (fun t => JsString.nonempty t && negb (placeholder t))
    (map JsString.trim (JsString.split "/" race)).

(** [s] is [l] with some elements left out: the elements of [s] occur in
    [l] in the same order. *)
Inductive subseq {A : Type} : list A -> list A -> Prop :=
| subseq_nil : forall l, subseq [] l
| subseq_take : forall x s l, subseq s l -> subseq (x :: s) (x :: l)
| subseq_skip : forall x s l, subseq s l -> subseq s (x :: l).

(** The elements of a list, each with its position. *)
Definition indexed {A : Type} (l : list A) : list (nat * A) :=
  combine (seq 0 (List.length l)) l.

(** The list view of a record, in the words of the specification: the
    four paths of the whitelist, each left out when the record has no
    value there. *)
Definition entry (k : string) (v : value) : list (string * value) :=
  if is_undefined v then [] else [(k, v)].

Definition projected (character : value) : value :=
  VObj (entry "id" (getByPath character "id")
        ++ entry "name" (getByPath character "name")
        ++ entry "images" (getByPath character "images")
        ++ entry "appearance"
             (if is_undefined (getByPath character "appearance.race")
              then VUndef
              else VObj [("race", getByPath character "appearance.race")])).

(** The node that [setByPath] moves to from [node] through the key [k]:
    the object found there, or else a fresh one. *)
Definition next_node (node : value) (k : string) : value :=
  if is_object (get_prop node k) then get_prop node k else VObj [].

(** Some key [length] of the path is applied to an array. *)
Fixpoint array_length_on_path (node : value) (keys : list string) : bool :=
  match keys with
  | [] => false
  | k :: ks =>
      isArray node && String.eqb k "length"
      || array_length_on_path (next_node node k) ks
  end.

(** Three records: two of strength 100, a number and a text, around a
    weaker one. *)
Definition trio : list value :=
  [hero (VStr "A") (VNum (JsNumber.of_Z 100));
   hero VNull (VNum (JsNumber.of_Z 7));
   hero (VStr "B") (VStr "100")].


(** [racesSet.add(t)] for each token in turn. *)
Definition add_tokens (tokens racesSet : list string) : list string :=
  fold_left (fun acc t => set_add t acc) tokens racesSet.

(** The race text has two non-empty parts at least, or no slash at all:
    the two cases that the races handler tells apart. *)
Definition plain_or_split (s : string) : bool :=
  (1 <? List.length
          (filter JsString.nonempty
             (map JsString.trim (JsString.split "/" s))))%nat
  || match JsString.split "/" s with [_] => true | _ => false end.


(** A run of 310 digits, the numeral of 10^309: more than a double
    holds. *)
Definition overflowing : string :=
  String "1" (string_of_list_ascii (repeat "0"%char 309)).

(** A record with an identifier and a name. *)
Definition named (id : Z) (name : string) : value :=
  VObj [("id", VNum (JsNumber.of_Z id)); ("name", VStr name)].
(** * The later revision of the [/characters] handler

    [server.js] holds a second revision of the handler, the one that the
    page script talks to: the search term may come as [search], the search
    reads the name only, the race filter compares the pieces as they stand
    and there are neither field filters nor a sort. *)

Module Revised.

(** [(req.query.q || req.query.search ||
    '').toString().toLowerCase().trim()] *)
Definition parse_q (q : query) : string :=
  JsString.trim
    (JsString.toLowerCase
       (or_text (param q "q") (or_text (param q "search") ""))).

(** [(req.query.race ||
    '').toString().toLowerCase().trim().split(',').filter(Boolean)] *)
Definition parse_race (q : query) : list string :=
  filter JsString.nonempty
    (JsString.split ","
       (JsString.trim (JsString.toLowerCase (or_text (param q "race") "")))).

(** The callback of the search: [norm(item.name).includes(nq)] *)
Definition search_match (nq : string) (item : value) : completion bool :=
  name <- read item "name" ;;
  Normal (JsString.includes (norm name) nq).

(** [item?.appearance?.race?.toLowerCase().split('/') ?? []]: a race
    that is neither missing nor a text has no [toLowerCase], and the
    call throws. *)
Definition races_of (item : value) : completion (list string) :=
  match race_of item with
  | VUndef | VNull => Normal []
  | VStr s => Normal (JsString.split "/" (JsString.toLowerCase s))
  | _ => Throw TypeError
  end.

(** The callback of the race filter:
    [race.some((r) => races.includes(r))] *)
Definition race_match (race : list string) (item : value)
  : completion bool :=
  races <- races_of item ;;
  Normal (existsb (fun r => JsString.mem r races) race).

(** The search, when a term is given. *)
Definition search_stage (q : query) (items : list value)
  : completion (list value) :=
  let text := parse_q q in
  if JsString.nonempty text
  then filterM (search_match (norm (VStr text))) items
  else Normal items.

(** The race filter, when a race is asked for. *)
Definition race_stage (q : query) (items : list value)
  : completion (list value) :=
  match parse_race q with
  | [] => Normal items
  | race => filterM (race_match race) items
  end.

(** The list after the search and the race filter. *)
Definition select (db : list value) (q : query) : completion (list value) :=
  list1 <- search_stage q db ;;
  race_stage q list1.

(** The body sent by [GET /characters]. *)
Definition characters_handler (db : list value) (q : query)
  : completion response :=
  items <- select db q ;;
  let (chunk, m) := paginate items (parse_page q) (parse_limit q) in
  payload <- mapM (fun c => prepareCharacter c list_view) chunk ;;
  Normal {| data := payload; info := m |}.

End Revised.

(** * Further definitions for the properties *)

(** The chain of fresh nested objects that leads to a value along some
    keys. *)
Fixpoint nest (keys : list string) (v : value) : value :=
  match keys with
  | [] => v
  | k :: ks => VObj [(k, nest ks v)]
  end.

(** The test that the search makes on a record that is neither [null]
    nor [undefined]. *)
Definition found (nq : string) (item : value) : bool :=
  JsString.includes (norm (get_prop item "name")) nq
  || JsString.includes (norm (get_prop item "slug")) nq
  || JsString.includes (norm (getByPath item "biography.fullName")) nq
  || JsString.includes (norm (getByPath item "biography.publisher")) nq.

(** A field name that names one top-level property: not empty, trimmed,
    without a dot, and not the wildcard. *)
Definition top_level_name (k : string) : bool :=
  JsString.nonempty k
  && String.eqb (JsString.trim k) k
  && negb (existsb (Ascii.eqb ".") (list_ascii_of_string k))
  && negb (String.eqb k "*").

(** The sort key of a record is missing. *)
Definition lacks (sortKey : string) (item : value) : bool :=
  nullish (getByPath item sortKey).

(** The integer that a number of the metadata denotes. *)
Definition count_of (x : number) : Z :=
  match x with
  | Fin m e => JsNumber.truncate m e
  | _ => 0
  end.

(** The pages of a list for a limit that is an integer, from the first
    to the last. *)
Definition all_pages (items : list value) (size : Z) : list (list value) :=
  map (fun p =>
         fst (paginate items (JsNumber.of_Z (Z.of_nat p))
                (JsNumber.of_Z size)))
    (seq 1 (Z.to_nat
              (count_of
                 (pages (snd (paginate items (JsNumber.of_Z 1)
                                (JsNumber.of_Z size))))))).

(** The number that the sort reads at the sort key of a record. *)
Definition key_number (sortKey : string) (item : value) : number :=
  to_number (getByPath item sortKey).

(** The sort key of the record is missing, or parses as a number. *)
Definition numeric_or_missing (sortKey : string) (item : value) : bool :=
  lacks sortKey item || parses_as_number (key_number sortKey item).

(** [a] may stand before [b] in ascending order of the numbers at the
    sort key, the records without the key first. *)
Definition ascending (sortKey : string) (a b : value) : Prop :=
  lacks sortKey a = true
  \/ (lacks sortKey b = false
      /\ JsNumber.compare (key_number sortKey a) (key_number sortKey b)
         <> Gt).

(** [a] may stand before [b] in descending order of the numbers at the
    sort key, the records without the key last. *)
Definition descending (sortKey : string) (a b : value) : Prop :=
  lacks sortKey b = true
  \/ (lacks sortKey a = false
      /\ JsNumber.compare (key_number sortKey a) (key_number sortKey b)
         <> Lt).

(** A text that the races handler may list: not empty, trimmed, and not
    a placeholder. *)
Definition listable (r : string) : bool :=
  JsString.nonempty r
  && String.eqb (JsString.trim r) r
  && negb (placeholder r).

(** The tokens that the specification lists for a record. *)
Definition record_tokens (ch : value) : list string :=
  match race_of ch with
  | VStr s => race_tokens s
  | _ => []
  end.

(** The race of the record is missing or falsy, or it is a text with
    two non-empty parts at least or without a slash. *)
Definition well_formed_race (ch : value) : bool :=
  match race_of ch with
  | VStr s => plain_or_split s
  | v => negb (truthy v)
  end.


(** No white space in the text. *)
Definition white_free (s : string) : bool :=
  forallb (fun c => negb (JsString.is_white c)) (list_ascii_of_string s).

(** The race of the record is missing, or is a text without white
    space. *)
Definition plain_race (item : value) : bool :=
  match race_of item with
  | VUndef | VNull => true
  | VStr s => white_free s
  | _ => false
  end.

(** The characters of a decimal numeral, and the step that reads one
    more digit. *)
Definition uint_chars (d : Decimal.uint) : list ascii :=
  list_ascii_of_string (NilEmpty.string_of_uint d).

Definition digit_step (acc : Z) (c : ascii) : Z :=
  10 * acc + JsNumber.digit_val c.

(** * Properties *)

(** ** The numbers of the pagination *)

Lemma compare_of_Z (a b : Z) :
  JsNumber.compare (JsNumber.of_Z a) (JsNumber.of_Z b) = (a ?= b).
Proof.
  unfold JsNumber.compare, JsNumber.of_Z, JsNumber.align.
  change (10 ^ (0 - Z.min 0 0)) with 1. now rewrite !Z.mul_1_r.
Qed.

Lemma max_of_Z (a b : Z) :
  JsNumber.max (JsNumber.of_Z a) (JsNumber.of_Z b) = JsNumber.of_Z (Z.max a b).
Proof.
  unfold JsNumber.max. rewrite compare_of_Z. cbn [JsNumber.isNaN JsNumber.of_Z orb].
  unfold Z.max. now destruct (a ?= b).
Qed.

Lemma min_of_Z (a b : Z) :
  JsNumber.min (JsNumber.of_Z a) (JsNumber.of_Z b) = JsNumber.of_Z (Z.min a b).
Proof.
  unfold JsNumber.min. rewrite compare_of_Z. cbn [JsNumber.isNaN JsNumber.of_Z orb].
  unfold Z.min. now destruct (a ?= b).
Qed.

Lemma sub_of_Z (a b : Z) :
  JsNumber.sub (JsNumber.of_Z a) (JsNumber.of_Z b) = JsNumber.of_Z (a - b).
Proof.
  unfold JsNumber.sub, JsNumber.of_Z, JsNumber.align.
  change (10 ^ (0 - Z.min 0 0)) with 1. now rewrite !Z.mul_1_r.
Qed.

Lemma add_of_Z (a b : Z) :
  JsNumber.add (JsNumber.of_Z a) (JsNumber.of_Z b) = JsNumber.of_Z (a + b).
Proof.
  unfold JsNumber.add, JsNumber.of_Z, JsNumber.align.
  change (10 ^ (0 - Z.min 0 0)) with 1. now rewrite !Z.mul_1_r.
Qed.

Lemma mul_of_Z (a b : Z) :
  JsNumber.mul (JsNumber.of_Z a) (JsNumber.of_Z b) = JsNumber.of_Z (a * b).
Proof. reflexivity. Qed.

Lemma ceil_quot_of_Z (a b : Z) :
  b <> 0 ->
  JsNumber.ceil_quot (JsNumber.of_Z a) (JsNumber.of_Z b)
  = JsNumber.of_Z (ceil_div a b).
Proof.
  intros Hb. unfold JsNumber.ceil_quot, JsNumber.of_Z, JsNumber.align.
  apply Z.eqb_neq in Hb. rewrite Hb.
  change (10 ^ (0 - Z.min 0 0)) with 1. now rewrite !Z.mul_1_r.
Qed.

Lemma relative_index_of_Z (len i : Z) :
  relative_index len (JsNumber.of_Z i)
  = if i <? 0 then Z.max (len + i) 0 else Z.min i len.
Proof.
  unfold relative_index, JsNumber.of_Z, JsNumber.truncate.
  change (0 <=? 0) with true. cbv iota.
  change (10 ^ 0) with 1. now rewrite Z.mul_1_r.
Qed.

(** The double nearest to a positive integer is a positive integer, or
    [Infinity]. *)
Lemma round_nat_positive (a : Z) :
  1 <= a ->
  (exists n, 1 <= n /\ JsNumber.round_nat a = JsNumber.of_Z n)
  \/ JsNumber.round_nat a = Inf false.
Proof.
  intros Ha. unfold JsNumber.round_nat.
  destruct (Z.log2 a + 1 <=? 53) eqn:Ebits; [left; now exists a |].
  apply Z.leb_gt in Ebits.
  set (sh := Z.log2 a + 1 - 53) in *.
  set (q := Z.shiftr a sh).
  match goal with
  | |- context [Z.shiftl ?x sh] => set (q' := x)
  end.
  destruct (2 ^ 1024 <=? Z.shiftl q' sh); [now right | left].
  exists (Z.shiftl q' sh). split; [| reflexivity].
  assert (Hsh : 0 <= sh) by (unfold sh; lia).
  assert (Hq : 1 <= q).
  { unfold q. rewrite Z.shiftr_div_pow2 by exact Hsh.
    apply Z.div_le_lower_bound; [apply Z.pow_pos_nonneg; lia |].
    rewrite Z.mul_1_r.
    transitivity (2 ^ Z.log2 a); [| apply Z.log2_spec; lia].
    apply Z.pow_le_mono_r; unfold sh; lia. }
  assert (Hq' : 1 <= q') by (unfold q'; destruct (_ || _); lia).
  rewrite Z.shiftl_mul_pow2 by exact Hsh.
  assert (1 <= 2 ^ sh) by (apply (Z.pow_le_mono_r 2 0 sh); lia).
  nia.
Qed.

(** An integer below 2^53 is a double. *)
Lemma round_int_safe (n : Z) :
  0 <= n < 2 ^ 53 -> JsNumber.round_int n = JsNumber.of_Z n.
Proof.
  intros Hn. unfold JsNumber.round_int, JsNumber.round_nat.
  destruct (Z.ltb_spec n 0) as [? | _]; [lia |].
  destruct (Z.leb_spec (Z.log2 n + 1) 53) as [_ | Hlog]; [reflexivity |].
  destruct (Z.eq_dec n 0) as [-> | Hz]; [cbn in Hlog; lia |].
  assert (Z.log2 n < 53) by (apply Z.log2_lt_pow2; lia). lia.
Qed.

(** ** Pagination *)

Section Pagination.

Lemma ceil_div_bounds (a b : Z) :
  0 < b -> b * (ceil_div a b - 1) < a <= b * ceil_div a b.
Proof.
  intros Hb. unfold ceil_div.
  pose proof (Z.mul_div_le (- a) b Hb).
  pose proof (Z.mul_succ_div_gt (- a) b Hb).
  lia.
Qed.

Lemma firstn_past {A : Type} (n m : nat) (l : list A) :
  (List.length l <= m)%nat -> firstn (Nat.min n m) l = firstn n l.
Proof.
  intros H. destruct (Nat.le_ge_cases n m) as [Hnm | Hnm].
  - now rewrite Nat.min_l.
  - rewrite Nat.min_r by assumption.
    rewrite !firstn_all2; auto; lia.
Qed.

(** A slice that starts inside the list and whose bounds are not
    negative takes [to - from] elements from position [from]. *)
Lemma slice_window {A : Type} (l : list A) (from len : Z) :
  0 <= from <= Z.of_nat (List.length l) -> 0 <= len ->
  slice l (JsNumber.of_Z from) (JsNumber.of_Z (from + len))
  = firstn (Z.to_nat len) (skipn (Z.to_nat from) l).
Proof.
  intros Hfrom Hlen. unfold slice. rewrite !relative_index_of_Z.
  destruct (Z.ltb_spec from 0) as [? | _]; [lia |].
  destruct (Z.ltb_spec (from + len) 0) as [? | _]; [lia |].
  rewrite (Z.min_l from) by lia.
  replace (Z.to_nat
             (Z.max (Z.min (from + len) (Z.of_nat (List.length l)) - from) 0))
    with (Nat.min (Z.to_nat len) (List.length l - Z.to_nat from)) by lia.
  apply firstn_past. rewrite length_skipn. lia.
Qed.

Lemma nth_error_window {A : Type} (l : list A) (from len i : nat) :
  nth_error (firstn len (skipn from l)) i
  = if (i <? len)%nat then nth_error l (from + i) else None.
Proof.
  destruct (Nat.ltb_spec i len) as [Hi | Hi].
  - rewrite nth_error_firstn.
    destruct (Nat.ltb_spec i len); [| lia].
    now rewrite nth_error_skipn.
  - apply nth_error_None. rewrite length_firstn. lia.
Qed.

(** With a limit that is [Infinity] the start of the slice is zero times
    [Infinity], that is [NaN], and so is its end: the slice is empty. *)
Lemma paginate_unbounded (items : list value) (requested : Z) :
  1 <= requested ->
  paginate items (JsNumber.of_Z requested) (Inf false)
  = ([], {| total := JsNumber.of_Z (Z.of_nat (List.length items));
            page := JsNumber.of_Z 1; limit := Inf false;
            pages := JsNumber.of_Z 1 |}).
Proof.
  intros Hp. unfold paginate.
  change (JsNumber.ceil_quot (JsNumber.of_Z (Z.of_nat (List.length items)))
            (Inf false)) with (JsNumber.of_Z 0).
  rewrite max_of_Z, min_of_Z. change (Z.max 1 0) with 1.
  rewrite (Z.min_r requested 1) by lia. reflexivity.
Qed.


(** With a limit that is an integer, the numbers of the pagination are
    integers. *)
Lemma paginate_finite (items : list value) (requested size : Z) :
  1 <= size ->
  paginate items (JsNumber.of_Z requested) (JsNumber.of_Z size)
  = let count := Z.of_nat (List.length items) in
    let last := Z.max 1 (ceil_div count size) in
    let current := Z.min requested last in
    (slice items (JsNumber.of_Z ((current - 1) * size))
       (JsNumber.of_Z ((current - 1) * size + size)),
     {| total := JsNumber.of_Z count; page := JsNumber.of_Z current;
        limit := JsNumber.of_Z size; pages := JsNumber.of_Z last |}).
Proof.
  intros Hs. unfold paginate.
  rewrite ceil_quot_of_Z by lia.
  now rewrite max_of_Z, min_of_Z, sub_of_Z, mul_of_Z, add_of_Z.
Qed.

(** A page number that is [Infinity] asks for the last page. *)
Lemma paginate_last (items : list value) (size : Z) :
  1 <= size ->
  paginate items (Inf false) (JsNumber.of_Z size)
  = paginate items
      (JsNumber.of_Z (Z.max 1 (ceil_div (Z.of_nat (List.length items)) size)))
      (JsNumber.of_Z size).
Proof.
  intros Hs. unfold paginate.
  rewrite ceil_quot_of_Z by lia. rewrite max_of_Z, min_of_Z.
  rewrite Z.min_id. reflexivity.
Qed.

Variables (items : list value) (requested size : Z).
Hypothesis page_positive : 1 <= requested.
Hypothesis limit_positive : 1 <= size.

Let count := Z.of_nat (List.length items).
Let last := Z.max 1 (ceil_div count size).
Let current := Z.min requested last.
Let m := snd (paginate items (JsNumber.of_Z requested) (JsNumber.of_Z size)).
Let chunk :=
  fst (paginate items (JsNumber.of_Z requested) (JsNumber.of_Z size)).
Let start := Z.to_nat ((current - 1) * size).

Lemma start_inside :
  0 <= (Z.min requested (Z.max 1 (ceil_div count size)) - 1) * size <= count
  /\ (0 < count ->
      (Z.min requested (Z.max 1 (ceil_div count size)) - 1) * size < count).
Proof.
  assert (Hc : 0 <= count) by (unfold count; lia).
  pose proof (ceil_div_bounds count size ltac:(lia)) as Hb.
  destruct (Z.max_spec 1 (ceil_div count size)) as [[? E] | [? E]];
    rewrite E; nia.
Qed.

(** X23. For a page number of at least 1 and a page size that is an
    integer of at least 1: the total is the length of the selected list;
    the number of pages is [max(1, ceil(total / limit))], the ceiling
    being the least integer whose product with the limit reaches the
    total; the resolved page is [min(requested, pages)] and lies in
    [1, pages]; the slice is made of the records at positions
    [(page - 1) * limit] (included) to [page * limit] (excluded) of the
    selected list; a page past the last one is clamped, so that the
    slice of a non-empty list is never empty; and a page number that is
    [Infinity] is answered as the last page is. *)
Theorem pagination_meta_and_slice :
  total m = JsNumber.of_Z count
  /\ limit m = JsNumber.of_Z size
  /\ pages m = JsNumber.of_Z last
  /\ size * (ceil_div count size - 1) < count <= size * ceil_div count size
  /\ page m = JsNumber.of_Z current
  /\ 1 <= current <= last
  /\ chunk = firstn (Z.to_nat size) (skipn start items)
  /\ (forall i : nat,
         nth_error chunk i
         = if Z.of_nat i <? size then nth_error items (start + i)
           else None)
  /\ (last < requested -> page m = pages m)
  /\ (items <> [] -> chunk <> [])
  /\ paginate items (Inf false) (JsNumber.of_Z size)
     = paginate items (JsNumber.of_Z last) (JsNumber.of_Z size).
Proof.
  pose proof start_inside as [Hin Hlt].
  assert (Hchunk : chunk = firstn (Z.to_nat size) (skipn start items)).
  { unfold chunk, start. rewrite paginate_finite by exact limit_positive.
    cbn [fst]. apply slice_window; fold count; unfold current, last; lia. }
  unfold m. rewrite paginate_finite by exact limit_positive.
  cbn [snd total limit pages page]. fold count last current.
  repeat split; try reflexivity; try assumption.
  - apply ceil_div_bounds; lia.
  - apply ceil_div_bounds; lia.
  - unfold current, last. lia.
  - unfold current, last. lia.
  - intros i. rewrite Hchunk, nth_error_window.
    destruct (Nat.ltb_spec i (Z.to_nat size));
      destruct (Z.ltb_spec (Z.of_nat i) size); try reflexivity; lia.
  - intros Hlast. f_equal. unfold current. lia.
  - intros Hne. rewrite Hchunk.
    assert (0 < count) as Hpos.
    { unfold count. destruct items; [congruence | cbn; lia]. }
    specialize (Hlt Hpos).
    assert (Hs : (start < List.length items)%nat).
    { unfold start, current, last. fold count. lia. }
    intros Hnil. apply (f_equal (@List.length value)) in Hnil.
    rewrite length_firstn, length_skipn in Hnil. cbn in Hnil. lia.
  - apply paginate_last. exact limit_positive.
Qed.

End Pagination.

Lemma pagination_meta_and_slice_witness :
  (snd (paginate (numbered 25) (JsNumber.of_Z 2) (JsNumber.of_Z 10))
   = {| total := JsNumber.of_Z 25; page := JsNumber.of_Z 2;
        limit := JsNumber.of_Z 10; pages := JsNumber.of_Z 3 |}
   /\ fst (paginate (numbered 25) (JsNumber.of_Z 2) (JsNumber.of_Z 10))
      = firstn 10 (skipn 10 (numbered 25)))
  /\ page (snd (paginate (numbered 5) (JsNumber.of_Z 99) (JsNumber.of_Z 10)))
     = JsNumber.of_Z 1
  /\ fst (paginate (numbered 5) (JsNumber.of_Z 99) (JsNumber.of_Z 10)) <> [].
Proof.
  split; [split; reflexivity |].
  pose proof (pagination_meta_and_slice (numbered 5) 99 10
                ltac:(lia) ltac:(lia)) as H.
  split.
  - destruct H as (_ & _ & _ & _ & H & _). rewrite H. reflexivity.
  - apply H. discriminate.
Defined.

(** C1 at a limit of 310 digits: [parseInt] reads [Infinity], which the
    guards of the handler let through; the start of the slice is then
    [NaN] and no record is sent, although the metadata counts one page
    that holds them all.  The specification sends them all. *)
Theorem unbounded_limit_sends_no_record :
  parse_limit [("limit", overflowing)] = Inf false
  /\ (forall items : list value,
        paginate items (JsNumber.of_Z 1) (Inf false)
        = ([], {| total := JsNumber.of_Z (Z.of_nat (List.length items));
                  page := JsNumber.of_Z 1; limit := Inf false;
                  pages := JsNumber.of_Z 1 |}))
  /\ paginate trio (parse_page [("limit", overflowing)])
       (parse_limit [("limit", overflowing)])
     = ([], {| total := JsNumber.of_Z 3; page := JsNumber.of_Z 1;
               limit := Inf false; pages := JsNumber.of_Z 1 |})
  /\ trio <> [].
Proof.
  split; [vm_compute; reflexivity |].
  split; [intros items; apply paginate_unbounded; lia |].
  split; [vm_compute; reflexivity | discriminate].
Qed.

(** ** Reading the page and the limit *)

Lemma or_int_nan (d : Z) : or_int NaN d = JsNumber.of_Z d.
Proof. reflexivity. Qed.

Lemma round_int_zero : JsNumber.round_int 0 = JsNumber.of_Z 0.
Proof. reflexivity. Qed.

Lemma round_int_positive (n : Z) :
  1 <= n ->
  (exists k, 1 <= k /\ JsNumber.round_int n = JsNumber.of_Z k)
  \/ JsNumber.round_int n = Inf false.
Proof.
  intros Hn. unfold JsNumber.round_int.
  destruct (Z.ltb_spec n 0) as [? | _]; [lia |].
  now apply round_nat_positive.
Qed.

Lemma round_int_negative (n : Z) :
  n <= -1 ->
  (exists k, k <= -1 /\ JsNumber.round_int n = JsNumber.of_Z k)
  \/ JsNumber.round_int n = Inf true.
Proof.
  intros Hn. unfold JsNumber.round_int.
  destruct (Z.ltb_spec n 0) as [_ | ?]; [| lia].
  destruct (round_nat_positive (- n) ltac:(lia)) as [(k & Hk & ->) | ->].
  - left. exists (- k). split; [lia | reflexivity].
  - now right.
Qed.

(** [Math.max(1, n || d)] for the double [n] of an integer: the default
    [d] for zero, 1 for a negative integer. *)
Lemma guarded_integer (n d : Z) :
  1 <= d ->
  JsNumber.max (JsNumber.of_Z 1) (or_int (JsNumber.round_int n) d)
  = if n =? 0 then JsNumber.of_Z d
    else if n <? 0 then JsNumber.of_Z 1
    else JsNumber.round_int n.
Proof.
  intros Hd.
  destruct (Z.eqb_spec n 0) as [-> | Hz].
  { rewrite round_int_zero. unfold or_int. cbn [JsNumber.truthy JsNumber.of_Z].
    change (negb (0 =? 0)) with false. cbv iota.
    rewrite max_of_Z. f_equal. lia. }
  destruct (Z.ltb_spec n 0) as [Hneg | Hpos].
  - destruct (round_int_negative n ltac:(lia)) as [(k & Hk & ->) | ->].
    + unfold or_int. cbn [JsNumber.truthy JsNumber.of_Z].
      replace (k =? 0) with false by (symmetry; apply Z.eqb_neq; lia).
      cbn [negb]. rewrite max_of_Z. f_equal. lia.
    + reflexivity.
  - destruct (round_int_positive n ltac:(lia)) as [(k & Hk & ->) | ->].
    + unfold or_int. cbn [JsNumber.truthy JsNumber.of_Z].
      replace (k =? 0) with false by (symmetry; apply Z.eqb_neq; lia).
      cbn [negb]. rewrite max_of_Z. f_equal. lia.
    + reflexivity.
Qed.

(** The page and the limit that a request gives are an integer of at
    least 1, or [Infinity]. *)
Lemma guarded_shape (x : number) (d : Z) :
  1 <= d ->
  ((exists n, x = JsNumber.round_int n) \/ x = NaN) ->
  (exists n, 1 <= n
             /\ JsNumber.max (JsNumber.of_Z 1) (or_int x d) = JsNumber.of_Z n)
  \/ JsNumber.max (JsNumber.of_Z 1) (or_int x d) = Inf false.
Proof.
  intros Hd [[n ->] | ->].
  - rewrite guarded_integer by exact Hd.
    destruct (Z.eqb_spec n 0); [left; now exists d |].
    destruct (Z.ltb_spec n 0);
      [left; exists 1; split; [lia | reflexivity] |].
    apply round_int_positive. lia.
  - left. exists d. split; [exact Hd |].
    change (or_int NaN d) with (JsNumber.of_Z d).
    rewrite max_of_Z. f_equal. lia.
Qed.

Lemma parseInt_shape (s : string) :
  (exists n, JsNumber.parseInt s = JsNumber.round_int n)
  \/ JsNumber.parseInt s = NaN.
Proof.
  unfold JsNumber.parseInt.
  destruct (JsNumber.read_int s) as [n |]; [left; now exists n | now right].
Qed.

Lemma parse_page_shape (q : query) :
  (exists n, 1 <= n /\ parse_page q = JsNumber.of_Z n)
  \/ parse_page q = Inf false.
Proof.
  unfold parse_page. apply guarded_shape; [lia | apply parseInt_shape].
Qed.

Lemma parse_limit_shape (q : query) :
  (exists n, 1 <= n /\ parse_limit q = JsNumber.of_Z n)
  \/ parse_limit q = Inf false.
Proof.
  unfold parse_limit. apply guarded_shape; [lia | apply parseInt_shape].
Qed.

Section PageAndLimit.

Variable q : query.

(** The text that is parsed: [req.query.page || req.query._page || '1']
    and [req.query.limit || req.query._limit || '20']. *)
Let page_text := or_text (param q "page") (or_text (param q "_page") "1").
Let limit_text :=
  or_text (param q "limit") (or_text (param q "_limit") "20").

(** X24. Reading the page and the limit is total (no error).  The page
    is 1 when the parameter is absent, or does not parse, or parses to
    zero or to a negative integer; the limit is 20 when the parameter
    is absent, or does not parse, or parses to zero, and 1 when it
    parses to a negative integer; a text that parses to a positive
    integer yields the double nearest to it, which is the integer itself
    below 2^53; so that both are always an integer of at least 1, or
    [Infinity]. *)
Theorem page_and_limit_defaults :
  (param q "page" = None -> param q "_page" = None ->
   parse_page q = JsNumber.of_Z 1)
  /\ (param q "limit" = None -> param q "_limit" = None ->
      parse_limit q = JsNumber.of_Z 20)
  /\ (JsNumber.read_int page_text = None -> parse_page q = JsNumber.of_Z 1)
  /\ (JsNumber.read_int limit_text = None ->
      parse_limit q = JsNumber.of_Z 20)
  /\ (forall n, JsNumber.read_int page_text = Some n ->
                parse_page q
                = if n <=? 0 then JsNumber.of_Z 1 else JsNumber.round_int n)
  /\ (forall n, JsNumber.read_int limit_text = Some n ->
                parse_limit q
                = if n =? 0 then JsNumber.of_Z 20
                  else if n <? 0 then JsNumber.of_Z 1
                  else JsNumber.round_int n)
  /\ (forall n, JsNumber.read_int page_text = Some n -> 1 <= n < 2 ^ 53 ->
                parse_page q = JsNumber.of_Z n)
  /\ (forall n, JsNumber.read_int limit_text = Some n -> 1 <= n < 2 ^ 53 ->
                parse_limit q = JsNumber.of_Z n)
  /\ ((exists n, 1 <= n /\ parse_page q = JsNumber.of_Z n)
      \/ parse_page q = Inf false)
  /\ ((exists n, 1 <= n /\ parse_limit q = JsNumber.of_Z n)
      \/ parse_limit q = Inf false).
Proof.
  assert (Hpage : forall n, JsNumber.read_int page_text = Some n ->
            parse_page q
            = if n <=? 0 then JsNumber.of_Z 1 else JsNumber.round_int n).
  { intros n H. unfold parse_page, JsNumber.parseInt. fold page_text.
    rewrite H, guarded_integer by lia.
    destruct (Z.eqb_spec n 0), (Z.ltb_spec n 0), (Z.leb_spec n 0);
      try reflexivity; lia. }
  assert (Hlimit : forall n, JsNumber.read_int limit_text = Some n ->
            parse_limit q
            = if n =? 0 then JsNumber.of_Z 20
              else if n <? 0 then JsNumber.of_Z 1
              else JsNumber.round_int n).
  { intros n H. unfold parse_limit, JsNumber.parseInt. fold limit_text.
    rewrite H. apply guarded_integer. lia. }
  assert (Hpage0 : JsNumber.read_int page_text = None ->
            parse_page q = JsNumber.of_Z 1).
  { intros H. unfold parse_page, JsNumber.parseInt. fold page_text.
    now rewrite H. }
  assert (Hlimit0 : JsNumber.read_int limit_text = None ->
            parse_limit q = JsNumber.of_Z 20).
  { intros H. unfold parse_limit, JsNumber.parseInt. fold limit_text.
    now rewrite H. }
  refine (conj _ (conj _ (conj Hpage0 (conj Hlimit0 (conj Hpage
            (conj Hlimit (conj _ (conj _ (conj _ _))))))))).
  - intros H1 H2. unfold parse_page, page_text. rewrite H1, H2. reflexivity.
  - intros H1 H2. unfold parse_limit, limit_text. rewrite H1, H2.
    reflexivity.
  - intros n H Hn. rewrite (Hpage n H).
    destruct (Z.leb_spec n 0); [lia |]. apply round_int_safe. lia.
  - intros n H Hn. rewrite (Hlimit n H).
    destruct (Z.eqb_spec n 0); [lia |].
    destruct (Z.ltb_spec n 0); [lia |]. apply round_int_safe. lia.
  - apply parse_page_shape.
  - apply parse_limit_shape.
Qed.

End PageAndLimit.

Lemma page_and_limit_defaults_witness :
  parse_page [] = JsNumber.of_Z 1 /\ parse_limit [] = JsNumber.of_Z 20
  /\ parse_page [("page", "abc"); ("limit", "x1")] = JsNumber.of_Z 1
  /\ parse_limit [("page", "abc"); ("limit", "x1")] = JsNumber.of_Z 20
  /\ parse_page [("page", "-4"); ("limit", "0")] = JsNumber.of_Z 1
  /\ parse_limit [("page", "-4"); ("limit", "0")] = JsNumber.of_Z 20
  /\ parse_page [("page", "3"); ("limit", "50")] = JsNumber.of_Z 3
  /\ parse_limit [("page", "3"); ("limit", "50")] = JsNumber.of_Z 50.
Proof.
  pose proof (page_and_limit_defaults []) as H0.
  pose proof (page_and_limit_defaults [("page", "abc"); ("limit", "x1")]) as H1.
  pose proof (page_and_limit_defaults [("page", "-4"); ("limit", "0")]) as H2.
  pose proof (page_and_limit_defaults [("page", "3"); ("limit", "50")]) as H3.
  destruct H0 as (Hp0 & Hl0 & _).
  destruct H1 as (_ & _ & Hp1 & Hl1 & _).
  destruct H2 as (_ & _ & _ & _ & Hp2 & Hl2 & _).
  destruct H3 as (_ & _ & _ & _ & _ & _ & Hp3 & Hl3 & _).
  refine (conj _ (conj _ (conj _ (conj _ (conj _ (conj _ (conj _ _))))))).
  - apply Hp0; reflexivity.
  - apply Hl0; reflexivity.
  - apply Hp1; reflexivity.
  - apply Hl1; reflexivity.
  - apply (Hp2 (-4)); reflexivity.
  - apply (Hl2 0); reflexivity.
  - apply (Hp3 3); [reflexivity | vm_compute; intuition discriminate].
  - apply (Hl3 50); [reflexivity | vm_compute; intuition discriminate].
Defined.

(** C9 at a page and a limit of 310 digits: [parseInt] reads
    [Infinity], which is no integer, and the guards [|| 1], [|| 20] and
    [Math.max(1, ...)] let it through.  Above 2^53 the integer that is
    read is rounded: it stays a positive integer, but not the one
    written. *)
Theorem overflowing_limit_is_no_integer :
  (forall n : Z, parse_limit [("limit", overflowing)] <> JsNumber.of_Z n)
  /\ (forall n : Z, parse_page [("page", overflowing)] <> JsNumber.of_Z n)
  /\ parse_limit [("limit", overflowing)] = Inf false
  /\ parse_page [("page", overflowing)] = Inf false
  /\ parse_limit [("limit", "9007199254740993")]
     = JsNumber.of_Z 9007199254740992.
Proof.
  assert (Hl : parse_limit [("limit", overflowing)] = Inf false)
    by (vm_compute; reflexivity).
  assert (Hp : parse_page [("page", overflowing)] = Inf false)
    by (vm_compute; reflexivity).
  rewrite Hl, Hp.
  refine (conj _ (conj _ (conj eq_refl (conj eq_refl _))));
    [discriminate | discriminate | vm_compute; reflexivity].
Qed.

(** ** Text *)

Lemma mem_In (s : string) (l : list string) :
  JsString.mem s l = true <-> In s l.
Proof.
  unfold JsString.mem. rewrite existsb_exists. split.
  - intros (x & Hx & E). apply String.eqb_eq in E. now subst.
  - intros H. exists s. split; [assumption | apply String.eqb_refl].
Qed.

Lemma includes_empty (sub : string) :
  JsString.includes EmptyString sub = true <-> sub = EmptyString.
Proof.
  destruct sub; cbn; split; congruence.
Qed.

Lemma toLowerCase_empty (s : string) :
  JsString.toLowerCase s = EmptyString <-> s = EmptyString.
Proof.
  destruct s; cbn; split; congruence.
Qed.

Lemma norm_text_form (v : value) :
  norm v = JsString.toLowerCase (text_form v).
Proof.
  unfold norm, text_form. now destruct (nullish v).
Qed.

(** ** The race filter *)

Lemma race_match_parts (racesWanted : list string) (item : value) :
  truthy (race_of item) = true ->
  race_match racesWanted item = true
  <-> exists p, In p (race_parts (to_string (race_of item)))
                /\ In p racesWanted.
Proof.
  intros Ht. unfold race_match. rewrite Ht. cbn [negb].
  rewrite existsb_exists. split; intros (p & Hp & Hw); exists p;
    (split; [assumption | now apply mem_In]).
Qed.

(** C2. When the race parameter names at least one race (the wanted
    races: the parameter split on the comma, each piece trimmed and in
    lower case, the empty ones dropped), the race filter keeps a record
    exactly when its callback accepts it; for a record whose race is a
    text the callback accepts exactly when one of the parts of that text
    (split on the slash, trimmed, in lower case, the empty ones dropped)
    is among the wanted races; a record without a race is never
    accepted; and a race that is no text, if truthy, is read through its
    text. *)
Theorem race_filter_any_part
        (q : query) (raw : string) (items : list value) (item : value) :
  param q "race" = Some raw ->
  parse_racesWanted raw <> [] ->
  (In item (race_stage q items)
   <-> In item items /\ race_match (parse_racesWanted raw) item = true)
  /\ (forall s, race_of item = VStr s ->
        (race_match (parse_racesWanted raw) item = true
         <-> exists p, In p (race_parts s)
                       /\ In p (parse_racesWanted raw)))
  /\ (nullish (race_of item) = true ->
      race_match (parse_racesWanted raw) item = false)
  /\ (truthy (race_of item) = true ->
      (race_match (parse_racesWanted raw) item = true
       <-> exists p, In p (race_parts (to_string (race_of item)))
                     /\ In p (parse_racesWanted raw))).
Proof.
  intros Hq Hw. split; [| split; [| split; [| apply race_match_parts]]].
  - unfold race_stage. rewrite Hq.
    destruct (parse_racesWanted raw) eqn:E; [congruence |].
    apply filter_In.
  - intros s Hs. destruct s as [| c s].
    + unfold race_match. rewrite Hs. cbn. split; [discriminate |].
      intros (p & [] & _).
    + rewrite race_match_parts by (rewrite Hs; reflexivity).
      rewrite Hs. reflexivity.
  - intros Hn. unfold race_match.
    destruct (race_of item); cbn in Hn; try discriminate; reflexivity.
Qed.

(** A record of race "Human / Cyborg" answers a request for "cyborg", and
    also for " CYBORG ,alien". *)
Lemma race_filter_any_part_witness :
  In (hero (VStr "Human / Cyborg") VNull)
     (race_stage [("race", " CYBORG ,alien")]
        [hero (VStr "Human") VNull; hero (VStr "Human / Cyborg") VNull])
  /\ race_match (parse_racesWanted "cyborg")
       (hero (VStr "Human / Cyborg") VNull) = true.
Proof.
  split.
  - apply (race_filter_any_part [("race", " CYBORG ,alien")]
             " CYBORG ,alien"
             [hero (VStr "Human") VNull; hero (VStr "Human / Cyborg") VNull]
             (hero (VStr "Human / Cyborg") VNull));
      [reflexivity | discriminate |].
    split; [right; left; reflexivity | reflexivity].
  - destruct (race_filter_any_part [("race", "cyborg")] "cyborg" []
                (hero (VStr "Human / Cyborg") VNull) eq_refl
                ltac:(discriminate)) as (_ & H & _).
    apply (H "Human / Cyborg"); [reflexivity |].
    exists "cyborg". split; [right; left; reflexivity | left; reflexivity].
Defined.

(** ** The generic filters *)

Lemma field_test_policy (expected : string) (actual : value) :
  field_test expected actual = true <-> policy_match expected actual.
Proof.
  assert (Hgen :
    (if negb (JsNumber.isNaN (JsNumber.of_string expected))
        && negb (JsNumber.isNaN (to_number actual))
     then JsNumber.eqb (to_number actual) (JsNumber.of_string expected)
     else JsString.includes (norm actual) (JsString.toLowerCase expected))
    = true
    <-> (if parses_as_number (JsNumber.of_string expected)
            && parses_as_number (to_number actual)
         then JsNumber.compare (to_number actual)
                (JsNumber.of_string expected) = Eq
         else JsString.includes (JsString.toLowerCase (text_form actual))
                (JsString.toLowerCase expected) = true)).
  { unfold parses_as_number. rewrite norm_text_form.
    destruct (JsNumber.of_string expected) as [| s | m e] eqn:Ee;
      destruct (to_number actual) as [| s' | m' e'] eqn:Ea;
      cbn [JsNumber.isNaN negb andb]; try reflexivity;
      unfold JsNumber.eqb;
      match goal with
      | |- context [JsNumber.compare ?x ?y] =>
          destruct (JsNumber.compare x y); split; congruence
      end. }
  destruct actual; try exact Hgen.
  cbn [field_test policy_match]. rewrite mem_In, in_map_iff.
  split; intros (e & H1 & H2); exists e; auto.
Qed.

(** C3. A record passes the generic filters exactly when every one of
    them holds, and one filter holds as follows: when the value at the
    path is an array, the expected text is the text of one of its
    elements; otherwise, when both the expected text and the value parse
    as numbers, the two numbers are equal; otherwise the expected text,
    in lower case, occurs in the text of the value, in lower case.  So
    the filter powerstats.strength=100 accepts the number 100 and the
    text "100". *)
Theorem field_filters_policy
        (q : query) (items : list value) (item : value) :
  (fields_match (parse_filters q) item = true
   <-> forall key expected, In (key, expected) (parse_filters q) ->
                            policy_match expected (getByPath item key))
  /\ (In item (field_stage q items)
      <-> In item items /\ fields_match (parse_filters q) item = true)
  /\ fields_match [("powerstats.strength", "100")]
       (hero VNull (VNum (JsNumber.of_Z 100))) = true
  /\ fields_match [("powerstats.strength", "100")]
       (hero VNull (VStr "100")) = true.
Proof.
  split; [| split; [| split; reflexivity]].
  - unfold fields_match. rewrite forallb_forall. split.
    + intros H key expected Hin.
      apply field_test_policy. exact (H (key, expected) Hin).
    + intros H [key expected] Hin. apply field_test_policy. now apply H.
  - unfold field_stage. destruct (parse_filters q) eqn:E.
    + cbn. tauto.
    + apply filter_In.
Qed.

Lemma field_filters_policy_witness :
  In (hero VNull (VStr "100"))
     (field_stage [("page", "2"); ("powerstats.strength", "100")]
        [hero VNull (VNum (JsNumber.of_Z 7)); hero VNull (VStr "100")]).
Proof.
  destruct (field_filters_policy
              [("page", "2"); ("powerstats.strength", "100")]
              [hero VNull (VNum (JsNumber.of_Z 7)); hero VNull (VStr "100")]
              (hero VNull (VStr "100"))) as (Hall & Hstage & _).
  apply Hstage. split; [right; left; reflexivity |].
  apply Hall. intros key expected [E | []]. injection E as <- <-.
  reflexivity.
Defined.

(** C4, as the code has it: a path that resolves to [undefined] never
    satisfies a filter whose expected text is not empty. *)
Theorem unresolved_path_fails_text
        (item : value) (key expected : string)
        (filters : list (string * string)) :
  getByPath item key = VUndef ->
  expected <> EmptyString ->
  field_test expected (getByPath item key) = false
  /\ (In (key, expected) filters -> fields_match filters item = false).
Proof.
  intros Hu Hne.
  assert (Ht : field_test expected (getByPath item key) = false).
  { rewrite Hu. unfold field_test.
    change (to_number VUndef) with NaN. change (norm VUndef) with EmptyString.
    cbn [JsNumber.isNaN negb]. rewrite andb_false_r.
    destruct (JsString.includes EmptyString (JsString.toLowerCase expected))
      eqn:E; [| reflexivity].
    apply (proj1 (includes_empty _)) in E.
    apply (proj1 (toLowerCase_empty _)) in E. contradiction. }
  split; [exact Ht |].
  intros Hin. unfold fields_match.
  apply not_true_is_false. intros Hall.
  rewrite forallb_forall in Hall. specialize (Hall _ Hin).
  cbn [fst snd] in Hall. congruence.
Qed.

Lemma unresolved_path_fails_text_witness :
  fields_match [("powerstats.speed", "0")] (hero VNull VNull) = false.
Proof.
  apply (unresolved_path_fails_text (hero VNull VNull) "powerstats.speed" "0"
           [("powerstats.speed", "0")]);
    [reflexivity | discriminate | left; reflexivity].
Defined.

(** C4, as it is stated, fails for the empty expected text: a record
    without the attribute passes the filter [foo=]. *)
Lemma unresolved_path_passes_empty_text :
  getByPath (hero VNull VNull) "foo" = VUndef
  /\ field_test "" (getByPath (hero VNull VNull) "foo") = true
  /\ field_stage [("foo", "")] [hero VNull VNull] = [hero VNull VNull].
Proof.
  repeat split.
Qed.

(** ** The races query *)

(** C5 at the race "Human /": the handler lists the text as it stands,
    slash included, where the specification lists the part "Human".  The
    same branch of the handler is the only one that tests for the
    placeholder "n/a", which therefore is never met: the race "n/a" has
    two parts. *)
Theorem races_keep_text_with_single_part (localeCompare : string -> string -> Z) :
  races_handler localeCompare [hero (VStr "Human /") VNull] = ["Human /"]
  /\ race_tokens "Human /" = ["Human"]
  /\ fold_left collect_race [hero (VStr "n/a") VNull] [] = ["n"; "a"].
Proof.
  split; [| split; reflexivity].
  unfold races_handler, sort.
  change (fold_left collect_race [hero (VStr "Human /") VNull] [])
    with ["Human /"].
  cbn [filter negb].
  destruct (consistent_on _ _); reflexivity.
Qed.

(** The scenario of the specification. *)
Example races_scenario :
  races_handler alnum_compare
    [hero (VStr "Human") VNull; hero (VStr "Human / Cyborg") VNull;
     hero (VStr "-") VNull]
  = ["Cyborg"; "Human"].
Proof. reflexivity. Qed.

(** ** The comparator of the sort *)

Lemma sign_sub (x y : number) :
  JsNumber.isNaN x = false -> JsNumber.isNaN y = false ->
  JsNumber.sign (JsNumber.sub x y) = JsNumber.compare x y.
Proof.
  destruct x as [| [|] | m1 e1], y as [| [|] | m2 e2];
    cbn; intros Hx Hy; try discriminate; try reflexivity.
  symmetry. apply Z.compare_sub.
Qed.

Lemma sign_neg (x : number) :
  JsNumber.sign (JsNumber.neg x) = CompOpp (JsNumber.sign x).
Proof.
  destruct x as [| [|] | [| p | p] e]; reflexivity.
Qed.

Lemma sign_of_Z (n : Z) : JsNumber.sign (JsNumber.of_Z n) = Z.compare n 0.
Proof. reflexivity. Qed.

Section Comparator.

Variable localeCompare : string -> string -> Z.
Variables (sortKey : string) (a b : value).

Let va := getByPath a sortKey.
Let vb := getByPath b sortKey.
Let rank (o : order) : comparison :=
  JsNumber.sign (compare_records localeCompare sortKey o a b).

(** C6. The comparator, read as the sort reads it ([Lt]: [a] goes
    first, [Gt]: [b] goes first).  Two missing keys tie.  When one key
    only is missing, the record that misses it goes first in ascending
    order and last in descending order.  When both keys are present
    and both parse as numbers, the order is that of the numbers,
    otherwise that of the collation of the two texts; descending order
    is the opposite.  The order is descending exactly when the order
    parameter is "desc" in any case of its letters, and ascending
    otherwise, also when the parameter is absent. *)
Theorem comparator_policy (q : query) :
  (nullish va = true -> nullish vb = true -> rank asc = Eq /\ rank desc = Eq)
  /\ (nullish va = true -> nullish vb = false ->
      rank asc = Lt /\ rank desc = Gt)
  /\ (nullish va = false -> nullish vb = true ->
      rank asc = Gt /\ rank desc = Lt)
  /\ (nullish va = false -> nullish vb = false ->
      parses_as_number (to_number va) && parses_as_number (to_number vb)
      = true ->
      rank asc = JsNumber.compare (to_number va) (to_number vb)
      /\ rank desc = CompOpp (JsNumber.compare (to_number va) (to_number vb)))
  /\ (nullish va = false -> nullish vb = false ->
      parses_as_number (to_number va) && parses_as_number (to_number vb)
      = false ->
      rank asc = Z.compare (localeCompare (to_string va) (to_string vb)) 0
      /\ rank desc
         = CompOpp (Z.compare (localeCompare (to_string va) (to_string vb)) 0))
  /\ (parse_sortOrder q = desc
      <-> JsString.toLowerCase
            (or_text (param q "order") (or_text (param q "_order") "asc"))
          = "desc")
  /\ (parse_sortOrder q = asc
      <-> JsString.toLowerCase
            (or_text (param q "order") (or_text (param q "_order") "asc"))
          <> "desc")
  /\ (param q "order" = None -> param q "_order" = None ->
      parse_sortOrder q = asc).
Proof.
  unfold rank, compare_records, parses_as_number. fold va vb.
  refine (conj _ (conj _ (conj _ (conj _ (conj _ (conj _ (conj _ _))))))).
  - intros -> ->. split; reflexivity.
  - intros -> ->. split; reflexivity.
  - intros -> ->. split; reflexivity.
  - intros -> -> Hnum. cbn [andb]. rewrite Hnum.
    apply andb_prop in Hnum as [Ha Hb].
    apply negb_true_iff in Ha, Hb.
    rewrite sign_neg, sign_sub by assumption. split; reflexivity.
  - intros -> -> Hnum. cbn [andb]. rewrite Hnum.
    rewrite sign_neg. unfold base_compare. rewrite sign_of_Z.
    split; reflexivity.
  - unfold parse_sortOrder.
    destruct (String.eqb_spec
                (JsString.toLowerCase
                   (or_text (param q "order")
                      (or_text (param q "_order") "asc"))) "desc");
      split; congruence.
  - unfold parse_sortOrder.
    destruct (String.eqb_spec
                (JsString.toLowerCase
                   (or_text (param q "order")
                      (or_text (param q "_order") "asc"))) "desc");
      split; congruence.
  - intros H1 H2. unfold parse_sortOrder. rewrite H1, H2. reflexivity.
Qed.

End Comparator.

Lemma comparator_policy_witness :
  JsNumber.sign
    (compare_records alnum_compare "powerstats.strength" asc
       (hero VNull VNull) (hero VNull (VStr "7"))) = Lt
  /\ JsNumber.sign
       (compare_records alnum_compare "powerstats.strength" desc
          (hero VNull (VStr "100")) (hero VNull (VNum (JsNumber.of_Z 7))))
     = Lt
  /\ JsNumber.sign
       (compare_records alnum_compare "powerstats.strength" asc
          (hero VNull (VStr "100")) (hero VNull (VStr "7x"))) = Lt
  /\ parse_sortOrder [("order", "DeSc")] = desc
  /\ parse_sortOrder [("order", "down")] = asc.
Proof.
  pose proof (comparator_policy alnum_compare "powerstats.strength"
                (hero VNull VNull) (hero VNull (VStr "7")) []) as H1.
  pose proof (comparator_policy alnum_compare "powerstats.strength"
                (hero VNull (VStr "100")) (hero VNull (VNum (JsNumber.of_Z 7)))
                [("order", "DeSc")]) as H2.
  pose proof (comparator_policy alnum_compare "powerstats.strength"
                (hero VNull (VStr "100")) (hero VNull (VStr "7x"))
                [("order", "down")]) as H3.
  destruct H1 as (_ & H1 & _).
  destruct H2 as (_ & _ & _ & H2 & _ & H2' & _).
  destruct H3 as (_ & _ & _ & _ & H3 & _ & H3' & _).
  refine (conj _ (conj _ (conj _ (conj _ _)))).
  - apply H1; reflexivity.
  - destruct H2 as [_ H2]; [reflexivity | reflexivity | reflexivity |].
    rewrite H2. reflexivity.
  - destruct H3 as [H3 _]; [reflexivity | reflexivity | reflexivity |].
    rewrite H3. reflexivity.
  - apply H2'. reflexivity.
  - apply H3'. discriminate.
Defined.

(** ** Stability of the sort *)

Lemma subseq_single {A : Type} (x : A) (l : list A) :
  subseq [x] l <-> In x l.
Proof.
  split.
  - intros H. remember [x] as s eqn:Es.
    induction H as [l | y s l H IH | y s l H IH]; try discriminate.
    + injection Es as -> ->. now left.
    + right. now apply IH.
  - induction l as [| y l IH]; intros []; subst.
    + apply subseq_take, subseq_nil.
    + now apply subseq_skip, IH.
Qed.

Lemma subseq_app_l {A : Type} (s l r : list A) :
  subseq s l -> subseq s (l ++ r).
Proof.
  induction 1; cbn; auto using @subseq_nil, @subseq_take, @subseq_skip.
Qed.

(** A filter disturbs no order among the elements it keeps. *)
Lemma subseq_filter {A : Type} (keep : A -> bool) (s l : list A) :
  subseq s l -> forallb keep s = true -> subseq s (filter keep l).
Proof.
  induction 1 as [l | y s l H IH | y s l H IH]; cbn; intros Hs.
  - apply subseq_nil.
  - apply andb_prop in Hs as [Hy Hs]. rewrite Hy.
    now apply subseq_take, IH.
  - destruct (keep y); [apply subseq_skip |]; now apply IH.
Qed.

(** What it is for the comparator to be a consistent order on the
    elements of a list. *)
Lemma consistent_on_spec {A : Type} (comparefn : A -> A -> number)
      (l : list A) :
  consistent_on comparefn l = true
  <-> (forall x y, In x l -> In y l ->
         goes_after comparefn x y = false
         \/ goes_after comparefn y x = false)
      /\ (forall x y z, In x l -> In y l -> In z l ->
            goes_after comparefn x y = false ->
            goes_after comparefn y z = false ->
            goes_after comparefn x z = false).
Proof.
  unfold consistent_on. rewrite forallb_forall. split.
  - intros H. split.
    + intros x y Hx Hy. specialize (H x Hx).
      rewrite forallb_forall in H. specialize (H y Hy).
      apply andb_prop in H as [H _].
      destruct (goes_after comparefn x y), (goes_after comparefn y x);
        auto; discriminate.
    + intros x y z Hx Hy Hz Hxy Hyz. specialize (H x Hx).
      rewrite forallb_forall in H. specialize (H y Hy).
      apply andb_prop in H as [_ H].
      rewrite forallb_forall in H. specialize (H z Hz).
      rewrite Hxy, Hyz in H. cbn in H. now apply negb_true_iff in H.
  - intros [Htotal Htrans] x Hx. apply forallb_forall. intros y Hy.
    apply andb_true_intro. split.
    + destruct (Htotal x y Hx Hy) as [-> | ->]; cbn;
        auto using orb_true_r.
    + apply forallb_forall. intros z Hz.
      destruct (goes_after comparefn x y) eqn:Exy; [reflexivity |].
      destruct (goes_after comparefn y z) eqn:Eyz; [reflexivity |].
      cbn. now rewrite (Htrans x y z).
Qed.

(** A comparator that is a consistent order on a list is one on every
    list made of elements of that list. *)
Lemma consistent_on_incl {A : Type} (comparefn : A -> A -> number)
      (l l' : list A) :
  incl l' l ->
  consistent_on comparefn l = true -> consistent_on comparefn l' = true.
Proof.
  intros Hincl H. apply consistent_on_spec in H as [Htotal Htrans].
  apply consistent_on_spec. split.
  - intros x y Hx Hy. apply Htotal; now apply Hincl.
  - intros x y z Hx Hy Hz. apply Htrans; now apply Hincl.
Qed.

Lemma consistent_on_map {A B : Type} (comparefn : A -> A -> number)
      (f : B -> A) (l : list B) :
  consistent_on (fun x y => comparefn (f x) (f y)) l
  = consistent_on comparefn (map f l).
Proof.
  apply eq_true_iff_eq. rewrite !consistent_on_spec.
  unfold goes_after. split; intros [Htotal Htrans]; split.
  - intros x y Hx Hy.
    apply in_map_iff in Hx as (x' & <- & Hx).
    apply in_map_iff in Hy as (y' & <- & Hy). now apply Htotal.
  - intros x y z Hx Hy Hz.
    apply in_map_iff in Hx as (x' & <- & Hx).
    apply in_map_iff in Hy as (y' & <- & Hy).
    apply in_map_iff in Hz as (z' & <- & Hz). now apply Htrans.
  - intros x y Hx Hy. apply Htotal; now apply in_map.
  - intros x y z Hx Hy Hz. apply Htrans; now apply in_map.
Qed.

Section Stability.

Context {A : Type}.
Variable comparefn : A -> A -> number.

Lemma in_insert (x y : A) (l : list A) :
  In y (insert comparefn x l) <-> y = x \/ In y l.
Proof.
  induction l as [| z l IH]; cbn.
  - intuition (auto; congruence).
  - destruct (goes_after comparefn x z); cbn; [rewrite IH |];
      intuition (auto; congruence).
Qed.

Lemma in_sort_defined (y : A) (l : list A) :
  In y (sort_defined comparefn l) <-> In y l.
Proof.
  induction l as [| x l IH]; cbn; [reflexivity |].
  rewrite in_insert, IH. intuition (auto; congruence).
Qed.

(** Inserting an element disturbs no order among the others. *)
Lemma subseq_insert (x : A) (s l : list A) :
  subseq s l -> subseq s (insert comparefn x l).
Proof.
  induction 1 as [l | y s l H IH | y s l H IH]; cbn.
  - apply subseq_nil.
  - destruct (goes_after comparefn x y).
    + now apply subseq_take.
    + now apply subseq_skip, subseq_take.
  - destruct (goes_after comparefn x y).
    + now apply subseq_skip.
    + now apply subseq_skip, subseq_skip.
Qed.

(** An element is inserted before every element it does not rank
    strictly after. *)
Lemma insert_stays_before (x y : A) (l : list A) :
  goes_after comparefn x y = false ->
  In y l -> subseq [x; y] (insert comparefn x l).
Proof.
  intros Hxy. induction l as [| z l IH]; intros Hin; [destruct Hin |].
  cbn. destruct (goes_after comparefn x z) eqn:Hxz.
  - destruct Hin as [-> | Hin]; [congruence |].
    now apply subseq_skip, IH.
  - apply subseq_take. now apply subseq_single.
Qed.

Lemma sort_defined_keeps_order (x y : A) (l : list A) :
  goes_after comparefn x y = false ->
  subseq [x; y] l -> subseq [x; y] (sort_defined comparefn l).
Proof.
  intros Hxy. induction l as [| z l IH]; intros H.
  - inversion H.
  - cbn. inversion H as [| ? ? ? H' | ? ? ? H']; subst.
    + apply insert_stays_before; [assumption |].
      now apply in_sort_defined, subseq_single.
    + now apply subseq_insert, IH.
Qed.

(** Sorting the elements with their positions sorts the elements. *)
Lemma sort_defined_map {B : Type} (f : B -> A) (l : list B) :
  map f (sort_defined (fun x y => comparefn (f x) (f y)) l)
  = sort_defined comparefn (map f l).
Proof.
  assert (Hins : forall x r,
             map f (insert (fun x y => comparefn (f x) (f y)) x r)
             = insert comparefn (f x) (map f r)).
  { intros x r. induction r as [| z r IH]; cbn; [reflexivity |].
    unfold goes_after.
    destruct (JsNumber.sign (comparefn (f x) (f z))); cbn;
      now rewrite ?IH. }
  unfold sort_defined. induction l as [| x l IH]; cbn [fold_right map];
    [reflexivity |].
  now rewrite Hins, IH.
Qed.

Lemma filter_map {B : Type} (f : B -> A) (keep : A -> bool) (l : list B) :
  map f (filter (fun x => keep (f x)) l) = filter keep (map f l).
Proof.
  induction l as [| x l IH]; cbn; [reflexivity |].
  destruct (keep (f x)); cbn; now rewrite IH.
Qed.

Variable is_undef : A -> bool.

(** With a comparator that is a consistent order on the elements that
    are not [undefined], the sort is the stable one. *)
Lemma sort_consistent (l : list A) :
  consistent_on comparefn (filter (fun x => negb (is_undef x)) l) = true ->
  sort comparefn is_undef l
  = sort_defined comparefn (filter (fun x => negb (is_undef x)) l)
    ++ filter is_undef l.
Proof. intros H. unfold sort. now rewrite H. Qed.

(** Two elements, neither of them [undefined], that the comparator does
    not put in the other order stay in their order. *)
Lemma sort_keeps_order (x y : A) (l : list A) :
  consistent_on comparefn (filter (fun x => negb (is_undef x)) l) = true ->
  is_undef x = false -> is_undef y = false ->
  goes_after comparefn x y = false ->
  subseq [x; y] l -> subseq [x; y] (sort comparefn is_undef l).
Proof.
  intros Hc Hx Hy Hxy H. rewrite sort_consistent by exact Hc.
  apply subseq_app_l, sort_defined_keeps_order; [assumption |].
  apply subseq_filter; [assumption |].
  cbn. now rewrite Hx, Hy.
Qed.

Lemma sort_map {B : Type} (f : B -> A) (l : list B) :
  consistent_on comparefn
    (filter (fun x => negb (is_undef x)) (map f l)) = true ->
  map f (sort (fun x y => comparefn (f x) (f y))
           (fun x => is_undef (f x)) l)
  = sort comparefn is_undef (map f l).
Proof.
  intros Hc. rewrite (sort_consistent (map f l)) by exact Hc.
  unfold sort.
  rewrite consistent_on_map, (filter_map f (fun x => negb (is_undef x))), Hc.
  rewrite map_app, sort_defined_map.
  rewrite (filter_map f is_undef).
  rewrite (filter_map f (fun x => negb (is_undef x))). reflexivity.
Qed.

End Stability.

(** When the comparator is a consistent order, the sort sorts. *)
Section Sorted.

Context {A : Type}.
Variable comparefn : A -> A -> number.

Let le (x y : A) : Prop := goes_after comparefn x y = false.

Hypothesis le_trans : forall x y z, le x y -> le y z -> le x z.
Hypothesis le_total : forall x y, le x y \/ le y x.

Lemma insert_sorted (x : A) (l : list A) :
  StronglySorted le l -> StronglySorted le (insert comparefn x l).
Proof.
  induction 1 as [| y l Hl IH Hy]; cbn.
  - constructor; constructor.
  - destruct (goes_after comparefn x y) eqn:Hxy.
    + apply SSorted_cons; [exact IH |].
      apply Forall_forall. intros z Hz.
      apply in_insert in Hz as [-> | Hz].
      * destruct (le_total x y) as [H | H];
          [unfold le in H; congruence | exact H].
      * rewrite Forall_forall in Hy. now apply Hy.
    + apply SSorted_cons; [apply SSorted_cons; assumption |].
      apply Forall_cons; [exact Hxy |].
      apply Forall_forall. intros z Hz.
      rewrite Forall_forall in Hy.
      apply le_trans with y; [exact Hxy | now apply Hy].
Qed.

Lemma sort_defined_sorted (l : list A) :
  StronglySorted le (sort_defined comparefn l).
Proof.
  induction l as [| x l IH]; cbn; [constructor | now apply insert_sorted].
Qed.

End Sorted.

Lemma insert_permutation {A : Type} (comparefn : A -> A -> number)
      (x : A) (l : list A) :
  Permutation (insert comparefn x l) (x :: l).
Proof.
  induction l as [| y l IH]; cbn; [reflexivity |].
  destruct (goes_after comparefn x y); [| reflexivity].
  rewrite IH. apply perm_swap.
Qed.

Lemma partition_permutation {A : Type} (keep : A -> bool) (l : list A) :
  Permutation (filter (fun x => negb (keep x)) l ++ filter keep l) l.
Proof.
  induction l as [| x l IH]; cbn; [reflexivity |].
  destruct (keep x); cbn.
  - rewrite <- Permutation_middle. now constructor.
  - now constructor.
Qed.

Lemma sort_defined_permutation {A : Type} (comparefn : A -> A -> number)
      (l : list A) :
  Permutation (sort_defined comparefn l) l.
Proof.
  induction l as [| x r IH]; cbn; [reflexivity |].
  rewrite insert_permutation. now constructor.
Qed.

(** The run and what follows it make up the list. *)
Lemma run_tail_app {A : Type} (comparefn : A -> A -> number)
      (descending : bool) (previous : A) (l : list A) :
  fst (run_tail comparefn descending previous l)
  ++ snd (run_tail comparefn descending previous l) = l.
Proof.
  revert previous. induction l as [| x r IH]; intros previous; cbn;
    [reflexivity |].
  destruct (Bool.eqb (goes_before comparefn x previous) descending);
    [| reflexivity].
  specialize (IH x).
  destruct (run_tail comparefn descending x r) as [run rest].
  cbn in *. now rewrite IH.
Qed.

Lemma count_and_make_run_permutation {A : Type}
      (comparefn : A -> A -> number) (l : list A) :
  Permutation
    (fst (count_and_make_run comparefn l)
     ++ snd (count_and_make_run comparefn l)) l.
Proof.
  destruct l as [| low [| high r]]; cbn; try reflexivity.
  pose proof (run_tail_app comparefn (goes_before comparefn high low)
                high r) as H.
  destruct (run_tail comparefn (goes_before comparefn high low) high r)
    as [run rest].
  cbn [fst snd] in *.
  assert (Hrun : Permutation
            (if goes_before comparefn high low
             then rev (low :: high :: run) else low :: high :: run)
            (low :: high :: run)).
  { destruct (goes_before comparefn high low);
      [symmetry; apply Permutation_rev | reflexivity]. }
  rewrite Hrun. cbn. now rewrite H.
Qed.

Lemma binary_insert_permutation {A : Type} (comparefn : A -> A -> number)
      (work : list A) (pivot : A) :
  Permutation (binary_insert comparefn work pivot) (pivot :: work).
Proof.
  unfold binary_insert. rewrite <- Permutation_middle.
  now rewrite firstn_skipn.
Qed.

Lemma binary_insertion_sort_permutation {A : Type}
      (comparefn : A -> A -> number) (l : list A) :
  Permutation (binary_insertion_sort comparefn l) l.
Proof.
  unfold binary_insertion_sort.
  pose proof (count_and_make_run_permutation comparefn l) as H.
  destruct (count_and_make_run comparefn l) as [run rest].
  cbn [fst snd] in H. rewrite <- H. clear H.
  revert run. induction rest as [| x rest IH]; intros run; cbn.
  - now rewrite app_nil_r.
  - rewrite IH, binary_insert_permutation. cbn.
    apply Permutation_middle.
Qed.

(** The sorted list holds the elements of the list, as many times. *)
Lemma sort_permutation {A : Type} (comparefn : A -> A -> number)
      (is_undef : A -> bool) (l : list A) :
  Permutation (sort comparefn is_undef l) l.
Proof.
  unfold sort.
  rewrite <- (partition_permutation is_undef l) at 5.
  apply Permutation_app_tail.
  destruct (consistent_on comparefn _);
    [apply sort_defined_permutation
    | apply binary_insertion_sort_permutation].
Qed.

(** *** Where the races handler lists the parts *)

Lemma drop_white_idem (l : list ascii) :
  JsString.drop_white (JsString.drop_white l) = JsString.drop_white l.
Proof.
  induction l as [| c l IH]; cbn; [reflexivity |].
  destruct (JsString.is_white c) eqn:E; [exact IH |].
  cbn. now rewrite E.
Qed.

Lemma drop_white_last (l : list ascii) (c : ascii) :
  JsString.is_white c = false ->
  exists u, JsString.drop_white (l ++ [c]) = u ++ [c].
Proof.
  intros Hc. induction l as [| d l IH]; cbn.
  - rewrite Hc. now exists [].
  - destruct (JsString.is_white d); [exact IH |].
    now exists (d :: l).
Qed.

Lemma drop_white_head (l : list ascii) :
  match JsString.drop_white l with
  | [] => True
  | c :: _ => JsString.is_white c = false
  end.
Proof.
  induction l as [| c l IH]; cbn; [exact I |].
  destruct (JsString.is_white c) eqn:E; [exact IH | exact E].
Qed.

(** Trimming a trimmed text changes nothing. *)
Lemma trim_idem (s : string) :
  JsString.trim (JsString.trim s) = JsString.trim s.
Proof.
  unfold JsString.trim. rewrite list_ascii_of_string_of_list_ascii.
  f_equal.
  pose proof (drop_white_head (list_ascii_of_string s)) as Hhead.
  destruct (JsString.drop_white (list_ascii_of_string s)) as [| c m].
  - reflexivity.
  - cbn [rev].
    destruct (drop_white_last (rev m) c Hhead) as [u Hu].
    pose proof (drop_white_idem (rev m ++ [c])) as Hidem.
    rewrite Hu in Hidem. rewrite Hu, rev_app_distr. cbn [rev app].
    cbn [JsString.drop_white]. rewrite Hhead.
    cbn [rev]. rewrite rev_involutive, Hidem, rev_app_distr. reflexivity.
Qed.

(** A text without the separator is split into itself. *)
Lemma split_single (sep : ascii) (s whole : string) :
  JsString.split sep s = [whole] -> whole = s.
Proof.
  revert whole. induction s as [| d s IH]; cbn; intros whole H.
  - now injection H as <-.
  - destruct (Ascii.eqb d sep); [| destruct (JsString.split sep s)
                                     as [| h [| ? ?]] eqn:E].
    + injection H as _ H. destruct s; cbn in H; [discriminate |].
      destruct (Ascii.eqb a sep); [discriminate |].
      destruct (JsString.split sep s); discriminate.
    + destruct s; cbn in E; [discriminate |].
      destruct (Ascii.eqb a sep); [discriminate |].
      destruct (JsString.split sep s); discriminate.
    + injection H as <-. f_equal. now apply IH.
    + discriminate.
Qed.

Lemma addRace_token (t : string) (racesSet : list string) :
  JsString.trim t = t ->
  addRace t racesSet
  = if JsString.nonempty t && negb (placeholder t)
    then set_add t racesSet else racesSet.
Proof.
  intros Ht. unfold addRace, placeholder. rewrite Ht.
  destruct (JsString.nonempty t); cbn; [| reflexivity].
  destruct (String.eqb t "-" || _ || _)%bool; reflexivity.
Qed.

Lemma add_trimmed_parts (parts racesSet : list string) :
  Forall (fun t => JsString.trim t = t) parts ->
  fold_left (fun s p => addRace p s) parts racesSet
  = add_tokens
      (filter (fun t => JsString.nonempty t && negb (placeholder t)) parts)
      racesSet.
Proof.
  intros H. revert racesSet.
  induction H as [| t parts Ht Hparts IH]; intros racesSet; cbn;
    [reflexivity |].
  rewrite IH, (addRace_token t racesSet Ht).
  destruct (JsString.nonempty t && negb (placeholder t)); reflexivity.
Qed.

Lemma filter_filter {A : Type} (f g : A -> bool) (l : list A) :
  filter g (filter f l) = filter (fun x => f x && g x) l.
Proof.
  induction l as [| x l IH]; cbn; [reflexivity |].
  destruct (f x); cbn; [destruct (g x) |]; now rewrite IH.
Qed.

(** On a race text with two non-empty parts at least, or with no slash,
    the handler adds the parts that the specification lists. *)
Lemma collect_race_tokens (racesSet : list string) (ch : value) (s : string) :
  race_of ch = VStr s ->
  plain_or_split s = true ->
  collect_race racesSet ch = add_tokens (race_tokens s) racesSet.
Proof.
  intros Hs Hok. unfold collect_race, race_tokens. rewrite Hs.
  cbn [truthy to_string].
  assert (Htrim : Forall (fun t => JsString.trim t = t)
                    (map JsString.trim (JsString.split "/" s))).
  { apply Forall_forall. intros t Ht.
    apply in_map_iff in Ht as (x & <- & _). apply trim_idem. }
  destruct s as [| c s]; [reflexivity |]. cbn [JsString.nonempty negb].
  unfold plain_or_split in Hok.
  destruct (1 <? List.length
                   (filter JsString.nonempty
                      (map JsString.trim (JsString.split "/" (String c s)))))%nat
    eqn:Hlen.
  - rewrite add_trimmed_parts.
    + rewrite filter_filter. apply f_equal2; [| reflexivity].
      apply filter_ext. intros t.
      destruct (JsString.nonempty t); reflexivity.
    + apply Forall_forall. intros t Ht. apply filter_In in Ht as [Ht _].
      rewrite Forall_forall in Htrim. now apply Htrim.
  - cbn [orb] in Hok.
    destruct (JsString.split "/" (String c s)) as [| whole [| ? ?]] eqn:Hsplit;
      try discriminate.
    apply split_single in Hsplit. subst whole. cbn [map filter].
    unfold addRace, add_tokens, placeholder.
    destruct (JsString.nonempty (JsString.trim (String c s))); cbn;
      [| reflexivity].
    destruct (String.eqb _ "-" || _ || _)%bool; reflexivity.
Qed.

Lemma set_add_nodup (t : string) (racesSet : list string) :
  NoDup racesSet -> NoDup (set_add t racesSet).
Proof.
  intros H. unfold set_add.
  destruct (JsString.mem t racesSet) eqn:E; [exact H |].
  apply NoDup_app; [exact H | repeat constructor; intros [] |].
  intros x Hx [<- | []].
  apply mem_In in Hx. congruence.
Qed.

Lemma addRace_nodup (val : string) (racesSet : list string) :
  NoDup racesSet -> NoDup (addRace val racesSet).
Proof.
  intros H. unfold addRace.
  destruct (_ || _ || _ || _)%bool; [exact H | now apply set_add_nodup].
Qed.

Lemma collect_race_nodup (racesSet : list string) (ch : value) :
  NoDup racesSet -> NoDup (collect_race racesSet ch).
Proof.
  intros H. unfold collect_race.
  destruct (negb (truthy (race_of ch))); [exact H |].
  destruct (1 <? _)%nat; [| now apply addRace_nodup].
  revert racesSet H.
  induction (filter JsString.nonempty
               (map JsString.trim
                  (JsString.split "/" (to_string (race_of ch)))))
    as [| p parts IH]; intros racesSet H; cbn; [exact H |].
  now apply IH, addRace_nodup.
Qed.

(** The list of races has no duplicate, whatever the collection. *)
Lemma races_handler_nodup
      (localeCompare : string -> string -> Z) (db : list value) :
  NoDup (races_handler localeCompare db).
Proof.
  unfold races_handler.
  eapply Permutation_NoDup; [symmetry; apply sort_permutation |].
  assert (H : forall racesSet, NoDup racesSet ->
                               NoDup (fold_left collect_race db racesSet)).
  { induction db as [| ch db IH]; intros racesSet Hs; cbn; [exact Hs |].
    now apply IH, collect_race_nodup. }
  apply H. constructor.
Qed.

Lemma in_combine_seq {A : Type} (l : list A) (n k : nat) (b : A) :
  nth_error l n = Some b ->
  In ((n + k)%nat, b) (combine (seq k (List.length l)) l).
Proof.
  revert n k. induction l as [| y l IH]; intros n k Hn.
  - destruct n; discriminate.
  - destruct n as [| n]; cbn in *.
    + injection Hn as ->. now left.
    + right. replace (S (n + k)) with (n + S k)%nat by lia. now apply IH.
Qed.

Lemma subseq_combine_seq {A : Type} (l : list A) (i j k : nat) (a b : A) :
  nth_error l i = Some a -> nth_error l j = Some b -> (i < j)%nat ->
  subseq [((i + k)%nat, a); ((j + k)%nat, b)]
    (combine (seq k (List.length l)) l).
Proof.
  revert i j k. induction l as [| x l IH]; intros i j k Ha Hb Hij.
  - destruct i; discriminate.
  - cbn [List.length seq combine].
    destruct j as [| j]; [lia |]. cbn in Hb.
    replace (S j + k)%nat with (j + S k)%nat by lia.
    destruct i as [| i]; cbn in Ha.
    + injection Ha as ->. cbn [Nat.add].
      apply subseq_take, subseq_single. now apply in_combine_seq.
    + replace (S i + k)%nat with (i + S k)%nat by lia.
      apply subseq_skip, IH; [assumption | assumption | lia].
Qed.

Lemma subseq_indexed {A : Type} (l : list A) (i j : nat) (a b : A) :
  nth_error l i = Some a -> nth_error l j = Some b -> (i < j)%nat ->
  subseq [(i, a); (j, b)] (indexed l).
Proof.
  intros Ha Hb Hij.
  pose proof (subseq_combine_seq l i j 0 a b Ha Hb Hij) as H.
  now rewrite !Nat.add_0_r in H.
Qed.

(** The first of two listed elements stands at an earlier position. *)
Lemma subseq_pair_positions {A : Type} (x y : A) (l : list A) :
  subseq [x; y] l ->
  exists i j, (i < j)%nat /\ nth_error l i = Some x /\ nth_error l j = Some y.
Proof.
  induction l as [| z l IH]; intros H; inversion H as [| ? ? ? H' | ? ? ? H'];
    subst.
  - apply subseq_single, In_nth_error in H' as [j Hj].
    exists 0%nat, (S j). repeat split; [lia | assumption].
  - destruct (IH H') as (i & j & Hij & Hi & Hj).
    exists (S i), (S j). repeat split; [lia | assumption | assumption].
Qed.

Lemma map_snd_indexed {A : Type} (l : list A) : map snd (indexed l) = l.
Proof.
  unfold indexed. generalize 0%nat.
  induction l as [| x l IH]; intros k; cbn; [reflexivity |].
  now rewrite IH.
Qed.

(** C7. The sort is stable whenever the comparator is a consistent
    order on the records: two records on which the comparator ties keep
    their order.  The records are sorted together with their positions
    in the list before the sort: the record that came from the earlier
    position stands at an earlier position of the sorted list.  (A
    record is a value of the collection, hence not [undefined].) *)
Theorem sort_is_stable
        (localeCompare : string -> string -> Z)
        (sortKey : string) (sortOrder : order)
        (items : list value) (i j : nat) (a b : value) :
  consistent_on (compare_records localeCompare sortKey sortOrder) items
  = true ->
  nth_error items i = Some a ->
  nth_error items j = Some b ->
  is_undefined a = false ->
  is_undefined b = false ->
  (i < j)%nat ->
  JsNumber.sign (compare_records localeCompare sortKey sortOrder a b) = Eq ->
  let by_key (x y : nat * value) :=
    compare_records localeCompare sortKey sortOrder (snd x) (snd y) in
  let sorted :=
    sort by_key (fun x => is_undefined (snd x)) (indexed items) in
  map snd sorted
  = sort (compare_records localeCompare sortKey sortOrder) is_undefined items
  /\ exists i' j',
      (i' < j')%nat
      /\ nth_error sorted i' = Some (i, a)
      /\ nth_error sorted j' = Some (j, b).
Proof.
  intros Hc Ha Hb Hua Hub Hij Htie by_key sorted.
  assert (Hdefined :
            consistent_on (compare_records localeCompare sortKey sortOrder)
              (filter (fun x => negb (is_undefined x))
                 (map snd (indexed items))) = true).
  { rewrite map_snd_indexed.
    apply (consistent_on_incl _ items); [apply incl_filter | exact Hc]. }
  split.
  - unfold sorted, by_key.
    rewrite (sort_map (compare_records localeCompare sortKey sortOrder)
               is_undefined snd) by exact Hdefined.
    now rewrite map_snd_indexed.
  - apply subseq_pair_positions. unfold sorted.
    apply sort_keeps_order; [| exact Hua | exact Hub | |].
    + unfold by_key.
      rewrite (consistent_on_map
                 (compare_records localeCompare sortKey sortOrder) snd).
      rewrite (filter_map snd (fun x => negb (is_undefined x))).
      exact Hdefined.
    + unfold goes_after, by_key. cbn [snd]. now rewrite Htie.
    + now apply subseq_indexed.
Qed.

(** Two records of strength 100, a number and a text, around a weaker
    one: after the sort by strength the two are still in their order. *)
Lemma sort_is_stable_witness :
  exists i' j',
    (i' < j')%nat
    /\ nth_error
         (sort (fun x y =>
                  compare_records alnum_compare "powerstats.strength" asc
                    (snd x) (snd y))
            (fun x => is_undefined (snd x)) (indexed trio)) i'
       = Some (0%nat, hero (VStr "A") (VNum (JsNumber.of_Z 100)))
    /\ nth_error
         (sort (fun x y =>
                  compare_records alnum_compare "powerstats.strength" asc
                    (snd x) (snd y))
            (fun x => is_undefined (snd x)) (indexed trio)) j'
       = Some (2%nat, hero (VStr "B") (VStr "100")).
Proof.
  apply (sort_is_stable alnum_compare "powerstats.strength" asc trio
           0 2 _ _ eq_refl eq_refl eq_refl eq_refl eq_refl ltac:(lia)
           eq_refl).
Defined.

(** C7 as first stated, at the names "2", "1a" and "02": the comparator
    ranks "1a" before "2" and "02" before "1a" as texts, and ties "2"
    with "02" as numbers, so that it is no consistent order.  The sort
    finds a descending run of three records and reverses it: the third
    record, which ties with the first, now stands before it. *)
Lemma mixed_keys_reorder_ties :
  JsNumber.sign
    (compare_records alnum_compare "name" asc (named 1 "2") (named 3 "02"))
  = Eq
  /\ sort_stage alnum_compare [("sort", "name")]
       [named 1 "2"; named 2 "1a"; named 3 "02"]
     = [named 3 "02"; named 2 "1a"; named 1 "2"]
  /\ consistent_on (compare_records alnum_compare "name" asc)
       [named 1 "2"; named 2 "1a"; named 3 "02"] = false.
Proof.
  refine (conj _ (conj _ _)); vm_compute; reflexivity.
Qed.

(** ** Reading back a property *)

Lemma lookup_assign (k : string) (v : value) (l : list (string * value)) :
  lookup k (assign k v l) = v.
Proof.
  induction l as [| [k' v'] l IH]; cbn.
  - now rewrite String.eqb_refl.
  - destruct (String.eqb k k') eqn:E; cbn.
    + now rewrite String.eqb_refl.
    + now rewrite E.
Qed.

Lemma nth_set_nth (i : nat) (v : value) (l : list value) :
  nth i (set_nth i v l) VUndef = v.
Proof.
  revert l. induction i as [| i IH]; intros [| x l]; cbn; auto.
Qed.

(** Except for the [length] of an array, a property of an object or of
    an array reads back as it was assigned. *)
Lemma get_set_prop (node : value) (k : string) (v : value) :
  is_object node = true ->
  isArray node && String.eqb k "length" = false ->
  exists node',
    set_prop node k v = Normal node'
    /\ get_prop node' k = v
    /\ is_object node' = true.
Proof.
  destruct node as [| | | | | elems named | props]; try discriminate;
    intros _ Hlen; cbn in Hlen; cbn [set_prop].
  - destruct (array_index k) as [i |] eqn:Ei.
    + eexists. split; [reflexivity |]. cbn. rewrite Ei.
      split; [apply nth_set_nth | reflexivity].
    + rewrite Hlen. eexists. split; [reflexivity |]. cbn.
      rewrite Ei, Hlen. split; [apply lookup_assign | reflexivity].
  - eexists. split; [reflexivity |]. cbn.
    split; [apply lookup_assign | reflexivity].
Qed.

Lemma split_not_nil (sep : ascii) (s : string) : JsString.split sep s <> [].
Proof.
  destruct s as [| c s]; cbn; [discriminate |].
  destruct (Ascii.eqb c sep); [discriminate |].
  destruct (JsString.split sep s); discriminate.
Qed.

(** ** The path resolver *)

Lemma get_keys_cons (obj : value) (k : string) (ks : list string) :
  is_object obj = true ->
  get_keys obj (k :: ks) = get_keys (get_prop obj k) ks.
Proof.
  intros H. unfold get_keys. cbn [fold_left].
  destruct obj; try discriminate; reflexivity.
Qed.

Lemma set_then_get_keys (keys : list string) (v : value) :
  keys <> [] ->
  forall target,
    is_object target = true ->
    array_length_on_path target keys = false ->
    exists target',
      set_keys target keys v = Normal target'
      /\ get_keys target' keys = v
      /\ is_object target' = true.
Proof.
  induction keys as [| k ks IH]; [congruence |].
  intros _ target Hobj Hpath.
  cbn [array_length_on_path] in Hpath.
  apply orb_false_iff in Hpath as [Hlen Hrest].
  destruct ks as [| k' ks'].
  - cbn [set_keys].
    destruct (get_set_prop target k v Hobj Hlen) as (t & Hset & Hget & Ht).
    exists t. rewrite get_keys_cons by assumption.
    repeat split; assumption.
  - assert (Hread : read target k = Normal (get_prop target k)).
    { unfold read. destruct target; try discriminate; reflexivity. }
    change (set_keys target (k :: k' :: ks') v)
      with (cur <- read target k ;;
            node1 <- (if is_object cur then Normal target
                      else set_prop target k (VObj [])) ;;
            child <- set_keys (get_prop node1 k) (k' :: ks') v ;;
            set_prop node1 k child).
    rewrite Hread. cbn [bind]. unfold next_node in Hrest.
    destruct (is_object (get_prop target k)) eqn:Hcur.
    + cbn [bind].
      destruct (IH ltac:(discriminate) (get_prop target k) Hcur Hrest)
        as (child & Hset & Hget & Hchild).
      rewrite Hset. cbn [bind].
      destruct (get_set_prop target k child Hobj Hlen)
        as (t & Hput & Hback & Ht).
      exists t. rewrite get_keys_cons, Hback by assumption.
      repeat split; assumption.
    + destruct (get_set_prop target k (VObj []) Hobj Hlen)
        as (node1 & Hnew & Hfresh & Hnode1).
      rewrite Hnew. cbn [bind]. rewrite Hfresh.
      destruct (IH ltac:(discriminate) (VObj []) eq_refl Hrest)
        as (child & Hset & Hget & Hchild).
      rewrite Hset. cbn [bind].
      assert (Hlen1 : isArray node1 && String.eqb k "length" = false).
      { destruct (String.eqb k "length") eqn:Ek;
          [| now rewrite andb_false_r].
        rewrite andb_true_r in Hlen |- *.
        destruct target; try discriminate.
        cbn in Hnew. injection Hnew as <-. reflexivity. }
      destruct (get_set_prop node1 k child Hnode1 Hlen1)
        as (t & Hput & Hback & Ht).
      exists t. rewrite get_keys_cons, Hback by assumption.
      repeat split; assumption.
Qed.

(** C10, as the code has it: on an object or an array, a value written
    at a non-empty path is read back at that path, provided that no key
    [length] of the path is applied to an array and that the path does
    not go through [__proto__], which names the prototype and no
    property. *)
Theorem set_then_get_by_path (target : value) (path : string) (v : value) :
  is_object target = true ->
  path <> EmptyString ->
  proto_free (JsString.split "." path) = true ->
  array_length_on_path target (JsString.split "." path) = false ->
  exists target',
    setByPath target path v = Normal target'
    /\ getByPath target' path = v.
Proof.
  intros Hobj Hpath _ Hlen.
  destruct (set_then_get_keys (JsString.split "." path) v
              (split_not_nil _ _) target Hobj Hlen)
    as (t & Hset & Hget & _).
  exists t. split; [exact Hset |].
  unfold getByPath. destruct path; [congruence | exact Hget].
Qed.

Lemma set_then_get_by_path_witness :
  exists target',
    setByPath (hero (VStr "Human") (VNum (JsNumber.of_Z 5)))
      "powerstats.speed.max" (VStr "fast") = Normal target'
    /\ getByPath target' "powerstats.speed.max" = VStr "fast".
Proof.
  apply set_then_get_by_path;
    [reflexivity | discriminate | reflexivity | reflexivity].
Defined.

(** C10, as it is stated, fails where the path ends on the [length] of
    an array: writing [null] there empties the array and reads back as
    the number 0, and writing a text that is no length throws. *)
Lemma array_length_is_not_read_back :
  setByPath (VObj [("aliases", JArr [VStr "Bats"])]) "aliases.length" VNull
  = Normal (VObj [("aliases", JArr [])])
  /\ getByPath (VObj [("aliases", JArr [])]) "aliases.length"
     = VNum (JsNumber.of_Z 0)
  /\ VNum (JsNumber.of_Z 0) <> VNull
  /\ setByPath (VObj [("aliases", JArr [VStr "Bats"])]) "aliases.length"
       (VStr "many")
     = Throw RangeError.
Proof.
  repeat split. discriminate.
Qed.

(** ** Projection *)

Lemma pick_cons (character : value) (p : string) (r : list string)
      (out : value) :
  pick character (p :: r) out
  = if is_undefined (getByPath character p) then pick character r out
    else out1 <- setByPath out p (getByPath character p) ;;
         pick character r out1.
Proof.
  cbn [pick]. destruct (getByPath character p); reflexivity.
Qed.

(** One round of the loop of [prepareCharacter], on a value that is
    either missing or copied. *)
Ltac pick_round character p :=
  rewrite (pick_cons character p);
  generalize (getByPath character p);
  let v := fresh "v" in
  intros v; destruct (is_undefined v);
  [| cbn -[pick getByPath]].

Lemma pick_list_view (character : value) :
  pick character ["id"; "name"; "images"; "appearance.race"] (VObj [])
  = Normal (projected character).
Proof.
  unfold projected, entry.
  pick_round character "id"; pick_round character "name";
    pick_round character "images"; pick_round character "appearance.race";
    reflexivity.
Qed.

Lemma lookup_entry (k k' : string) (v : value)
      (rest : list (string * value)) :
  lookup k (entry k' v ++ rest)
  = if String.eqb k k' && negb (is_undefined v) then v else lookup k rest.
Proof.
  unfold entry. destruct (is_undefined v); cbn.
  - now rewrite andb_false_r.
  - rewrite andb_true_r. reflexivity.
Qed.

(** C8. With the wildcard, alone or in a list, the record comes back as
    it is.  With the whitelist of the list view the result holds the
    four paths id, name, images and appearance.race, each with the value
    the record has there and left out when the record has none: the
    result has no other property, and its appearance has no other
    property than race. *)
Theorem projection_list_view (character fields : value) :
  prepareCharacter character (VStr "*") = Normal character
  /\ (wants_all fields = true ->
      prepareCharacter character fields = Normal character)
  /\ prepareCharacter character list_view
     = Normal (if truthy character then projected character else character)
  /\ (forall k, get_prop (projected character) k <> VUndef ->
                In k ["id"; "name"; "images"; "appearance"])
  /\ (forall k, get_prop (get_prop (projected character) "appearance") k
                <> VUndef -> k = "race")
  /\ (forall p, In p ["id"; "name"; "images"; "appearance.race"] ->
                getByPath (projected character) p = getByPath character p).
Proof.
  refine (conj _ (conj _ (conj _ (conj _ (conj _ _))))).
  - unfold prepareCharacter. now destruct (truthy character).
  - intros H. unfold prepareCharacter. rewrite H.
    now destruct (truthy character).
  - unfold prepareCharacter. destruct (truthy character); [| reflexivity].
    cbn [negb]. apply pick_list_view.
  - intros k. unfold projected. cbn [get_prop].
    rewrite !lookup_entry.
    replace (entry "appearance"
               (if is_undefined (getByPath character "appearance.race")
                then VUndef
                else VObj [("race", getByPath character "appearance.race")]))
      with (entry "appearance"
               (if is_undefined (getByPath character "appearance.race")
                then VUndef
                else VObj [("race", getByPath character "appearance.race")])
            ++ []) by apply app_nil_r.
    rewrite lookup_entry. cbn [lookup].
    destruct (String.eqb_spec k "id"); [subst; cbn; auto |].
    destruct (String.eqb_spec k "name"); [subst; cbn; auto |].
    destruct (String.eqb_spec k "images"); [subst; cbn; auto |].
    destruct (String.eqb_spec k "appearance"); [subst; cbn; auto 6 |].
    cbn. congruence.
  - intros k. unfold projected. cbn [get_prop].
    rewrite !lookup_entry. cbn [String.eqb Ascii.eqb Bool.eqb andb].
    unfold entry.
    destruct (is_undefined (getByPath character "appearance.race")); cbn.
    + congruence.
    + destruct (String.eqb_spec k "race"); congruence.
  - intros p Hp. unfold projected, entry.
    set (v1 := getByPath character "id").
    set (v2 := getByPath character "name").
    set (v3 := getByPath character "images").
    set (v4 := getByPath character "appearance.race").
    assert (Hu : forall v, is_undefined v = true -> v = VUndef)
      by (intros []; cbn; congruence).
    cbn in Hp.
    destruct Hp as [<- | [<- | [<- | [<- | []]]]];
      destruct (is_undefined v1) eqn:E1, (is_undefined v2) eqn:E2,
        (is_undefined v3) eqn:E3, (is_undefined v4) eqn:E4;
      cbn; auto using eq_sym.
Qed.

Lemma projection_list_view_witness :
  prepareCharacter (hero (VStr "Human") (VNum (JsNumber.of_Z 5)))
    (JArr [VStr "name"; VStr "*"])
  = Normal (hero (VStr "Human") (VNum (JsNumber.of_Z 5)))
  /\ getByPath (projected (hero (VStr "Human") (VNum (JsNumber.of_Z 5))))
       "appearance.race" = VStr "Human".
Proof.
  split.
  - apply (projection_list_view
             (hero (VStr "Human") (VNum (JsNumber.of_Z 5)))
             (JArr [VStr "name"; VStr "*"])).
    reflexivity.
  - destruct (projection_list_view
                (hero (VStr "Human") (VNum (JsNumber.of_Z 5))) VNull)
      as (_ & _ & _ & _ & _ & H).
    rewrite H; [reflexivity | cbn; auto].
Defined.

(** ** The response *)




Lemma filterM_total {A : Type} (f : A -> completion bool) (g : A -> bool)
      (l : list A) :
  Forall (fun x => f x = Normal (g x)) l -> filterM f l = Normal (filter g l).
Proof.
  induction 1 as [| x l Hx Hl IH]; cbn; [reflexivity |].
  now rewrite Hx, IH.
Qed.

(** The selection throws only on a [null] or [undefined] element of the
    collection: on a collection of records it yields a list. *)
Lemma select_total
      (localeCompare : string -> string -> Z) (db : list value) (q : query) :
  Forall (fun item => nullish item = false) db ->
  exists items, select localeCompare db q = Normal items.
Proof.
  intros Hdb. unfold select, search_stage.
  destruct (JsString.nonempty (parse_q q)); [| eexists; reflexivity].
  assert (Hs : exists g,
             Forall (fun x => search_match (norm (VStr (parse_q q))) x
                              = Normal (g x)) db).
  { exists (fun item =>
              JsString.includes (norm (get_prop item "name"))
                (norm (VStr (parse_q q)))
              || (JsString.includes (norm (get_prop item "slug"))
                    (norm (VStr (parse_q q)))
                  || JsString.includes
                       (norm (getByPath item "biography.fullName"))
                       (norm (VStr (parse_q q)))
                  || JsString.includes
                       (norm (getByPath item "biography.publisher"))
                       (norm (VStr (parse_q q))))).
    eapply Forall_impl; [| exact Hdb].
    intros item Hitem. unfold search_match, read. rewrite Hitem.
    cbn [bind].
    destruct (JsString.includes (norm (get_prop item "name"))
                (norm (VStr (parse_q q)))); reflexivity. }
  destruct Hs as [g Hg]. rewrite (filterM_total _ g) by exact Hg.
  eexists; reflexivity.
Qed.

(** The scenario of the specification: the search term "man" finds
    "Spider-Man". *)
Example search_scenario :
  search_stage [("q", "man")]
    [VObj [("name", VStr "Spider-Man")]; VObj [("name", VStr "Hulk")]]
  = Normal [VObj [("name", VStr "Spider-Man")]].
Proof. reflexivity. Qed.

(** * Further properties of the code *)

(** ** The path resolver *)

Lemma lookup_assign_other (k k' : string) (v : value)
      (l : list (string * value)) :
  k' <> k -> lookup k' (assign k v l) = lookup k' l.
Proof.
  intros Hk. induction l as [| [k0 v0] l IH]; cbn.
  - destruct (String.eqb_spec k' k); [contradiction | reflexivity].
  - destruct (String.eqb_spec k k0) as [-> | Hk0]; cbn.
    + destruct (String.eqb_spec k' k0); [contradiction | reflexivity].
    + destruct (String.eqb k' k0); [reflexivity | exact IH].
Qed.

Lemma assign_assign (k : string) (v w : value) (l : list (string * value)) :
  assign k v (assign k w l) = assign k v l.
Proof.
  induction l as [| [k0 v0] l IH]; cbn.
  - now rewrite String.eqb_refl.
  - destruct (String.eqb k k0) eqn:E; cbn.
    + now rewrite String.eqb_refl.
    + now rewrite E, IH.
Qed.

(** X1. On a plain object whose property at the first key of the path is
    no object (it is missing, [null] or a primitive), [setByPath] puts
    there the chain of fresh nested objects that leads to the value:
    whatever the property held is lost, the other properties stay.  The
    path does not go through [__proto__]. *)
Theorem setByPath_builds_chain
        (props : list (string * value)) (path k : string)
        (ks : list string) (v : value) :
  JsString.split "." path = k :: ks ->
  proto_free (k :: ks) = true ->
  is_object (lookup k props) = false ->
  setByPath (VObj props) path v = Normal (VObj (assign k (nest ks v) props)).
Proof.
  intros Hpath _ Hk. unfold setByPath. rewrite Hpath. clear Hpath.
  revert props k Hk. induction ks as [| k' ks IH]; intros props k Hk.
  - reflexivity.
  - change (set_keys (VObj props) (k :: k' :: ks) v)
      with (cur <- read (VObj props) k ;;
            node1 <- (if is_object cur then Normal (VObj props)
                      else set_prop (VObj props) k (VObj [])) ;;
            child <- set_keys (get_prop node1 k) (k' :: ks) v ;;
            set_prop node1 k child).
    cbn [read nullish bind get_prop]. rewrite Hk.
    cbn [set_prop bind get_prop]. rewrite lookup_assign.
    rewrite (IH [] k' eq_refl). cbn [bind set_prop].
    now rewrite assign_assign.
Qed.

Lemma setByPath_builds_chain_witness :
  setByPath (VObj [("name", VStr "Robo"); ("powerstats", VNum (JsNumber.of_Z 3))])
    "powerstats.speed.max" VNull
  = Normal
      (VObj [("name", VStr "Robo");
             ("powerstats", VObj [("speed", VObj [("max", VNull)])])]).
Proof.
  apply (setByPath_builds_chain
           [("name", VStr "Robo"); ("powerstats", VNum (JsNumber.of_Z 3))]
           "powerstats.speed.max" "powerstats" ["speed"; "max"] VNull);
    reflexivity.
Defined.

Lemma set_keys_shape (props : list (string * value)) (k : string)
      (ks : list string) (v t' : value) :
  set_keys (VObj props) (k :: ks) v = Normal t' ->
  exists x, t' = VObj (assign k x props).
Proof.
  destruct ks as [| k' ks].
  - cbn. intros H. injection H as <-. now exists v.
  - change (set_keys (VObj props) (k :: k' :: ks) v)
      with (cur <- read (VObj props) k ;;
            node1 <- (if is_object cur then Normal (VObj props)
                      else set_prop (VObj props) k (VObj [])) ;;
            child <- set_keys (get_prop node1 k) (k' :: ks) v ;;
            set_prop node1 k child).
    cbn [read nullish bind get_prop].
    destruct (is_object (lookup k props)); cbn [bind set_prop get_prop].
    + destruct (set_keys (lookup k props) (k' :: ks) v) as [child | e];
        cbn [bind]; [| discriminate].
      intros H. injection H as <-. now exists child.
    + destruct (set_keys (lookup k (assign k (VObj []) props)) (k' :: ks) v)
        as [child | e]; cbn [bind]; [| discriminate].
      intros H. injection H as <-. exists child. now rewrite assign_assign.
Qed.

(** X2. A write into a plain object, at a path that does not go through
    [__proto__], touches one top-level property only: whatever is read
    at a path that starts with another key is read as before. *)
Theorem setByPath_keeps_other_keys
        (props : list (string * value)) (path other k k' : string)
        (ks ks' : list string) (v t' : value) :
  JsString.split "." path = k :: ks ->
  proto_free (k :: ks) = true ->
  JsString.split "." other = k' :: ks' ->
  k' <> k ->
  setByPath (VObj props) path v = Normal t' ->
  getByPath t' other = getByPath (VObj props) other.
Proof.
  intros Hpath _ Hother Hk Hset. unfold setByPath in Hset. rewrite Hpath in Hset.
  apply set_keys_shape in Hset as [x ->].
  unfold getByPath. destruct (negb (JsString.nonempty other)); [reflexivity |].
  rewrite Hother. unfold get_keys. cbn [fold_left nullish get_prop].
  now rewrite lookup_assign_other.
Qed.

Lemma setByPath_keeps_other_keys_witness :
  getByPath
    (VObj [("name", VStr "Robo");
           ("powerstats", VObj [("speed", VObj [("max", VNull)])])])
    "name.length"
  = getByPath
      (VObj [("name", VStr "Robo"); ("powerstats", VNum (JsNumber.of_Z 3))])
      "name.length".
Proof.
  apply (setByPath_keeps_other_keys
           [("name", VStr "Robo"); ("powerstats", VNum (JsNumber.of_Z 3))]
           "powerstats.speed.max" "name.length"
           "powerstats" "name" ["speed"; "max"] ["length"] VNull _
           eq_refl eq_refl eq_refl ltac:(discriminate) eq_refl).
Defined.

(** X3. [getByPath] stops at a missing link: when a proper prefix of the
    path resolves to [null] or [undefined], the whole path resolves to
    [undefined]. *)
Theorem getByPath_missing_link
        (obj : value) (path : string) (ks1 ks2 : list string) :
  JsString.split "." path = ks1 ++ ks2 ->
  ks2 <> [] ->
  nullish (get_keys obj ks1) = true ->
  getByPath obj path = VUndef.
Proof.
  intros Hpath Hks2 Hnull. unfold getByPath.
  destruct (negb (JsString.nonempty path)); [reflexivity |].
  rewrite Hpath. unfold get_keys in *. rewrite fold_left_app.
  destruct ks2 as [| k ks2]; [congruence |].
  cbn [fold_left]. rewrite Hnull. clear.
  induction ks2 as [| k' ks2 IH]; [reflexivity | exact IH].
Qed.

Lemma getByPath_missing_link_witness :
  getByPath (hero VNull VNull) "biography.aliases.0" = VUndef
  /\ getByPath (hero VNull VNull) "appearance.race.length" = VUndef.
Proof.
  split.
  - apply (getByPath_missing_link _ _ ["biography"] ["aliases"; "0"]);
      [reflexivity | discriminate | reflexivity].
  - apply (getByPath_missing_link _ _ ["appearance"; "race"] ["length"]);
      [reflexivity | discriminate | reflexivity].
Defined.

Lemma set_nth_idem (i : nat) (v : value) (l : list value) :
  set_nth i v (set_nth i v l) = set_nth i v l.
Proof.
  revert l. induction i as [| i IH]; intros [| x l]; cbn;
    try reflexivity; now rewrite IH.
Qed.

Lemma resize_idem (n : nat) (l : list value) :
  resize n (resize n l) = resize n l.
Proof.
  unfold resize.
  assert (Hlen : List.length (firstn n l ++ repeat VUndef (n - List.length l))
                 = n).
  { rewrite length_app, length_firstn, repeat_length. lia. }
  rewrite Hlen, Nat.sub_diag. cbn [repeat]. rewrite app_nil_r.
  apply firstn_all2. lia.
Qed.

(** Assigning twice changes nothing more than assigning once. *)
Lemma set_prop_idem (node : value) (k : string) (v node' : value) :
  set_prop node k v = Normal node' -> set_prop node' k v = Normal node'.
Proof.
  destruct node as [| | b | x | s | elems named | props]; cbn [set_prop];
    try discriminate; try (intros H; injection H as <-; reflexivity).
  - destruct (array_index k) as [i |] eqn:Ei.
    + intros H. injection H as <-. cbn [set_prop]. rewrite Ei.
      now rewrite set_nth_idem.
    + destruct (String.eqb k "length") eqn:Ek.
      * destruct (to_integer (to_number v)) as [n |] eqn:En; [| discriminate].
        destruct ((0 <=? n) && (n <? 2 ^ 32)) eqn:Hn; [| discriminate].
        intros H. injection H as <-. cbn [set_prop].
        rewrite Ei, Ek, En, Hn. now rewrite resize_idem.
      * intros H. injection H as <-. cbn [set_prop].
        rewrite Ei, Ek. now rewrite assign_assign.
  - intros H. injection H as <-. cbn [set_prop]. now rewrite assign_assign.
Qed.

Lemma set_prop_object (node : value) (k : string) (v node' : value) :
  is_object node = true -> set_prop node k v = Normal node' ->
  is_object node' = true.
Proof.
  destruct node as [| | | | | elems named | props]; try discriminate;
    intros _; cbn [set_prop].
  - destruct (array_index k); [intros H; injection H as <-; reflexivity |].
    destruct (String.eqb k "length").
    + destruct (to_integer (to_number v)); [| discriminate].
      destruct ((0 <=? z) && (z <? 2 ^ 32)); [| discriminate].
      intros H; injection H as <-; reflexivity.
    + intros H; injection H as <-; reflexivity.
  - intros H; injection H as <-; reflexivity.
Qed.

Lemma set_keys_object (keys : list string) (v : value) :
  forall node node',
    is_object node = true -> set_keys node keys v = Normal node' ->
    is_object node' = true.
Proof.
  destruct keys as [| k [| k' ks]]; intros node node' Hobj.
  - cbn. intros H. injection H as <-. exact Hobj.
  - cbn. now apply set_prop_object.
  - change (set_keys node (k :: k' :: ks) v)
      with (cur <- read node k ;;
            node1 <- (if is_object cur then Normal node
                      else set_prop node k (VObj [])) ;;
            child <- set_keys (get_prop node1 k) (k' :: ks) v ;;
            set_prop node1 k child).
    destruct (read node k) as [cur | e]; cbn [bind]; [| discriminate].
    assert (Hn1 : forall node1,
               (if is_object cur then Normal node
                else set_prop node k (VObj [])) = Normal node1 ->
               is_object node1 = true).
    { intros node1. destruct (is_object cur).
      - intros H. injection H as <-. exact Hobj.
      - now apply set_prop_object. }
    destruct (if is_object cur then Normal node
              else set_prop node k (VObj [])) as [node1 | e];
      cbn [bind]; [| discriminate].
    destruct (set_keys (get_prop node1 k) (k' :: ks) v) as [child | e];
      cbn [bind]; [| discriminate].
    apply set_prop_object. now apply Hn1.
Qed.

Lemma set_keys_idem (keys : list string) (v : value) :
  forall node node',
    is_object node = true ->
    set_keys node keys v = Normal node' ->
    set_keys node' keys v = Normal node'.
Proof.
  induction keys as [| k ks IH]; intros node node' Hobj.
  - cbn. intros H. now injection H as <-.
  - destruct ks as [| k' ks].
    + cbn. apply set_prop_idem.
    + change (set_keys node (k :: k' :: ks) v)
        with (cur <- read node k ;;
              node1 <- (if is_object cur then Normal node
                        else set_prop node k (VObj [])) ;;
              child <- set_keys (get_prop node1 k) (k' :: ks) v ;;
              set_prop node1 k child).
      change (set_keys node' (k :: k' :: ks) v)
        with (cur <- read node' k ;;
              node1 <- (if is_object cur then Normal node'
                        else set_prop node' k (VObj [])) ;;
              child <- set_keys (get_prop node1 k) (k' :: ks) v ;;
              set_prop node1 k child).
      assert (Hread : read node k = Normal (get_prop node k)).
      { unfold read. destruct node; try discriminate; reflexivity. }
      rewrite Hread. cbn [bind].
      (* the node from which the loop goes down, and what it finds *)
      assert (Hstep : forall node1,
                 (if is_object (get_prop node k) then Normal node
                  else set_prop node k (VObj [])) = Normal node1 ->
                 is_object node1 = true
                 /\ is_object (get_prop node1 k) = true
                 /\ isArray node1 && String.eqb k "length" = false).
      { intros node1 H1.
        destruct (isArray node && String.eqb k "length") eqn:Hlen.
        - (* the length of an array is a number: the loop replaces it by
             an object, which throws *)
          exfalso. apply andb_prop in Hlen as [Harr Hk].
          apply String.eqb_eq in Hk. subst k.
          destruct node; discriminate.
        - destruct (is_object (get_prop node k)) eqn:Hcur.
          + injection H1 as <-. now repeat split.
          + destruct (get_set_prop node k (VObj []) Hobj Hlen)
              as (n & Hn & Hget & Hn').
            rewrite Hn in H1. injection H1 as <-.
            rewrite Hget. repeat split; try assumption.
            destruct (String.eqb k "length"); [| now rewrite andb_false_r].
            rewrite andb_true_r in Hlen |- *.
            destruct node; try discriminate.
            cbn in Hn. injection Hn as <-. reflexivity. }
      destruct (if is_object (get_prop node k) then Normal node
                else set_prop node k (VObj [])) as [node1 | e];
        cbn [bind]; [| discriminate].
      destruct (Hstep node1 eq_refl) as (Hn1 & Hchild0 & Hlen1).
      destruct (set_keys (get_prop node1 k) (k' :: ks) v) as [child |] eqn:Hc;
        cbn [bind]; [| discriminate].
      intros Hput.
      pose proof (set_keys_object _ _ _ _ Hchild0 Hc) as Hchild.
      destruct (get_set_prop node1 k child Hn1 Hlen1)
        as (n & Hn & Hget & Hn').
      rewrite Hn in Hput. injection Hput as <-.
      assert (Hread' : read n k = Normal (get_prop n k)).
      { unfold read. destruct n; try discriminate; reflexivity. }
      rewrite Hread'. cbn [bind]. rewrite Hget, Hchild. cbn [bind].
      rewrite Hget. rewrite (IH _ _ Hchild0 Hc). cbn [bind].
      exact (set_prop_idem _ _ _ _ Hn).
Qed.

(** X4. Writing the same value at the same path a second time changes
    nothing: on an object or an array, a write that succeeds, at a path
    that does not go through [__proto__], is idempotent. *)
Theorem setByPath_idempotent (target : value) (path : string) (v t' : value) :
  is_object target = true ->
  proto_free (JsString.split "." path) = true ->
  setByPath target path v = Normal t' ->
  setByPath t' path v = Normal t'.
Proof.
  intros Hobj _. unfold setByPath. now apply set_keys_idem.
Qed.

Lemma setByPath_idempotent_witness :
  setByPath
    (VObj [("name", VStr "Robo");
           ("powerstats", VObj [("speed", VObj [("max", VNull)])])])
    "powerstats.speed.max" VNull
  = Normal
      (VObj [("name", VStr "Robo");
             ("powerstats", VObj [("speed", VObj [("max", VNull)])])]).
Proof.
  apply (setByPath_idempotent
           (VObj [("name", VStr "Robo");
                  ("powerstats", VNum (JsNumber.of_Z 3))])
           "powerstats.speed.max" VNull _ eq_refl eq_refl eq_refl).
Defined.

(** ** Projection on any list of top-level names *)

Lemma split_without_separator (sep : ascii) (s : string) :
  existsb (Ascii.eqb sep) (list_ascii_of_string s) = false ->
  JsString.split sep s = [s].
Proof.
  induction s as [| c s IH]; cbn; [reflexivity |].
  intros H. apply orb_false_iff in H as [Hc Hs].
  rewrite Ascii.eqb_sym, Hc. now rewrite (IH Hs).
Qed.

Lemma top_level_name_spec (k : string) :
  top_level_name k = true ->
  JsString.nonempty k = true /\ JsString.trim k = k
  /\ JsString.split "." k = [k] /\ k <> "*".
Proof.
  unfold top_level_name. intros H.
  apply andb_prop in H as [H Hstar]. apply andb_prop in H as [H Hdot].
  apply andb_prop in H as [Hne Htrim].
  repeat split.
  - exact Hne.
  - now apply String.eqb_eq.
  - apply split_without_separator. now apply negb_true_iff.
  - apply negb_true_iff in Hstar. now apply String.eqb_neq.
Qed.

Lemma field_list_names (names : list string) :
  Forall (fun k => top_level_name k = true) names ->
  field_list (JArr (map VStr names)) = names
  /\ wants_all (JArr (map VStr names)) = false.
Proof.
  induction 1 as [| k names Hk Hnames [IH1 IH2]]; [split; reflexivity |].
  apply top_level_name_spec in Hk as (Hne & Htrim & _ & Hstar).
  cbn [field_list wants_all map filter truthy existsb] in *.
  rewrite Hne. cbn [map filter to_string]. rewrite Htrim, Hne, IH1.
  split; [reflexivity |].
  destruct (String.eqb_spec k "*"); [contradiction | exact IH2].
Qed.

Lemma pick_top_level (character : value) (names : list string) :
  Forall (fun k => top_level_name k = true) names ->
  forall acc,
  exists out,
    pick character names (VObj acc) = Normal (VObj out)
    /\ forall k,
        lookup k out
        = if JsString.mem k names
             && negb (is_undefined (getByPath character k))
          then getByPath character k else lookup k acc.
Proof.
  induction 1 as [| n names Hn Hnames IH]; intros acc.
  - exists acc. split; reflexivity.
  - apply top_level_name_spec in Hn as (_ & _ & Hsplit & _).
    rewrite pick_cons.
    destruct (is_undefined (getByPath character n)) eqn:Hu.
    + destruct (IH acc) as (out & Hpick & Hout).
      exists out. split; [exact Hpick |].
      intros k. rewrite Hout. cbn [JsString.mem existsb].
      destruct (String.eqb_spec k n) as [-> | Hkn]; [| reflexivity].
      rewrite Hu. cbn [orb negb]. rewrite andb_false_r.
      destruct (existsb (String.eqb n) names); reflexivity.
    + unfold setByPath. rewrite Hsplit. cbn [set_keys set_prop bind].
      destruct (IH (assign n (getByPath character n) acc))
        as (out & Hpick & Hout).
      exists out. split; [exact Hpick |].
      intros k. rewrite Hout. cbn [JsString.mem existsb].
      destruct (String.eqb_spec k n) as [-> | Hkn].
      * rewrite Hu, lookup_assign. cbn [orb negb andb].
        destruct (JsString.mem n names); reflexivity.
      * cbn [orb]. now rewrite lookup_assign_other.
Qed.

(** X5. For any list of top-level names (not empty, trimmed, without a
    dot, not the wildcard, and none of the members that an object
    inherits) the projection of a record that is a plain object is an
    object in which each listed name reads as it does on the record, and
    which has no other property: nothing outside the list gets
    through. *)
Theorem projection_on_names
        (props : list (string * value)) (names : list string) :
  Forall (fun k => top_level_name k = true) names ->
  Forall (fun k => own_name k = true) names ->
  exists out,
    prepareCharacter (VObj props) (JArr (map VStr names)) = Normal (VObj out)
    /\ (forall k, In k names -> lookup k out = getByPath (VObj props) k)
    /\ (forall k, ~ In k names -> lookup k out = VUndef).
Proof.
  intros Hnames _.
  set (character := VObj props).
  assert (Ht : truthy character = true) by reflexivity.
  destruct (field_list_names names Hnames) as [Hlist Hall].
  destruct (pick_top_level character names Hnames []) as (out & Hpick & Hout).
  exists out. split; [| split].
  - unfold prepareCharacter. rewrite Ht, Hall, Hlist. cbn [negb].
    destruct names; [| exact Hpick].
    cbn in Hpick. exact Hpick.
  - intros k Hk. rewrite Hout.
    apply mem_In in Hk. rewrite Hk. cbn [andb lookup].
    destruct (getByPath character k); reflexivity.
  - intros k Hk. rewrite Hout.
    destruct (JsString.mem k names) eqn:E; [| reflexivity].
    apply mem_In in E. contradiction.
Qed.

Lemma projection_on_names_witness :
  exists out,
    prepareCharacter (hero (VStr "Human") VNull)
      (JArr (map VStr ["name"; "slug"; "powerstats"]))
    = Normal (VObj out)
    /\ lookup "powerstats" out = VObj [("strength", VNull)]
    /\ lookup "appearance" out = VUndef.
Proof.
  destruct (projection_on_names
              [("id", VNum (JsNumber.of_Z 1)); ("name", VStr "Robo");
               ("powerstats", VObj [("strength", VNull)]);
               ("appearance",
                VObj [("race", VStr "Human"); ("gender", VStr "Male")])]
              ["name"; "slug"; "powerstats"])
    as (out & Hp & Hin & Hout).
  - repeat constructor.
  - repeat constructor.
  - exists out. split; [exact Hp | split].
    + rewrite Hin; [reflexivity | cbn; auto].
    + apply Hout. cbn. intros [H | [H | [H | []]]]; discriminate.
Defined.

(** ** The search *)

Lemma is_white_lower (c : ascii) :
  JsString.is_white (JsString.lower_char c) = JsString.is_white c.
Proof.
  destruct c as [[] [] [] [] [] [] [] []]; reflexivity.
Qed.

Lemma lower_char_idem (c : ascii) :
  JsString.lower_char (JsString.lower_char c) = JsString.lower_char c.
Proof.
  destruct c as [[] [] [] [] [] [] [] []]; reflexivity.
Qed.

Lemma toLowerCase_idem (s : string) :
  JsString.toLowerCase (JsString.toLowerCase s) = JsString.toLowerCase s.
Proof.
  induction s as [| c s IH]; cbn; [reflexivity |].
  now rewrite lower_char_idem, IH.
Qed.

Lemma toLowerCase_list (s : string) :
  JsString.toLowerCase s
  = string_of_list_ascii (map JsString.lower_char (list_ascii_of_string s)).
Proof.
  induction s as [| c s IH]; cbn; [reflexivity | now rewrite IH].
Qed.

Lemma drop_white_lower (l : list ascii) :
  JsString.drop_white (map JsString.lower_char l)
  = map JsString.lower_char (JsString.drop_white l).
Proof.
  induction l as [| c l IH]; cbn; [reflexivity |].
  rewrite is_white_lower. destruct (JsString.is_white c); [exact IH | reflexivity].
Qed.

(** Trimming and lower-casing commute. *)
Lemma trim_toLowerCase (s : string) :
  JsString.trim (JsString.toLowerCase s)
  = JsString.toLowerCase (JsString.trim s).
Proof.
  unfold JsString.trim. rewrite !toLowerCase_list.
  rewrite !list_ascii_of_string_of_list_ascii.
  now rewrite drop_white_lower, <- map_rev, drop_white_lower, <- map_rev.
Qed.

Lemma nonempty_toLowerCase (s : string) :
  JsString.nonempty (JsString.toLowerCase s) = JsString.nonempty s.
Proof. destruct s; reflexivity. Qed.

Lemma search_match_found (nq : string) (item : value) :
  nullish item = false -> search_match nq item = Normal (found nq item).
Proof.
  intros H. unfold search_match, found, read. rewrite H. cbn [bind].
  destruct (JsString.includes (norm (get_prop item "name")) nq);
    reflexivity.
Qed.

Lemma search_match_throws (nq : string) (item : value) :
  nullish item = true -> search_match nq item = Throw TypeError.
Proof.
  intros H. unfold search_match, read. now rewrite H.
Qed.

Lemma filterM_throws {A : Type} (f : A -> completion bool) (e : error)
      (l : list A) :
  (forall x r, f x = Throw r -> r = e) ->
  Exists (fun x => f x = Throw e) l -> filterM f l = Throw e.
Proof.
  intros Hone. induction 1 as [x l Hx | x l Hl IH]; cbn.
  - now rewrite Hx.
  - destruct (f x) as [b | r] eqn:Hx; cbn [bind].
    + now rewrite IH.
    + now rewrite (Hone _ _ Hx).
Qed.

(** X6. The search is a no-op when the term is blank.  With a term, and
    on printable records none of which is [null] or [undefined], it
    keeps the records in which the term, in lower case, occurs in the
    name, the slug, the full name or the publisher, whatever the case
    there; and it throws a [TypeError] when the collection holds a
    [null] or [undefined] element. *)
Theorem search_stage_outcome (q : query) (db : list value) :
  (JsString.nonempty (parse_q q) = false -> search_stage q db = Normal db)
  /\ (JsString.nonempty (parse_q q) = true ->
      Forall (fun item => nullish item = false) db ->
      Forall (fun item => printable item = true) db ->
      search_stage q db
      = Normal (filter (found (JsString.toLowerCase (parse_q q))) db))
  /\ (JsString.nonempty (parse_q q) = true ->
      Exists (fun item => nullish item = true) db ->
      search_stage q db = Throw TypeError).
Proof.
  unfold search_stage. repeat split; intros Hq; rewrite Hq.
  - reflexivity.
  - intros Hdb _. apply filterM_total.
    eapply Forall_impl; [| exact Hdb].
    intros item. apply search_match_found.
  - intros Hdb. apply filterM_throws.
    + intros x r. unfold search_match, read.
      destruct (nullish x); cbn [bind]; [congruence |].
      destruct (JsString.includes _ _); cbn [bind]; discriminate.
    + eapply Exists_impl; [| exact Hdb].
      intros item. apply search_match_throws.
Qed.

Lemma search_stage_outcome_witness :
  search_stage [("q", "   ")] [VNull; hero VNull VNull]
  = Normal [VNull; hero VNull VNull]
  /\ search_stage [("q", " ROB ")] [hero VNull VNull; VObj []]
     = Normal [hero VNull VNull]
  /\ search_stage [("q", "rob")] [hero VNull VNull; VNull]
     = Throw TypeError.
Proof.
  split; [| split].
  - destruct (search_stage_outcome [("q", "   ")]
                [VNull; hero VNull VNull]) as (H & _).
    apply H. reflexivity.
  - destruct (search_stage_outcome [("q", " ROB ")]
                [hero VNull VNull; VObj []]) as (_ & H & _).
    rewrite H;
      [reflexivity | reflexivity | repeat constructor | repeat constructor].
  - destruct (search_stage_outcome [("q", "rob")]
                [hero VNull VNull; VNull]) as (_ & _ & H).
    apply H; [reflexivity |]. right. left. reflexivity.
Defined.

(** X7. The search does not depend on the case of the term nor on the
    white space around it: a term and its trimmed lower-case form select
    the same records, and fail alike. *)
Theorem search_term_normalised (q q' : query) (t : string) (db : list value) :
  param q "q" = Some t ->
  param q' "q" = Some (JsString.toLowerCase (JsString.trim t)) ->
  search_stage q db = search_stage q' db.
Proof.
  intros Hq Hq'. unfold search_stage, parse_q. rewrite Hq, Hq'.
  assert (Hor : forall u, or_text (Some u) "" = u)
    by (intros []; reflexivity).
  rewrite !Hor, trim_toLowerCase, trim_idem, nonempty_toLowerCase.
  unfold norm. cbn [nullish to_string]. now rewrite toLowerCase_idem.
Qed.

Lemma search_term_normalised_witness :
  search_stage [("q", " ROb ")] [hero VNull VNull; VObj []]
  = search_stage [("q", "rob")] [hero VNull VNull; VObj []].
Proof.
  apply (search_term_normalised [("q", " ROb ")] [("q", "rob")] " ROb ");
    reflexivity.
Defined.

(** ** The selection *)

Lemma subseq_refl {A : Type} (l : list A) : subseq l l.
Proof. induction l; [apply subseq_nil | now apply subseq_take]. Qed.

Lemma subseq_trans {A : Type} (a b c : list A) :
  subseq a b -> subseq b c -> subseq a c.
Proof.
  intros Hab Hbc. revert a Hab.
  induction Hbc as [c | x b c Hbc IH | x b c Hbc IH]; intros a Hab.
  - inversion Hab. apply subseq_nil.
  - inversion Hab as [| ? ? ? H | ? ? ? H]; subst.
    + apply subseq_nil.
    + apply subseq_take. now apply IH.
    + apply subseq_skip. now apply IH.
  - apply subseq_skip. now apply IH.
Qed.

Lemma subseq_of_filter {A : Type} (f : A -> bool) (l : list A) :
  subseq (filter f l) l.
Proof.
  induction l as [| x l IH]; cbn; [apply subseq_nil |].
  destruct (f x); [now apply subseq_take | now apply subseq_skip].
Qed.


Lemma subseq_In {A : Type} (s l : list A) (x : A) :
  subseq s l -> In x s -> In x l.
Proof.
  induction 1 as [l | y s l H IH | y s l H IH]; cbn; intros Hx.
  - destruct Hx.
  - destruct Hx; [now left | right; now apply IH].
  - right. now apply IH.
Qed.

(** What a filter with a callback that may throw yields, when it yields:
    the elements that the callback accepts, in their order. *)
Lemma filterM_normal {A : Type} (f : A -> completion bool) (l r : list A) :
  filterM f l = Normal r ->
  subseq r l /\ Forall (fun x => f x = Normal true) r.
Proof.
  revert r. induction l as [| x l IH]; cbn; intros r H.
  - injection H as <-. split; [apply subseq_nil | constructor].
  - destruct (f x) as [keep | e] eqn:Hx; cbn [bind] in H; [| discriminate].
    destruct (filterM f l) as [rest | e]; cbn [bind] in H; [| discriminate].
    injection H as <-. destruct (IH rest eq_refl) as [Hsub Hall].
    destruct keep.
    + split; [now apply subseq_take | now constructor].
    + split; [now apply subseq_skip | exact Hall].
Qed.

Lemma filterM_accepted {A : Type} (f : A -> completion bool) (l : list A) :
  Forall (fun x => f x = Normal true) l -> filterM f l = Normal l.
Proof.
  induction 1 as [| x l Hx Hl IH]; cbn; [reflexivity |].
  now rewrite Hx, IH.
Qed.

Lemma filter_accepted {A : Type} (f : A -> bool) (l : list A) :
  Forall (fun x => f x = true) l -> filter f l = l.
Proof.
  induction 1 as [| x l Hx Hl IH]; cbn; [reflexivity |].
  now rewrite Hx, IH.
Qed.

Lemma race_stage_subseq (q : query) (l : list value) :
  subseq (race_stage q l) l.
Proof.
  unfold race_stage. destruct (param q "race"); [| apply subseq_refl].
  destruct (parse_racesWanted s); [apply subseq_refl | apply subseq_of_filter].
Qed.

Lemma field_stage_subseq (q : query) (l : list value) :
  subseq (field_stage q l) l.
Proof.
  unfold field_stage.
  destruct (parse_filters q); [apply subseq_refl | apply subseq_of_filter].
Qed.

Lemma field_stage_idem (q : query) (l : list value) :
  field_stage q (field_stage q l) = field_stage q l.
Proof.
  unfold field_stage.
  destruct (parse_filters q) as [| f fs]; [reflexivity |].
  apply filter_accepted, Forall_forall. intros x Hx.
  now apply filter_In in Hx.
Qed.

Lemma sort_stage_permutation
      (localeCompare : string -> string -> Z) (q : query) (l : list value) :
  Permutation (sort_stage localeCompare q l) l.
Proof.
  unfold sort_stage. destruct (JsString.nonempty (parse_sortKey q));
    [apply sort_permutation | reflexivity].
Qed.

(** X8. Selecting only removes and reorders: the selected list is made
    of records of the collection, each as many times as there at most;
    without a sort key they come in the order of the collection, and
    with one they are a rearrangement of such a list. *)
Theorem select_subselection
        (localeCompare : string -> string -> Z)
        (db : list value) (q : query) (items : list value) :
  select localeCompare db q = Normal items ->
  exists kept,
    subseq kept db
    /\ Permutation items kept
    /\ (JsString.nonempty (parse_sortKey q) = false -> items = kept).
Proof.
  unfold select. intros H.
  destruct (search_stage q db) as [list1 | e] eqn:Hs; cbn [bind] in H;
    [| discriminate].
  injection H as <-.
  exists (field_stage q (race_stage q list1)). split; [| split].
  - eapply subseq_trans; [apply field_stage_subseq |].
    eapply subseq_trans; [apply race_stage_subseq |].
    unfold search_stage in Hs.
    destruct (JsString.nonempty (parse_q q)).
    + now apply filterM_normal in Hs.
    + injection Hs as <-. apply subseq_refl.
  - apply sort_stage_permutation.
  - intros Hk. unfold sort_stage. now rewrite Hk.
Qed.

Lemma select_subselection_witness :
  exists kept,
    subseq kept trio
    /\ Permutation
         [hero VNull (VNum (JsNumber.of_Z 7));
          hero (VStr "A") (VNum (JsNumber.of_Z 100));
          hero (VStr "B") (VStr "100")] kept.
Proof.
  destruct (select_subselection alnum_compare trio
              [("sort", "powerstats.strength")] _ eq_refl)
    as (kept & H1 & H2 & _).
  exists kept. split; assumption.
Defined.

(** X9. Filtering is idempotent: without a sort key, selecting again
    from a selected list with the same query gives that list. *)
Theorem select_idempotent
        (localeCompare : string -> string -> Z)
        (db : list value) (q : query) (items : list value) :
  JsString.nonempty (parse_sortKey q) = false ->
  select localeCompare db q = Normal items ->
  select localeCompare items q = Normal items.
Proof.
  intros Hk. unfold select, sort_stage. rewrite Hk. intros H.
  destruct (search_stage q db) as [list1 | e] eqn:Hs; cbn [bind] in H;
    [| discriminate].
  injection H as <-.
  set (items := field_stage q (race_stage q list1)).
  assert (Hsub : subseq items list1).
  { eapply subseq_trans; [apply field_stage_subseq | apply race_stage_subseq]. }
  assert (Hsearch : search_stage q items = Normal items).
  { unfold search_stage in *.
    destruct (JsString.nonempty (parse_q q)); [| reflexivity].
    apply filterM_normal in Hs as [_ Hall].
    apply filterM_accepted. rewrite Forall_forall in *.
    intros x Hx. apply Hall. eapply subseq_In; eauto. }
  rewrite Hsearch. cbn [bind]. f_equal.
  assert (Hrace : race_stage q items = items).
  { unfold items, race_stage. destruct (param q "race") as [raw |];
      [| reflexivity].
    destruct (parse_racesWanted raw) as [| w ws] eqn:Hw; [reflexivity |].
    apply filter_accepted, Forall_forall. intros x Hx.
    eapply subseq_In in Hx; [| apply field_stage_subseq].
    now apply filter_In in Hx. }
  rewrite Hrace. apply field_stage_idem.
Qed.

Lemma select_idempotent_witness :
  select alnum_compare
    [hero (VStr "A") (VNum (JsNumber.of_Z 100)); hero (VStr "B") (VStr "100")]
    [("powerstats.strength", "100"); ("q", "rob")]
  = Normal
      [hero (VStr "A") (VNum (JsNumber.of_Z 100)); hero (VStr "B") (VStr "100")].
Proof.
  apply (select_idempotent alnum_compare trio
           [("powerstats.strength", "100"); ("q", "rob")]);
    reflexivity.
Defined.

Lemma param_In (q : query) (k v : string) :
  param q k = Some v -> In (k, v) q.
Proof.
  induction q as [| [k' v'] q IH]; cbn; [discriminate |].
  destruct (String.eqb_spec k k') as [-> | Hk].
  - intros H. injection H as ->. now left.
  - intros H. right. now apply IH.
Qed.

Lemma field_test_undefined (expected : string) :
  field_test expected VUndef = negb (JsString.nonempty expected).
Proof.
  unfold field_test. change (to_number VUndef) with NaN.
  change (norm VUndef) with EmptyString.
  cbn [JsNumber.isNaN negb]. rewrite andb_false_r.
  destruct expected; reflexivity.
Qed.

(** X10. The first handler does not reserve the name [search]: a
    parameter [search] is a field filter like any other, so with a text
    that is not empty only records that have a [search] attribute are
    selected. *)
Theorem search_parameter_is_a_filter
        (localeCompare : string -> string -> Z)
        (db : list value) (q : query) (t : string) (items : list value) :
  param q "search" = Some t ->
  t <> EmptyString ->
  select localeCompare db q = Normal items ->
  forall item, In item items -> getByPath item "search" <> VUndef.
Proof.
  intros Hq Ht Hsel item Hitem Hu.
  unfold select in Hsel.
  destruct (search_stage q db) as [list1 | e]; cbn [bind] in Hsel;
    [| discriminate].
  injection Hsel as <-.
  apply (Permutation_in item (sort_stage_permutation localeCompare q _))
    in Hitem.
  assert (Hin : In ("search", t) (parse_filters q)).
  { unfold parse_filters. apply filter_In. split; [| reflexivity].
    now apply param_In. }
  unfold field_stage in Hitem.
  destruct (parse_filters q) as [| f fs] eqn:Hf; [destruct Hin |].
  apply filter_In in Hitem as [_ Hmatch].
  unfold fields_match in Hmatch. rewrite forallb_forall in Hmatch.
  specialize (Hmatch _ Hin). cbn [fst snd] in Hmatch.
  rewrite Hu, field_test_undefined in Hmatch.
  destruct t; [congruence | discriminate].
Qed.

Lemma search_parameter_is_a_filter_witness :
  getByPath (VObj [("search", VStr "robots")]) "search" <> VUndef.
Proof.
  apply (search_parameter_is_a_filter alnum_compare
           [hero VNull VNull; VObj [("search", VStr "robots")]]
           [("page", "1"); ("limit", "10"); ("search", "rob")] "rob"
           [VObj [("search", VStr "robots")]]);
    [reflexivity | discriminate | reflexivity | left; reflexivity].
Defined.

(** ** The response *)

Lemma paginate_chunk (items : list value) (requested size : Z) :
  1 <= requested -> 1 <= size ->
  fst (paginate items (JsNumber.of_Z requested) (JsNumber.of_Z size))
  = firstn (Z.to_nat size)
      (skipn (Z.to_nat
                ((Z.min requested
                    (Z.max 1 (ceil_div (Z.of_nat (List.length items)) size))
                  - 1) * size)) items).
Proof.
  intros Hp Hs. rewrite paginate_finite by exact Hs. cbn [fst].
  pose proof (start_inside items requested size Hp Hs) as [Hin _].
  apply slice_window; lia.
Qed.






(** ** The pages of a list *)

Lemma firstn_plus {A : Type} (a b : nat) (l : list A) :
  firstn (a + b) l = firstn a l ++ firstn b (skipn a l).
Proof.
  revert l. induction a as [| a IH]; intros l; [reflexivity |].
  destruct l as [| x l]; cbn.
  - now rewrite firstn_nil.
  - now rewrite IH.
Qed.

Lemma concat_windows {A : Type} (size n : nat) (l : list A) :
  List.concat (map (fun k => firstn size (skipn (k * size) l)) (seq 0 n))
  = firstn (n * size) l.
Proof.
  induction n as [| n IH]; [reflexivity |].
  rewrite seq_S, map_app, concat_app, IH. cbn [map List.concat Nat.add].
  rewrite app_nil_r.
  replace (S n * size)%nat with (n * size + size)%nat by lia.
  now rewrite firstn_plus.
Qed.

Lemma count_of_Z (n : Z) : count_of (JsNumber.of_Z n) = n.
Proof.
  unfold count_of, JsNumber.of_Z, JsNumber.truncate.
  change (0 <=? 0) with true. cbv iota.
  change (10 ^ 0) with 1. apply Z.mul_1_r.
Qed.

Lemma pages_count (items : list value) (requested size : Z) :
  1 <= size ->
  count_of
    (pages (snd (paginate items (JsNumber.of_Z requested)
                   (JsNumber.of_Z size))))
  = Z.max 1 (ceil_div (Z.of_nat (List.length items)) size).
Proof.
  intros Hs. rewrite paginate_finite by exact Hs.
  cbn [snd pages]. apply count_of_Z.
Qed.

(** The page of a number that is in range. *)
Lemma paginate_in_range (items : list value) (p : nat) (size : Z) :
  1 <= size ->
  (1 <= p)%nat ->
  Z.of_nat p <= Z.max 1 (ceil_div (Z.of_nat (List.length items)) size) ->
  fst (paginate items (JsNumber.of_Z (Z.of_nat p)) (JsNumber.of_Z size))
  = firstn (Z.to_nat size) (skipn ((p - 1) * Z.to_nat size) items).
Proof.
  intros Hs Hp Hmax.
  rewrite paginate_chunk by lia.
  rewrite Z.min_l by exact Hmax.
  f_equal. f_equal. nia.
Qed.

(** X12. For a limit that is an integer of at least 1, the pages of a
    list, from the first to the last, put end to end, are the list:
    every selected record is on exactly one page. *)
Theorem pages_cover_the_list (items : list value) (size : Z) :
  1 <= size ->
  List.concat (all_pages items size) = items.
Proof.
  intros Hs. unfold all_pages. rewrite pages_count by exact Hs.
  set (n := Z.to_nat (Z.max 1 (ceil_div (Z.of_nat (List.length items)) size))).
  rewrite <- seq_shift, map_map.
  rewrite (map_ext_in _
             (fun k => firstn (Z.to_nat size)
                         (skipn (k * Z.to_nat size) items))).
  - rewrite concat_windows. apply firstn_all2.
    pose proof (ceil_div_bounds (Z.of_nat (List.length items)) size
                  ltac:(lia)) as Hb.
    unfold n. nia.
  - intros k Hk. apply in_seq in Hk.
    rewrite (paginate_in_range items (S k) size Hs); [| lia | unfold n in Hk; lia].
    now rewrite Nat.sub_succ, Nat.sub_0_r.
Qed.

Lemma pages_cover_the_list_witness :
  List.concat (all_pages (numbered 25) 10) = numbered 25
  /\ List.length (all_pages (numbered 25) 10) = 3%nat.
Proof.
  split; [| reflexivity].
  apply (pages_cover_the_list (numbered 25) 10). lia.
Defined.

(** X13. For a limit that is an integer of at least 1, a page holds
    [limit] records, except the last one, which holds what is left: the
    number of records on the page is the smaller of the limit and of
    the total less the records of the pages before. *)
Theorem page_length (items : list value) (requested size : Z) :
  1 <= requested ->
  1 <= size ->
  let r := paginate items (JsNumber.of_Z requested) (JsNumber.of_Z size) in
  Z.of_nat (List.length (fst r))
  = Z.min size
      (count_of (total (snd r)) - (count_of (page (snd r)) - 1) * size)
  /\ (count_of (page (snd r)) < count_of (pages (snd r)) ->
      Z.of_nat (List.length (fst r)) = size).
Proof.
  intros Hp Hs r.
  pose proof (start_inside items requested size Hp Hs) as [Hin _].
  pose proof (ceil_div_bounds (Z.of_nat (List.length items)) size
                ltac:(lia)) as Hb.
  unfold r. rewrite paginate_chunk by assumption.
  rewrite length_firstn, length_skipn.
  rewrite paginate_finite by exact Hs.
  cbn [snd total page pages]. rewrite !count_of_Z.
  split; [lia |].
  intros Hlast.
  assert (Z.min requested
            (Z.max 1 (ceil_div (Z.of_nat (List.length items)) size)) * size
          <= Z.of_nat (List.length items)) by nia.
  lia.
Qed.

Lemma page_length_witness :
  List.length
    (fst (paginate (numbered 25) (JsNumber.of_Z 2) (JsNumber.of_Z 10)))
  = 10%nat
  /\ List.length
       (fst (paginate (numbered 25) (JsNumber.of_Z 7) (JsNumber.of_Z 10)))
     = 5%nat.
Proof.
  destruct (page_length (numbered 25) 2 10 ltac:(lia) ltac:(lia)) as [_ H2].
  destruct (page_length (numbered 25) 7 10 ltac:(lia) ltac:(lia)) as [H7 _].
  split.
  - apply Nat2Z.inj. rewrite H2; [reflexivity |]. cbn. lia.
  - apply Nat2Z.inj. rewrite H7. reflexivity.
Defined.

(** ** Records without the sort key *)

Section Blocks.

Context {A : Type}.
Variable comparefn : A -> A -> number.

Lemma insert_first (x : A) (l : list A) :
  match l with
  | [] => True
  | y :: _ => goes_after comparefn x y = false
  end ->
  insert comparefn x l = x :: l.
Proof.
  destruct l as [| y l]; cbn; [reflexivity |]. now intros ->.
Qed.

Lemma insert_past (x : A) (m s : list A) :
  Forall (fun y => goes_after comparefn x y = true) m ->
  insert comparefn x (m ++ s) = m ++ insert comparefn x s.
Proof.
  induction 1 as [| y m Hy Hm IH]; [reflexivity |].
  cbn. now rewrite Hy, IH.
Qed.

Lemma insert_before (x : A) (s m : list A) :
  Forall (fun y => goes_after comparefn x y = false) m ->
  insert comparefn x (s ++ m) = insert comparefn x s ++ m.
Proof.
  intros Hm. induction s as [| y s IH]; cbn.
  - apply insert_first. destruct Hm; [exact I | assumption].
  - destruct (goes_after comparefn x y); [now rewrite IH | reflexivity].
Qed.

Variable low : A -> bool.

(** The elements that rank before all the others, and tie among
    themselves, come first in their order. *)
Lemma sort_defined_low_first (l : list A) :
  (forall x y, low x = true -> goes_after comparefn x y = false) ->
  (forall x y, low x = false -> low y = true ->
               goes_after comparefn x y = true) ->
  sort_defined comparefn l
  = filter low l
    ++ sort_defined comparefn (filter (fun x => negb (low x)) l).
Proof.
  intros Hlow Hhigh. induction l as [| x l IH]; [reflexivity |].
  cbn [sort_defined fold_right filter]. fold (sort_defined comparefn l).
  rewrite IH. destruct (low x) eqn:Hx; cbn [negb].
  - apply insert_first.
    destruct (filter low l ++ _); [exact I | now apply Hlow].
  - rewrite insert_past; [reflexivity |].
    apply Forall_forall. intros y Hy. apply filter_In in Hy as [_ Hy].
    now apply Hhigh.
Qed.

(** The elements that rank after all the others, and tie among
    themselves, come last in their order. *)
Lemma sort_defined_low_last (l : list A) :
  (forall x y, low x = true -> low y = false ->
               goes_after comparefn x y = true) ->
  (forall x y, low y = true -> goes_after comparefn x y = false) ->
  sort_defined comparefn l
  = sort_defined comparefn (filter (fun x => negb (low x)) l)
    ++ filter low l.
Proof.
  intros Hpass Hstop. induction l as [| x l IH]; [reflexivity |].
  cbn [sort_defined fold_right filter]. fold (sort_defined comparefn l).
  rewrite IH. destruct (low x) eqn:Hx; cbn [negb].
  - rewrite insert_past.
    + f_equal. apply insert_first.
      destruct (filter low l) as [| y r] eqn:E; [exact I |].
      assert (Hy : low y = true).
      { assert (In y (filter low l)) by (rewrite E; now left).
        now apply filter_In in H. }
      now apply Hstop.
    + apply Forall_forall. intros y Hy. apply in_sort_defined in Hy.
      apply filter_In in Hy as [_ Hy]. apply negb_true_iff in Hy.
      now apply Hpass.
  - cbn [sort_defined fold_right].
    fold (sort_defined comparefn (filter (fun x => negb (low x)) l)).
    apply insert_before.
    apply Forall_forall. intros y Hy. apply filter_In in Hy as [_ Hy].
    now apply Hstop.
Qed.

End Blocks.

Lemma no_undefined_sort {A : Type} (comparefn : A -> A -> number)
      (is_undef : A -> bool) (l : list A) :
  consistent_on comparefn l = true ->
  Forall (fun x => is_undef x = false) l ->
  sort comparefn is_undef l = sort_defined comparefn l.
Proof.
  intros Hc H. unfold sort.
  assert (H1 : filter (fun x => negb (is_undef x)) l = l).
  { apply filter_accepted. eapply Forall_impl; [| exact H].
    cbn. now intros x ->. }
  assert (H2 : filter is_undef l = []).
  { clear - H. induction H as [| x l Hx Hl IH]; cbn; [reflexivity |].
    now rewrite Hx. }
  now rewrite H1, H2, Hc, app_nil_r.
Qed.

Lemma goes_after_asc (localeCompare : string -> string -> Z)
      (sortKey : string) (a b : value) :
  (lacks sortKey a = true ->
   goes_after (compare_records localeCompare sortKey asc) a b = false)
  /\ (lacks sortKey a = false -> lacks sortKey b = true ->
      goes_after (compare_records localeCompare sortKey asc) a b = true).
Proof.
  unfold goes_after, compare_records, lacks. split.
  - intros ->. cbn [andb]. destruct (nullish (getByPath b sortKey)); reflexivity.
  - intros -> ->. reflexivity.
Qed.

Lemma goes_after_desc (localeCompare : string -> string -> Z)
      (sortKey : string) (a b : value) :
  (lacks sortKey a = true -> lacks sortKey b = false ->
   goes_after (compare_records localeCompare sortKey desc) a b = true)
  /\ (lacks sortKey b = true ->
      goes_after (compare_records localeCompare sortKey desc) a b = false).
Proof.
  unfold goes_after, compare_records, lacks. split.
  - intros -> ->. reflexivity.
  - intros ->. destruct (nullish (getByPath a sortKey)); reflexivity.
Qed.

(** X14. Whenever the comparator is a consistent order on the records:
    in ascending order the records that lack the sort key come first, in
    the order they had, followed by the others sorted; in descending
    order they come last, in the order they had. *)
Theorem sort_places_missing_keys
        (localeCompare : string -> string -> Z)
        (sortKey : string) (items : list value) :
  Forall (fun item => is_undefined item = false) items ->
  (consistent_on (compare_records localeCompare sortKey asc) items = true ->
   sort (compare_records localeCompare sortKey asc) is_undefined items
   = filter (lacks sortKey) items
     ++ sort (compare_records localeCompare sortKey asc) is_undefined
          (filter (fun item => negb (lacks sortKey item)) items))
  /\ (consistent_on (compare_records localeCompare sortKey desc) items
      = true ->
      sort (compare_records localeCompare sortKey desc) is_undefined items
      = sort (compare_records localeCompare sortKey desc) is_undefined
          (filter (fun item => negb (lacks sortKey item)) items)
        ++ filter (lacks sortKey) items).
Proof.
  intros Hdef.
  assert (Hdef' : Forall (fun item => is_undefined item = false)
                    (filter (fun item => negb (lacks sortKey item)) items)).
  { apply Forall_forall. intros x Hx. apply filter_In in Hx as [Hx _].
    rewrite Forall_forall in Hdef. now apply Hdef. }
  split; intros Hc;
    pose proof (consistent_on_incl _ items _
                  (incl_filter (fun item => negb (lacks sortKey item)) items)
                  Hc) as Hc';
    rewrite (no_undefined_sort _ _ items) by assumption;
    rewrite (no_undefined_sort _ _ (filter _ items)) by assumption.
  - apply sort_defined_low_first.
    + intros x y. apply goes_after_asc.
    + intros x y. apply goes_after_asc.
  - apply sort_defined_low_last.
    + intros x y. apply goes_after_desc.
    + intros x y. apply goes_after_desc.
Qed.

Lemma sort_places_missing_keys_witness :
  sort (compare_records alnum_compare "appearance.race" desc) is_undefined
    [hero VNull VNull; hero (VStr "A") VNull; VObj []; hero (VStr "B") VNull]
  = sort (compare_records alnum_compare "appearance.race" desc) is_undefined
      [hero (VStr "A") VNull; hero (VStr "B") VNull]
    ++ [hero VNull VNull; VObj []].
Proof.
  apply (sort_places_missing_keys alnum_compare "appearance.race"
           [hero VNull VNull; hero (VStr "A") VNull; VObj [];
            hero (VStr "B") VNull]).
  - repeat constructor.
  - reflexivity.
Defined.

(** ** Sorting by a numeric key *)

Lemma compare_mul_pos (a b p : Z) :
  0 < p -> (a * p ?= b * p) = (a ?= b).
Proof.
  intros Hp. destruct (Z.compare_spec a b) as [-> | H | H].
  - apply Z.compare_refl.
  - apply Z.compare_lt_iff. nia.
  - apply Z.compare_gt_iff. nia.
Qed.

(** The order of two finite numbers, read over any exponent below
    theirs. *)
Lemma compare_scaled (m1 e1 m2 e2 E : Z) :
  E <= e1 -> E <= e2 ->
  JsNumber.compare (Fin m1 e1) (Fin m2 e2)
  = Z.compare (m1 * 10 ^ (e1 - E)) (m2 * 10 ^ (e2 - E)).
Proof.
  intros H1 H2. cbn [JsNumber.compare JsNumber.align].
  set (e := Z.min e1 e2).
  replace (e1 - E) with ((e1 - e) + (e - E)) by lia.
  replace (e2 - E) with ((e2 - e) + (e - E)) by lia.
  rewrite !Z.pow_add_r by lia. rewrite !Z.mul_assoc.
  symmetry. apply compare_mul_pos. apply Z.pow_pos_nonneg; lia.
Qed.

Lemma compare_antisym (x y : number) :
  JsNumber.isNaN x = false -> JsNumber.isNaN y = false ->
  JsNumber.compare y x = CompOpp (JsNumber.compare x y).
Proof.
  destruct x as [| [|] | m1 e1], y as [| [|] | m2 e2]; intros Hx Hy;
    try discriminate; try reflexivity.
  rewrite (compare_scaled m2 e2 m1 e1 (Z.min e1 e2)) by lia.
  rewrite (compare_scaled m1 e1 m2 e2 (Z.min e1 e2)) by lia.
  apply Z.compare_antisym.
Qed.

Lemma compare_le_trans (x y z : number) :
  JsNumber.isNaN x = false -> JsNumber.isNaN y = false ->
  JsNumber.isNaN z = false ->
  JsNumber.compare x y <> Gt -> JsNumber.compare y z <> Gt ->
  JsNumber.compare x z <> Gt.
Proof.
  destruct x as [| [|] | m1 e1], y as [| [|] | m2 e2], z as [| [|] | m3 e3];
    intros Hx Hy Hz; try discriminate; cbn; try congruence.
  change (JsNumber.compare (Fin m1 e1) (Fin m2 e2) <> Gt ->
          JsNumber.compare (Fin m2 e2) (Fin m3 e3) <> Gt ->
          JsNumber.compare (Fin m1 e1) (Fin m3 e3) <> Gt).
  set (E := Z.min e1 (Z.min e2 e3)).
  rewrite (compare_scaled m1 e1 m2 e2 E), (compare_scaled m2 e2 m3 e3 E),
    (compare_scaled m1 e1 m3 e3 E) by lia.
  rewrite !Z.compare_le_iff. lia.
Qed.

Lemma compare_ge_trans (x y z : number) :
  JsNumber.isNaN x = false -> JsNumber.isNaN y = false ->
  JsNumber.isNaN z = false ->
  JsNumber.compare x y <> Lt -> JsNumber.compare y z <> Lt ->
  JsNumber.compare x z <> Lt.
Proof.
  intros Hx Hy Hz Hxy Hyz.
  rewrite (compare_antisym z x) by assumption.
  rewrite (compare_antisym y x) in Hxy by assumption.
  rewrite (compare_antisym z y) in Hyz by assumption.
  pose proof (compare_le_trans z y x Hz Hy Hx) as H.
  destruct (JsNumber.compare z x), (JsNumber.compare y x),
    (JsNumber.compare z y); cbn in *; intuition congruence.
Qed.

(** Insertion sorts, for a comparator that is a consistent order on the
    elements at hand. *)
Section SortedOn.

Context {A : Type}.
Variable comparefn : A -> A -> number.
Variable P : A -> Prop.

Let le (x y : A) : Prop := goes_after comparefn x y = false.

Hypothesis le_trans :
  forall x y z, P x -> P y -> P z -> le x y -> le y z -> le x z.
Hypothesis le_total : forall x y, P x -> P y -> le x y \/ le y x.

Lemma insert_sorted_on (x : A) (l : list A) :
  P x -> Forall P l ->
  StronglySorted le l -> StronglySorted le (insert comparefn x l).
Proof.
  intros Hx HP. induction 1 as [| y l Hl IH Hy]; cbn.
  - constructor; constructor.
  - apply Forall_cons_iff in HP as [HPy HPl].
    destruct (goes_after comparefn x y) eqn:Hxy.
    + apply SSorted_cons; [now apply IH |].
      apply Forall_forall. intros z Hz.
      apply in_insert in Hz as [-> | Hz].
      * destruct (le_total x y Hx HPy) as [H | H];
          [unfold le in H; congruence | exact H].
      * rewrite Forall_forall in Hy. now apply Hy.
    + apply SSorted_cons; [apply SSorted_cons; assumption |].
      apply Forall_cons; [exact Hxy |].
      apply Forall_forall. intros z Hz.
      rewrite Forall_forall in Hy, HPl.
      apply le_trans with y; auto.
Qed.

Lemma sort_defined_sorted_on (l : list A) :
  Forall P l -> StronglySorted le (sort_defined comparefn l).
Proof.
  induction 1 as [| x l Hx Hl IH]; cbn; [constructor |].
  apply insert_sorted_on; [assumption | | assumption].
  apply Forall_forall. intros y Hy. apply in_sort_defined in Hy.
  rewrite Forall_forall in Hl. now apply Hl.
Qed.

End SortedOn.

Lemma StronglySorted_on {A : Type} (P : A -> Prop) (R R' : A -> A -> Prop)
      (l : list A) :
  (forall x y, P x -> P y -> R x y -> R' x y) ->
  Forall P l -> StronglySorted R l -> StronglySorted R' l.
Proof.
  intros Himp HP. induction 1 as [| x l Hl IH Hx]; [constructor |].
  apply Forall_cons_iff in HP as [HPx HPl].
  constructor; [now apply IH |].
  rewrite Forall_forall in *. intros y Hy. apply Himp; auto.
Qed.

Lemma goes_after_numeric_asc (localeCompare : string -> string -> Z)
      (sortKey : string) (a b : value) :
  numeric_or_missing sortKey a = true ->
  numeric_or_missing sortKey b = true ->
  goes_after (compare_records localeCompare sortKey asc) a b = false
  <-> ascending sortKey a b.
Proof.
  unfold numeric_or_missing, ascending, goes_after, compare_records, lacks,
    key_number, parses_as_number.
  destruct (nullish (getByPath a sortKey)) eqn:Ha;
    destruct (nullish (getByPath b sortKey)) eqn:Hb; cbn [orb andb];
    intros Na Nb.
  - cbn. intuition congruence.
  - cbn. intuition congruence.
  - cbn. split; [discriminate | intros [H | [H _]]; discriminate].
  - rewrite Na, Nb. cbn [andb].
    apply negb_true_iff in Na, Nb. rewrite sign_sub by assumption.
    destruct (JsNumber.compare _ _); intuition congruence.
Qed.

Lemma goes_after_numeric_desc (localeCompare : string -> string -> Z)
      (sortKey : string) (a b : value) :
  numeric_or_missing sortKey a = true ->
  numeric_or_missing sortKey b = true ->
  goes_after (compare_records localeCompare sortKey desc) a b = false
  <-> descending sortKey a b.
Proof.
  unfold numeric_or_missing, descending, goes_after, compare_records, lacks,
    key_number, parses_as_number.
  destruct (nullish (getByPath a sortKey)) eqn:Ha;
    destruct (nullish (getByPath b sortKey)) eqn:Hb; cbn [orb andb];
    intros Na Nb.
  - cbn. intuition congruence.
  - cbn. split; [discriminate | intros [H | [H _]]; discriminate].
  - cbn. intuition congruence.
  - rewrite Na, Nb. cbn [andb].
    apply negb_true_iff in Na, Nb. rewrite sign_neg, sign_sub by assumption.
    destruct (JsNumber.compare _ _); cbn; intuition congruence.
Qed.

Lemma ascending_consistent (sortKey : string) :
  (forall a b c,
      numeric_or_missing sortKey a = true ->
      numeric_or_missing sortKey b = true ->
      numeric_or_missing sortKey c = true ->
      ascending sortKey a b -> ascending sortKey b c -> ascending sortKey a c)
  /\ (forall a b,
         numeric_or_missing sortKey a = true ->
         numeric_or_missing sortKey b = true ->
         ascending sortKey a b \/ ascending sortKey b a).
Proof.
  unfold numeric_or_missing, ascending, parses_as_number. split.
  - intros a b c Na Nb Nc [Ha | [Hb Hab]] [Hb' | [Hc Hbc]];
      try (now left); try congruence.
    destruct (lacks sortKey a) eqn:Ha; [now left | right].
    rewrite Hb in Nb. rewrite Hc in Nc. cbn [orb] in *.
    apply negb_true_iff in Na, Nb, Nc.
    split; [exact Hc |].
    apply (compare_le_trans _ (key_number sortKey b)); assumption.
  - intros a b Na Nb.
    destruct (lacks sortKey a) eqn:Ha; [left; now left |].
    destruct (lacks sortKey b) eqn:Hb; [right; now left |].
    cbn [orb] in *. apply negb_true_iff in Na, Nb.
    rewrite (compare_antisym (key_number sortKey a) (key_number sortKey b))
      by assumption.
    destruct (JsNumber.compare (key_number sortKey a) (key_number sortKey b));
      cbn; [left | left | right]; right;
      (split; [reflexivity + assumption | discriminate]).
Qed.

Lemma descending_consistent (sortKey : string) :
  (forall a b c,
      numeric_or_missing sortKey a = true ->
      numeric_or_missing sortKey b = true ->
      numeric_or_missing sortKey c = true ->
      descending sortKey a b -> descending sortKey b c ->
      descending sortKey a c)
  /\ (forall a b,
         numeric_or_missing sortKey a = true ->
         numeric_or_missing sortKey b = true ->
         descending sortKey a b \/ descending sortKey b a).
Proof.
  unfold numeric_or_missing, descending, parses_as_number. split.
  - intros a b c Na Nb Nc [Hb | [Ha Hab]] [Hc | [Hb' Hbc]];
      try (now left); try congruence.
    destruct (lacks sortKey c) eqn:Hc; [now left | right].
    rewrite Ha in Na. rewrite Hb' in Nb. cbn [orb] in *.
    apply negb_true_iff in Na, Nb, Nc.
    split; [exact Ha |].
    apply (compare_ge_trans _ (key_number sortKey b)); assumption.
  - intros a b Na Nb.
    destruct (lacks sortKey b) eqn:Hb; [left; now left |].
    destruct (lacks sortKey a) eqn:Ha; [right; now left |].
    cbn [orb] in *. apply negb_true_iff in Na, Nb.
    rewrite (compare_antisym (key_number sortKey a) (key_number sortKey b))
      by assumption.
    destruct (JsNumber.compare (key_number sortKey a) (key_number sortKey b));
      cbn; [left | right | left]; right;
      (split; [reflexivity + assumption | discriminate]).
Qed.

(** On records whose keys are numbers or missing, the comparator is a
    consistent order. *)
Lemma numeric_keys_consistent
      (localeCompare : string -> string -> Z)
      (sortKey : string) (sortOrder : order) (items : list value) :
  Forall (fun item => numeric_or_missing sortKey item = true) items ->
  consistent_on (compare_records localeCompare sortKey sortOrder) items
  = true.
Proof.
  intros Hnum. rewrite Forall_forall in Hnum. apply consistent_on_spec.
  destruct (ascending_consistent sortKey) as [Atrans Atotal].
  destruct (descending_consistent sortKey) as [Dtrans Dtotal].
  destruct sortOrder; split.
  - intros x y Hx Hy.
    destruct (Atotal x y (Hnum x Hx) (Hnum y Hy)); [left | right];
      apply goes_after_numeric_asc; auto.
  - intros x y z Hx Hy Hz Hxy Hyz.
    apply goes_after_numeric_asc in Hxy, Hyz; auto.
    apply goes_after_numeric_asc; auto.
    apply (Atrans x y z); auto.
  - intros x y Hx Hy.
    destruct (Dtotal x y (Hnum x Hx) (Hnum y Hy)); [left | right];
      apply goes_after_numeric_desc; auto.
  - intros x y z Hx Hy Hz Hxy Hyz.
    apply goes_after_numeric_desc in Hxy, Hyz; auto.
    apply goes_after_numeric_desc; auto.
    apply (Dtrans x y z); auto.
Qed.

(** X15. When every record has, at the sort key, a value that parses as
    a number or no value at all, the sort puts the records in the order
    of these numbers: ascending with the records without the key first,
    or descending with them last. *)
Theorem sort_orders_numbers
        (localeCompare : string -> string -> Z)
        (sortKey : string) (items : list value) :
  Forall (fun item => is_undefined item = false) items ->
  Forall (fun item => numeric_or_missing sortKey item = true) items ->
  StronglySorted (ascending sortKey)
    (sort (compare_records localeCompare sortKey asc) is_undefined items)
  /\ StronglySorted (descending sortKey)
       (sort (compare_records localeCompare sortKey desc) is_undefined items).
Proof.
  intros Hdef Hnum.
  rewrite !no_undefined_sort
    by (assumption || now apply numeric_keys_consistent).
  set (P := fun item => numeric_or_missing sortKey item = true).
  assert (HP : forall o,
             Forall P (sort_defined
                         (compare_records localeCompare sortKey o) items)).
  { intros o. apply Forall_forall. intros x Hx.
    apply in_sort_defined in Hx. rewrite Forall_forall in Hnum.
    now apply Hnum. }
  destruct (ascending_consistent sortKey) as [Atrans Atotal].
  destruct (descending_consistent sortKey) as [Dtrans Dtotal].
  split.
  - apply (StronglySorted_on P
             (fun a b => goes_after
                           (compare_records localeCompare sortKey asc) a b
                         = false)); [| apply HP |].
    + intros x y Hx Hy. now apply goes_after_numeric_asc.
    + apply (sort_defined_sorted_on _ P); [| | exact Hnum].
      * intros x y z Hx Hy Hz Hxy Hyz.
        apply goes_after_numeric_asc in Hxy, Hyz; try assumption.
        apply goes_after_numeric_asc; try assumption.
        now apply (Atrans x y z).
      * intros x y Hx Hy.
        destruct (Atotal x y Hx Hy); [left | right];
          now apply goes_after_numeric_asc.
  - apply (StronglySorted_on P
             (fun a b => goes_after
                           (compare_records localeCompare sortKey desc) a b
                         = false)); [| apply HP |].
    + intros x y Hx Hy. now apply goes_after_numeric_desc.
    + apply (sort_defined_sorted_on _ P); [| | exact Hnum].
      * intros x y z Hx Hy Hz Hxy Hyz.
        apply goes_after_numeric_desc in Hxy, Hyz; try assumption.
        apply goes_after_numeric_desc; try assumption.
        now apply (Dtrans x y z).
      * intros x y Hx Hy.
        destruct (Dtotal x y Hx Hy); [left | right];
          now apply goes_after_numeric_desc.
Qed.

Lemma sort_orders_numbers_witness :
  StronglySorted (ascending "powerstats.strength")
    (sort (compare_records alnum_compare "powerstats.strength" asc)
       is_undefined (VObj [] :: trio)).
Proof.
  apply (sort_orders_numbers alnum_compare "powerstats.strength"
           (VObj [] :: trio)); repeat constructor.
Defined.

(** ** The list of races *)

Lemma addRace_adds (val r : string) (racesSet : list string) :
  In r (addRace val racesSet) ->
  In r racesSet \/ (r = JsString.trim val /\ listable r = true).
Proof.
  unfold addRace, set_add, listable, placeholder.
  destruct (JsString.nonempty (JsString.trim val)) eqn:Hne; cbn [negb orb];
    [| now left].
  destruct (String.eqb (JsString.trim val) "-"
            || String.eqb (JsString.toLowerCase (JsString.trim val)) "null"
            || String.eqb (JsString.toLowerCase (JsString.trim val)) "n/a")
    eqn:Hp; [now left |].
  destruct (JsString.mem (JsString.trim val) racesSet); [now left |].
  intros H. apply in_app_or in H as [H | [<- | []]]; [now left | right].
  split; [reflexivity |].
  rewrite Hne, trim_idem, String.eqb_refl, Hp. reflexivity.
Qed.

Lemma collect_race_adds (racesSet : list string) (ch : value) (r : string) :
  In r (collect_race racesSet ch) ->
  In r racesSet
  \/ (listable r = true
      /\ (r = JsString.trim (to_string (race_of ch))
          \/ In r (map JsString.trim
                     (JsString.split "/" (to_string (race_of ch)))))).
Proof.
  unfold collect_race.
  destruct (negb (truthy (race_of ch))); [now left |].
  destruct (1 <? _)%nat.
  - assert (Hparts : forall p,
               In p (filter JsString.nonempty
                       (map JsString.trim
                          (JsString.split "/" (to_string (race_of ch))))) ->
               JsString.trim p = p
               /\ In p (map JsString.trim
                          (JsString.split "/" (to_string (race_of ch))))).
    { intros p Hp. apply filter_In in Hp as [Hp _]. split; [| exact Hp].
      apply in_map_iff in Hp as (x & <- & _). apply trim_idem. }
    revert racesSet Hparts.
    induction (filter JsString.nonempty
                 (map JsString.trim
                    (JsString.split "/" (to_string (race_of ch)))))
      as [| p parts IH]; intros racesSet Hparts; cbn [fold_left];
      [now left |].
    intros H. apply IH in H; [| intros p' Hp'; apply Hparts; now right].
    destruct H as [H | H]; [| now right].
    apply addRace_adds in H as [H | [-> Hl]]; [now left | right].
    destruct (Hparts p (or_introl eq_refl)) as [Htrim Hin].
    split; [exact Hl | right]. now rewrite Htrim.
  - intros H. apply addRace_adds in H as [H | [-> Hl]]; [now left | right].
    split; [exact Hl | now left].
Qed.

(** X16. Whatever the collection, the list of races has no duplicate;
    each text in it is not empty, is trimmed and is none of the
    placeholders "-", "null" and "n/a"; and each comes from the race of
    some record: it is that race, trimmed, or one of its parts between
    slashes, trimmed. *)
Theorem races_list_invariants
        (localeCompare : string -> string -> Z) (db : list value) :
  NoDup (races_handler localeCompare db)
  /\ forall r, In r (races_handler localeCompare db) ->
       listable r = true
       /\ exists ch,
           In ch db
           /\ (r = JsString.trim (to_string (race_of ch))
               \/ In r (map JsString.trim
                          (JsString.split "/" (to_string (race_of ch))))).
Proof.
  split; [apply races_handler_nodup |].
  intros r Hr. unfold races_handler in Hr.
  apply (Permutation_in r (sort_permutation _ _ _)) in Hr.
  assert (H : forall racesSet,
             In r (fold_left collect_race db racesSet) ->
             In r racesSet
             \/ (listable r = true
                 /\ exists ch,
                     In ch db
                     /\ (r = JsString.trim (to_string (race_of ch))
                         \/ In r (map JsString.trim
                                    (JsString.split "/"
                                       (to_string (race_of ch))))))).
  { clear Hr.
    induction db as [| ch db IH]; intros racesSet; cbn [fold_left];
      [now left |].
    intros Hin. apply IH in Hin as [Hin | (Hl & ch' & Hch' & Hfrom)].
    - apply collect_race_adds in Hin as [Hin | [Hl Hfrom]]; [now left |].
      right. split; [exact Hl |]. exists ch. split; [now left | exact Hfrom].
    - right. split; [exact Hl |]. exists ch'.
      split; [now right | exact Hfrom]. }
  destruct (H [] Hr) as [[] | Hres]. exact Hres.
Qed.

Lemma add_tokens_app (a b racesSet : list string) :
  add_tokens (a ++ b) racesSet = add_tokens b (add_tokens a racesSet).
Proof. unfold add_tokens. apply fold_left_app. Qed.

Lemma collect_well_formed (racesSet : list string) (ch : value) :
  well_formed_race ch = true ->
  collect_race racesSet ch = add_tokens (record_tokens ch) racesSet.
Proof.
  unfold well_formed_race, record_tokens.
  destruct (race_of ch) as [| | b | x | s | elems named | props] eqn:Hr;
    intros Hw;
    try (unfold collect_race; rewrite Hr, Hw; reflexivity).
  now apply collect_race_tokens.
Qed.

(** X17. On a collection in which every race is missing, or is a text
    with two non-empty parts at least or without a slash, the handler
    lists the tokens of the specification: the trimmed parts of every
    race, the empty ones and the placeholders left out, each once, in
    the order of the collation. *)
Theorem races_of_well_formed_collection
        (localeCompare : string -> string -> Z) (db : list value) :
  Forall (fun ch => well_formed_race ch = true) db ->
  races_handler localeCompare db
  = sort (base_compare localeCompare) (fun _ => false)
      (add_tokens (flat_map record_tokens db) []).
Proof.
  intros Hdb. unfold races_handler. f_equal.
  generalize (@nil string) as racesSet.
  induction Hdb as [| ch db Hch Hdb IH]; intros racesSet; [reflexivity |].
  cbn [fold_left flat_map].
  now rewrite add_tokens_app, IH, collect_well_formed.
Qed.

Lemma races_of_well_formed_collection_witness :
  races_handler alnum_compare
    [hero (VStr "Human / Cyborg") VNull; hero VNull VNull;
     hero (VStr " human") VNull; hero (VStr "Human") VNull;
     hero (VStr "-") VNull]
  = sort (base_compare alnum_compare) (fun _ => false)
      ["Human"; "Cyborg"; "human"].
Proof.
  apply (races_of_well_formed_collection alnum_compare
           [hero (VStr "Human / Cyborg") VNull; hero VNull VNull;
            hero (VStr " human") VNull; hero (VStr "Human") VNull;
            hero (VStr "-") VNull]).
  repeat constructor.
Defined.

Lemma alnum_compare_trans (a b c : string) :
  alnum_compare a b <= 0 -> alnum_compare b c <= 0 ->
  alnum_compare a c <= 0.
Proof.
  revert b c. induction a as [| x a IH]; intros [| y b] [| z c]; cbn;
    try lia.
  destruct (N.ltb_spec (JsString.code (JsString.lower_char x))
              (JsString.code (JsString.lower_char y)));
    destruct (N.ltb_spec (JsString.code (JsString.lower_char y))
                (JsString.code (JsString.lower_char x)));
    destruct (N.ltb_spec (JsString.code (JsString.lower_char y))
                (JsString.code (JsString.lower_char z)));
    destruct (N.ltb_spec (JsString.code (JsString.lower_char z))
                (JsString.code (JsString.lower_char y)));
    destruct (N.ltb_spec (JsString.code (JsString.lower_char x))
                (JsString.code (JsString.lower_char z)));
    destruct (N.ltb_spec (JsString.code (JsString.lower_char z))
                (JsString.code (JsString.lower_char x)));
    try lia. apply IH.
Qed.

Lemma alnum_compare_total (a b : string) :
  alnum_compare a b <= 0 \/ alnum_compare b a <= 0.
Proof.
  revert b. induction a as [| x a IH]; intros [| y b]; cbn; try lia.
  destruct (N.ltb_spec (JsString.code (JsString.lower_char x))
              (JsString.code (JsString.lower_char y)));
    destruct (N.ltb_spec (JsString.code (JsString.lower_char y))
                (JsString.code (JsString.lower_char x)));
    try lia. apply IH.
Qed.

(** X18. When the collation is a consistent order (transitive and
    total), the list of races is sorted by it. *)
Theorem races_are_sorted
        (localeCompare : string -> string -> Z) (db : list value) :
  (forall a b c, localeCompare a b <= 0 -> localeCompare b c <= 0 ->
                 localeCompare a c <= 0) ->
  (forall a b, localeCompare a b <= 0 \/ localeCompare b a <= 0) ->
  StronglySorted (fun a b => localeCompare a b <= 0)
    (races_handler localeCompare db).
Proof.
  intros Htrans Htotal. unfold races_handler.
  assert (Hle : forall a b,
             goes_after (base_compare localeCompare) a b = false
             <-> localeCompare a b <= 0).
  { intros a b. unfold goes_after, base_compare. rewrite sign_of_Z.
    destruct (Z.compare_spec (localeCompare a b) 0); split;
      congruence || lia. }
  rewrite no_undefined_sort; [| | apply Forall_forall; reflexivity].
  2:{ apply consistent_on_spec. split.
      - intros a b _ _. destruct (Htotal a b); [left | right]; now apply Hle.
      - intros a b c _ _ _ Hab Hbc. apply Hle. apply Hle in Hab, Hbc.
        now apply (Htrans a b c). }
  apply (StronglySorted_on (fun _ => True)
           (fun a b => goes_after (base_compare localeCompare) a b = false)).
  - intros a b _ _. apply Hle.
  - apply Forall_forall. intros; exact I.
  - apply (sort_defined_sorted_on _ (fun _ => True)).
    + intros a b c _ _ _ Hab Hbc. apply Hle. apply Hle in Hab, Hbc.
      now apply (Htrans a b c).
    + intros a b _ _. destruct (Htotal a b); [left | right]; now apply Hle.
    + apply Forall_forall. intros; exact I.
Qed.

Lemma races_are_sorted_witness :
  StronglySorted (fun a b => alnum_compare a b <= 0)
    (races_handler alnum_compare
       [hero (VStr "Human / Cyborg") VNull; hero (VStr "Alien") VNull]).
Proof.
  apply (races_are_sorted alnum_compare
           [hero (VStr "Human / Cyborg") VNull; hero (VStr "Alien") VNull]
           alnum_compare_trans alnum_compare_total).
Defined.

(** ** The later revision of the handler *)







(** *** Where the two revisions agree on the race filter *)

Lemma white_free_spec (s : string) :
  white_free s = true
  <-> Forall (fun c => JsString.is_white c = false) (list_ascii_of_string s).
Proof.
  unfold white_free. rewrite forallb_forall, Forall_forall.
  split; intros H c Hc; specialize (H c Hc);
    [now apply negb_true_iff | now apply negb_true_iff].
Qed.

Lemma drop_white_clean (l : list ascii) :
  Forall (fun c => JsString.is_white c = false) l ->
  JsString.drop_white l = l.
Proof.
  destruct 1 as [| c l Hc Hl]; cbn; [reflexivity | now rewrite Hc].
Qed.

Lemma trim_white_free (s : string) :
  white_free s = true -> JsString.trim s = s.
Proof.
  intros H. apply white_free_spec in H. unfold JsString.trim.
  rewrite (drop_white_clean _ H).
  rewrite (drop_white_clean (rev _)) by now apply Forall_rev.
  now rewrite rev_involutive, string_of_list_ascii_of_string.
Qed.

Lemma white_free_toLowerCase (s : string) :
  white_free (JsString.toLowerCase s) = white_free s.
Proof.
  unfold white_free. induction s as [| c s IH]; cbn; [reflexivity |].
  now rewrite is_white_lower, IH.
Qed.

Lemma split_white_free (sep : ascii) (s : string) :
  white_free s = true ->
  Forall (fun p => white_free p = true) (JsString.split sep s).
Proof.
  unfold white_free. induction s as [| c s IH]; cbn.
  - intros _. repeat constructor.
  - intros H. apply andb_prop in H as [Hc Hs]. specialize (IH Hs).
    destruct (Ascii.eqb c sep); [now constructor |].
    destruct (JsString.split sep s) as [| h t].
    + constructor; [cbn; now rewrite Hc | constructor].
    + apply Forall_cons_iff in IH as [Hh Ht].
      constructor; [cbn; now rewrite Hc | exact Ht].
Qed.

Lemma split_toLowerCase (sep : ascii) (s : string) :
  (forall c, Ascii.eqb (JsString.lower_char c) sep = Ascii.eqb c sep) ->
  JsString.split sep (JsString.toLowerCase s)
  = map JsString.toLowerCase (JsString.split sep s).
Proof.
  intros Hsep. induction s as [| c s IH]; cbn; [reflexivity |].
  rewrite Hsep, IH. destruct (Ascii.eqb c sep); [reflexivity |].
  destruct (JsString.split sep s); reflexivity.
Qed.

Lemma lower_keeps_comma (c : ascii) :
  Ascii.eqb (JsString.lower_char c) "," = Ascii.eqb c ",".
Proof. destruct c as [[] [] [] [] [] [] [] []]; reflexivity. Qed.

Lemma lower_keeps_slash (c : ascii) :
  Ascii.eqb (JsString.lower_char c) "/" = Ascii.eqb c "/".
Proof. destruct c as [[] [] [] [] [] [] [] []]; reflexivity. Qed.

(** The pieces of a text without white space, in lower case, either
    way round. *)
Lemma lower_pieces (sep : ascii) (s : string) :
  white_free s = true ->
  map (fun p => JsString.toLowerCase (JsString.trim p)) (JsString.split sep s)
  = map JsString.toLowerCase (JsString.split sep s).
Proof.
  intros H. apply map_ext_in. intros p Hp.
  pose proof (split_white_free sep s H) as Hall.
  rewrite Forall_forall in Hall. now rewrite trim_white_free by auto.
Qed.

Lemma wanted_races_agree (q : query) (raw : string) :
  param q "race" = Some raw ->
  white_free raw = true ->
  Revised.parse_race q = parse_racesWanted raw.
Proof.
  intros Hq Hw. unfold Revised.parse_race, parse_racesWanted. rewrite Hq.
  replace (or_text (Some raw) "") with raw by (destruct raw; reflexivity).
  rewrite trim_white_free by now rewrite white_free_toLowerCase.
  rewrite (split_toLowerCase "," raw lower_keeps_comma).
  now rewrite lower_pieces.
Qed.

Lemma existsb_none {A : Type} (l : list A) :
  existsb (fun _ => false) l = false.
Proof. induction l; auto. Qed.

Lemma race_match_agrees (racesWanted : list string) (item : value) :
  Forall (fun w => JsString.nonempty w = true) racesWanted ->
  plain_race item = true ->
  Revised.race_match racesWanted item
  = Normal (race_match racesWanted item).
Proof.
  intros Hne Hplain. unfold plain_race in Hplain.
  unfold Revised.race_match, Revised.races_of, race_match.
  destruct (race_of item) as [| | b | x | s | elems named | props];
    try discriminate; cbn [bind truthy negb to_string].
  - now rewrite existsb_none.
  - now rewrite existsb_none.
  - f_equal. unfold race_parts.
    rewrite (split_toLowerCase "/" s lower_keeps_slash), lower_pieces
      by exact Hplain.
    set (races := map JsString.toLowerCase (JsString.split "/" s)).
    apply Bool.eq_iff_eq_true.
    destruct s as [| c s].
    + cbn. split; [| discriminate]. rewrite existsb_exists.
      intros (w & Hw & Hin). rewrite Forall_forall in Hne.
      specialize (Hne w Hw). cbn in Hin. rewrite orb_false_r in Hin.
      apply String.eqb_eq in Hin. subst w. discriminate.
    + cbn [JsString.nonempty negb]. rewrite !existsb_exists. split.
      * intros (w & Hw & Hin). exists w. split; [| now apply mem_In].
        apply filter_In. split; [now apply mem_In |].
        rewrite Forall_forall in Hne. now apply Hne.
      * intros (p & Hp & Hin). exists p.
        apply filter_In in Hp as [Hp _].
        split; [now apply mem_In | now apply mem_In].
Qed.

(** X20. On race parameters without white space and records whose race
    is missing or a text without white space, the race filter of the
    later revision keeps exactly the records that the race filter of the
    first handler keeps.  (With white space they differ: the later
    revision does not trim the pieces.) *)
Theorem revised_race_filter_agrees
        (q : query) (raw : string) (items : list value) :
  param q "race" = Some raw ->
  white_free raw = true ->
  Forall (fun item => plain_race item = true) items ->
  Revised.race_stage q items = Normal (race_stage q items).
Proof.
  intros Hq Hw Hitems. unfold Revised.race_stage, race_stage.
  rewrite (wanted_races_agree q raw Hq Hw), Hq.
  destruct (parse_racesWanted raw) as [| w ws] eqn:Hwanted; [reflexivity |].
  apply filterM_total. eapply Forall_impl; [| exact Hitems].
  intros item. apply race_match_agrees.
  rewrite <- Hwanted. unfold parse_racesWanted.
  apply Forall_forall. intros x Hx. now apply filter_In in Hx.
Qed.

Lemma revised_race_filter_agrees_witness :
  Revised.race_stage [("race", "CYBORG,alien")]
    [hero (VStr "Human/Cyborg") VNull; hero VNull VNull;
     hero (VStr "Human") VNull]
  = Normal [hero (VStr "Human/Cyborg") VNull]
  /\ Revised.race_stage [("race", "cyborg")]
       [hero (VStr "Human / Cyborg") VNull] = Normal []
  /\ race_stage [("race", "cyborg")] [hero (VStr "Human / Cyborg") VNull]
     = [hero (VStr "Human / Cyborg") VNull].
Proof.
  split; [| split; reflexivity].
  apply (revised_race_filter_agrees [("race", "CYBORG,alien")] "CYBORG,alien"
           [hero (VStr "Human/Cyborg") VNull; hero VNull VNull;
            hero (VStr "Human") VNull]);
    [reflexivity | reflexivity | repeat constructor].
Defined.

Lemma filterM_included {A : Type} (f g : A -> completion bool)
      (l r r' : list A) :
  (forall x, f x = Normal true -> g x = Normal true) ->
  filterM f l = Normal r -> filterM g l = Normal r' -> subseq r r'.
Proof.
  intros Hfg. revert r r'. induction l as [| x l IH]; cbn; intros r r' Hr Hr'.
  - injection Hr as <-. apply subseq_nil.
  - destruct (f x) as [b |] eqn:Hf; cbn [bind] in Hr; [| discriminate].
    destruct (g x) as [b' |] eqn:Hg; cbn [bind] in Hr'; [| discriminate].
    destruct (filterM f l) as [rest |]; cbn [bind] in Hr; [| discriminate].
    destruct (filterM g l) as [rest' |]; cbn [bind] in Hr'; [| discriminate].
    injection Hr as <-. injection Hr' as <-.
    specialize (IH rest rest' eq_refl eq_refl).
    destruct b.
    + rewrite (Hfg x Hf) in Hg. injection Hg as <-. now apply subseq_take.
    + destruct b'; [now apply subseq_skip | exact IH].
Qed.

(** X21. The later revision searches the name only: for the same term,
    what its search keeps is among what the search of the first handler
    keeps, in the same order. *)
Theorem revised_search_is_narrower
        (q : query) (t : string) (db r r' : list value) :
  param q "q" = Some t ->
  Revised.search_stage q db = Normal r ->
  search_stage q db = Normal r' ->
  subseq r r'.
Proof.
  intros Hq. destruct t as [| c t].
  - (* no term for the first handler: it keeps everything *)
    unfold search_stage, parse_q. rewrite Hq. cbn.
    intros Hr Hr'. injection Hr' as <-.
    unfold Revised.search_stage in Hr.
    destruct (JsString.nonempty (Revised.parse_q q)).
    + now apply filterM_normal in Hr.
    + injection Hr as <-. apply subseq_refl.
  - unfold Revised.search_stage, search_stage, Revised.parse_q, parse_q.
    rewrite Hq. cbn [or_text JsString.nonempty].
    rewrite trim_toLowerCase, nonempty_toLowerCase.
    unfold norm. cbn [nullish to_string]. rewrite toLowerCase_idem.
    destruct (JsString.nonempty (JsString.trim (String c t))).
    + apply filterM_included. intros x.
      unfold Revised.search_match, search_match.
      destruct (read x "name") as [name |]; cbn [bind]; [| discriminate].
      intros H. injection H as ->. reflexivity.
    + intros H H'. injection H as <-. injection H' as <-. apply subseq_refl.
Qed.

Lemma revised_search_is_narrower_witness :
  subseq [hero VNull VNull]
    [hero VNull VNull; VObj [("slug", VStr "robin")]].
Proof.
  apply (revised_search_is_narrower [("q", "ROB")] "ROB"
           [hero VNull VNull; VObj [("slug", VStr "robin")]; VObj []]);
    reflexivity.
Defined.

(** ** A page number in decimal notation *)

Ltac digit_value :=
  unfold digit_step;
  repeat match goal with
    | |- context [JsNumber.digit_val ?c] =>
        let v := eval vm_compute in (JsNumber.digit_val c) in
        change (JsNumber.digit_val c) with v
    end.

Lemma digits_val_acc (d : Decimal.uint) (acc : positive) :
  fold_left digit_step (uint_chars d) (Z.pos acc)
  = Z.pos (Pos.of_uint_acc d acc).
Proof.
  revert acc. unfold uint_chars.
  induction d; intros acc; cbn [NilEmpty.string_of_uint list_ascii_of_string
                                  fold_left Pos.of_uint_acc];
    [reflexivity | ..];
    match goal with
    | |- fold_left _ _ ?a = _ =>
        match goal with
        | |- _ = Z.pos (Pos.of_uint_acc _ ?b) =>
            replace a with (Z.pos b)
              by (digit_value; lia)
        end
    end; apply IHd.
Qed.

Lemma digits_val_uint (d : Decimal.uint) :
  fold_left digit_step (uint_chars d) 0 = Z.of_N (Pos.of_uint d).
Proof.
  unfold uint_chars.
  induction d; cbn [NilEmpty.string_of_uint list_ascii_of_string fold_left
                      Pos.of_uint];
    [reflexivity | exact IHd | ..];
    match goal with
    | |- fold_left _ _ ?a = Z.of_N (N.pos (Pos.of_uint_acc _ ?b)) =>
        replace a with (Z.pos b)
          by (digit_value; lia)
    end; apply digits_val_acc.
Qed.

Lemma uint_chars_digits (d : Decimal.uint) :
  Forall (fun c => JsNumber.is_digit c = true) (uint_chars d).
Proof.
  unfold uint_chars. induction d; cbn; constructor; auto.
Qed.

Lemma digits_of_chars (n : Z) :
  0 <= n ->
  JsNumber.digits_of n = uint_chars (N.to_uint (Z.to_N n))
  /\ JsNumber.digits_of n <> [].
Proof.
  intros Hn. unfold JsNumber.digits_of, NilZero.string_of_uint, uint_chars.
  destruct (Z.to_N n) as [| p] eqn:E; [split; [reflexivity | discriminate] |].
  cbn [N.to_uint].
  pose proof (DecimalPos.Unsigned.to_uint_nonnil p) as Hnil.
  destruct (Pos.to_uint p) eqn:Ep; [congruence | ..];
    (split; [reflexivity | discriminate]).
Qed.

(** The digits of a number, read back. *)
Lemma digits_val_digits_of (n : Z) :
  0 <= n -> JsNumber.digits_val (JsNumber.digits_of n) = n.
Proof.
  intros Hn. destruct (digits_of_chars n Hn) as [-> _].
  unfold JsNumber.digits_val.
  change (fun acc c => 10 * acc + JsNumber.digit_val c) with digit_step.
  rewrite digits_val_uint.
  change (Pos.of_uint (N.to_uint (Z.to_N n)))
    with (N.of_uint (N.to_uint (Z.to_N n))).
  rewrite DecimalN.Unsigned.of_to. lia.
Qed.

Lemma nzhead_head (d : Decimal.uint) :
  match Decimal.nzhead d with Decimal.D0 _ => False | _ => True end.
Proof. induction d; cbn; auto. Qed.

Lemma to_uint_head (p : positive) :
  match Pos.to_uint p with
  | Decimal.Nil | Decimal.D0 _ => False
  | _ => True
  end.
Proof.
  pose proof (DecimalPos.Unsigned.to_of (Pos.to_uint p)) as H.
  rewrite DecimalPos.Unsigned.of_to in H. cbn [N.to_uint] in H.
  pose proof (DecimalPos.Unsigned.to_uint_nonzero p) as Hz.
  pose proof (DecimalPos.Unsigned.to_uint_nonnil p) as Hn.
  pose proof (nzhead_head (Pos.to_uint p)) as Hh.
  unfold Decimal.unorm in H.
  destruct (Pos.to_uint p) as [| l | l | l | l | l | l | l | l | l | l];
    try exact I; [congruence |].
  cbn [Decimal.nzhead] in H, Hh.
  destruct (Decimal.nzhead l); try contradiction; discriminate.
Qed.

Lemma digit_val_range (c : ascii) :
  JsNumber.is_digit c = true -> 0 <= JsNumber.digit_val c <= 9.
Proof.
  unfold JsNumber.is_digit, JsNumber.digit_val. intros H.
  apply andb_prop in H as [H1 H2].
  apply N.leb_le in H1, H2. lia.
Qed.

Lemma fold_digits_lower (l : list ascii) (acc : Z) :
  Forall (fun c => JsNumber.is_digit c = true) l ->
  0 <= acc ->
  acc * 10 ^ Z.of_nat (List.length l) <= fold_left digit_step l acc.
Proof.
  intros H. revert acc. induction H as [| c l Hc Hl IH]; intros acc Hacc.
  - cbn. lia.
  - cbn [fold_left List.length].
    pose proof (digit_val_range c Hc) as Hd.
    specialize (IH (digit_step acc c)). unfold digit_step in *.
    rewrite Nat2Z.inj_succ, Z.pow_succ_r by lia.
    assert (0 <= 10 ^ Z.of_nat (List.length l)) by (apply Z.pow_nonneg; lia).
    nia.
Qed.

(** A positive number has at least as many digits as its size tells. *)
Lemma digits_of_length (n : Z) :
  0 < n -> 10 ^ (Z.of_nat (List.length (JsNumber.digits_of n)) - 1) <= n.
Proof.
  intros Hn.
  pose proof (digits_val_digits_of n ltac:(lia)) as Hval.
  destruct (digits_of_chars n ltac:(lia)) as [Hchars _].
  rewrite Hchars in *. clear Hchars.
  destruct (Z.to_N n) as [| p] eqn:E; [lia |]. cbn [N.to_uint] in *.
  pose proof (to_uint_head p) as Hhead.
  pose proof (uint_chars_digits (Pos.to_uint p)) as Hdig.
  unfold JsNumber.digits_val in Hval.
  change (fun acc c => 10 * acc + JsNumber.digit_val c) with digit_step in Hval.
  unfold uint_chars in *.
  destruct (Pos.to_uint p) as [| l | l | l | l | l | l | l | l | l | l];
    try contradiction;
    cbn [NilEmpty.string_of_uint list_ascii_of_string fold_left List.length]
      in *;
    apply Forall_cons_iff in Hdig as [_ Hdig];
    match type of Hval with
    | fold_left _ _ ?a = _ =>
        pose proof (fold_digits_lower _ a Hdig
                      ltac:(digit_value; lia))
          as Hlow;
        assert (1 <= a)
          by (digit_value; lia)
    end;
    rewrite Nat2Z.inj_succ;
    replace (Z.succ (Z.of_nat (List.length
              (list_ascii_of_string (NilEmpty.string_of_uint l)))) - 1)
      with (Z.of_nat (List.length
              (list_ascii_of_string (NilEmpty.string_of_uint l)))) by lia;
    assert (0 <= 10 ^ Z.of_nat (List.length
              (list_ascii_of_string (NilEmpty.string_of_uint l))))
      by (apply Z.pow_nonneg; lia);
    nia.
Qed.

Lemma digit_not_white (c : ascii) :
  JsNumber.is_digit c = true -> JsString.is_white c = false.
Proof.
  unfold JsNumber.is_digit, JsString.is_white. intros H.
  apply andb_prop in H as [H1 H2]. apply N.leb_le in H1, H2.
  destruct (N.leb_spec 9 (JsString.code c)), (N.leb_spec (JsString.code c) 13),
    (N.eqb_spec (JsString.code c) 32), (N.eqb_spec (JsString.code c) 160);
    cbn; try reflexivity; lia.
Qed.

Lemma take_sign_digit (c : ascii) (r : list ascii) :
  JsNumber.is_digit c = true -> JsNumber.take_sign (c :: r) = (false, c :: r).
Proof.
  intros H.
  destruct c as [[] [] [] [] [] [] [] []]; try reflexivity;
    vm_compute in H; discriminate.
Qed.

Lemma span_digits_all (l : list ascii) :
  Forall (fun c => JsNumber.is_digit c = true) l ->
  JsNumber.span_digits l = (l, []).
Proof.
  induction 1 as [| c l Hc _ IH]; [reflexivity |].
  cbn [JsNumber.span_digits]. now rewrite Hc, IH.
Qed.

(** The integer read from a non-empty run of digits is its value. *)
Lemma read_int_digits (l : list ascii) :
  l <> [] ->
  Forall (fun c => JsNumber.is_digit c = true) l ->
  JsNumber.read_int (string_of_list_ascii l) = Some (JsNumber.digits_val l).
Proof.
  intros Hne Hd. unfold JsNumber.read_int.
  rewrite list_ascii_of_string_of_list_ascii.
  destruct l as [| c r]; [congruence |].
  pose proof (Forall_inv Hd) as Hc.
  cbn [JsString.drop_white]. rewrite (digit_not_white c Hc).
  rewrite (take_sign_digit c r Hc), (span_digits_all _ Hd). reflexivity.
Qed.

Lemma drop_zeros_length (l : list ascii) :
  (List.length (JsNumber.drop_zeros l) <= List.length l)%nat.
Proof.
  induction l as [| c r IH]; cbn [JsNumber.drop_zeros List.length];
    [lia |]. destruct (JsNumber.is_zero_char c); cbn [List.length]; lia.
Qed.

(** A run of digits is its leading zeros and the rest. *)
Lemma drop_zeros_split (l : list ascii) :
  l = JsNumber.zeros
        (List.length l - List.length (JsNumber.drop_zeros l))
      ++ JsNumber.drop_zeros l.
Proof.
  induction l as [| c r IH]; [reflexivity |].
  cbn [JsNumber.drop_zeros]. pose proof (drop_zeros_length r) as Hl.
  destruct (JsNumber.is_zero_char c) eqn:E.
  - apply Ascii.eqb_eq in E. subst c. cbn [List.length].
    replace (S (List.length r) - List.length (JsNumber.drop_zeros r))%nat
      with (S (List.length r - List.length (JsNumber.drop_zeros r)))
      by lia.
    unfold JsNumber.zeros in *. cbn [repeat app]. now rewrite <- IH.
  - rewrite Nat.sub_diag. reflexivity.
Qed.

(** The trailing zeros that [Number::toString] takes off the digits are
    put back by its layout. *)
Lemma layout_integer (l : list ascii) :
  (List.length l <= 21)%nat ->
  JsNumber.layout (rev (JsNumber.drop_zeros (rev l)))
    (Z.of_nat (List.length l) + 0) = l.
Proof.
  intros Hlen. unfold JsNumber.layout.
  pose proof (drop_zeros_length (rev l)) as Hk.
  rewrite length_rev in Hk |- *.
  replace ((Z.of_nat (List.length (JsNumber.drop_zeros (rev l)))
            <=? Z.of_nat (List.length l) + 0)
           && (Z.of_nat (List.length l) + 0 <=? 21)) with true
    by (symmetry; apply andb_true_intro; split; apply Z.leb_le; lia).
  replace (Z.to_nat (Z.of_nat (List.length l) + 0
             - Z.of_nat (List.length (JsNumber.drop_zeros (rev l)))))
    with (List.length (rev l)
          - List.length (JsNumber.drop_zeros (rev l)))%nat
    by (rewrite length_rev; lia).
  unfold JsNumber.zeros.
  rewrite <- (rev_repeat _ "0"%char), <- rev_app_distr.
  change (repeat "0"%char) with JsNumber.zeros.
  rewrite <- drop_zeros_split. apply rev_involutive.
Qed.

(** [String(n)] for a positive integer of at most 21 digits is its
    run of digits. *)
Lemma to_string_integer (n : Z) :
  0 < n < 10 ^ 21 ->
  JsNumber.to_string (JsNumber.of_Z n)
  = string_of_list_ascii (JsNumber.digits_of n).
Proof.
  intros Hn. unfold JsNumber.to_string, JsNumber.of_Z.
  replace (n =? 0) with false by (symmetry; apply Z.eqb_neq; lia).
  replace (n <? 0) with false by (symmetry; apply Z.ltb_ge; lia).
  rewrite Z.abs_eq by lia. cbn [app].
  rewrite layout_integer; [reflexivity |].
  pose proof (digits_of_length n ltac:(lia)) as Hlen.
  destruct (Nat.le_gt_cases (List.length (JsNumber.digits_of n)) 21)
    as [Hle | Hgt]; [exact Hle | exfalso].
  assert (10 ^ 21 <= 10 ^ (Z.of_nat (List.length (JsNumber.digits_of n)) - 1))
    by (apply Z.pow_le_mono_r; lia).
  lia.
Qed.

(** What [String] prints for a positive integer, [parseInt] reads
    back. *)
Lemma read_int_to_string (n : Z) :
  0 < n < 10 ^ 21 ->
  JsNumber.read_int (JsNumber.to_string (JsNumber.of_Z n)) = Some n.
Proof.
  intros Hn. rewrite (to_string_integer n Hn).
  destruct (digits_of_chars n ltac:(lia)) as [Hchars Hne].
  rewrite read_int_digits; [| exact Hne |].
  - now rewrite digits_val_digits_of by lia.
  - rewrite Hchars. apply uint_chars_digits.
Qed.

Lemma to_string_nonempty (n : Z) :
  0 < n < 10 ^ 21 ->
  JsString.nonempty (JsNumber.to_string (JsNumber.of_Z n)) = true.
Proof.
  intros Hn. rewrite (to_string_integer n Hn).
  destruct (digits_of_chars n ltac:(lia)) as [_ Hne].
  destruct (JsNumber.digits_of n); [congruence | reflexivity].
Qed.

(** X22.  A page number and a page size written in decimal notation, as
    [String] prints a positive safe integer into the query of a request,
    are read back unchanged by the handler. *)
Theorem page_and_limit_read_back (q : query) (n : Z) :
  1 <= n <= 9007199254740991 ->
  (param q "page" = Some (JsNumber.to_string (JsNumber.of_Z n)) ->
   parse_page q = JsNumber.of_Z n)
  /\ (param q "limit" = Some (JsNumber.to_string (JsNumber.of_Z n)) ->
      parse_limit q = JsNumber.of_Z n).
Proof.
  intros Hn.
  assert (Hr : 0 < n < 10 ^ 21)
    by (change (10 ^ 21) with 1000000000000000000000; lia).
  assert (Hsafe : 0 <= n < 2 ^ 53)
    by (change (2 ^ 53) with 9007199254740992; lia).
  pose proof (read_int_to_string n Hr) as Hp.
  pose proof (to_string_nonempty n Hr) as He.
  unfold parse_page, parse_limit, JsNumber.parseInt.
  split; intros ->; unfold or_text; rewrite He, Hp;
    rewrite guarded_integer by lia;
    (replace (n =? 0) with false by (symmetry; apply Z.eqb_neq; lia));
    (replace (n <? 0) with false by (symmetry; apply Z.ltb_ge; lia));
    now apply round_int_safe.
Qed.

Lemma page_and_limit_read_back_witness :
  parse_page [("page", "12"); ("limit", "12")] = JsNumber.of_Z 12
  /\ parse_limit [("page", "12"); ("limit", "12")] = JsNumber.of_Z 12.
Proof.
  destruct (page_and_limit_read_back [("page", "12"); ("limit", "12")] 12
              ltac:(lia)) as [Hpage Hlimit].
  split; [apply Hpage | apply Hlimit]; reflexivity.
Defined.
